(** * A scalable linked list on top of a key-value store

    Shallow embedding of [scalable_linked_list.js]: the append engine
    ([idempotentCreate], [atomicAppend], the page roll-over), the
    retrieval engine ([retrieveLastMostRecent], [retrieveNextMostRecent],
    the cursor arithmetic) and the functions that read one item
    ([getCurrentPage], [getPage], [retrieve]), followed by the properties
    of the specification that concern them and by further properties of
    the code.

    Layout: the JavaScript values and built-ins the module relies on
    ([JS]), the persisted items and the store, promises as trees of store
    requests ([prog]), the functions of the module, three interpreters
    (one caller at a time, a store that can refuse requests, interleaved
    callers), then the theorems. *)

From Stdlib Require Import ZArith String Ascii List Lia DecimalString DecimalPos.
From stdpp Require Import gmap strings list sorting.

Open Scope Z_scope.

(** ** JavaScript values and built-ins *)

Module JS.

(** Numbers of the integer fragment, and [NaN].  Fractions, infinities
    and integers beyond 10^21 (printed with an exponent) are outside
    the model. *)
Inductive num : Type :=
| Num (z : Z)
| NaN.

Inductive value : Type :=
| VUndefined
| VNull
| VBool (b : bool)
| VNum (n : num)
| VStr (s : string).

(** [ToBoolean]: what [if (v)] and [!v] test. *)
Definition truthy (v : value) : bool :=
  match v with
  | VUndefined | VNull => false
  | VBool b => b
  | VNum (Num z) => negb (z =? 0)
  | VNum NaN => false
  | VStr s => negb (String.eqb s EmptyString)
  end.

(** [n + ''] for a number. *)
Definition num_to_string (n : num) : string :=
  match n with
  | Num z => NilZero.string_of_int (Z.to_int z)
  | NaN => "NaN"
  end.
Arguments num_to_string : simpl never.

Definition ToString (v : value) : string :=
  match v with
  | VUndefined => "undefined"
  | VNull => "null"
  | VBool true => "true"
  | VBool false => "false"
  | VNum n => num_to_string n
  | VStr s => s
  end.

(** The white space of ASCII: tab, line feed, vertical tab, form feed,
    carriage return and space. *)
Definition is_white (c : ascii) : bool :=
  let n := N_of_ascii c in
  ((9 <=? n) && (n <=? 13) || (n =? 32))%N.

Fixpoint trim_left (s : string) : string :=
  match s with
  | String c s' => if is_white c then trim_left s' else s
  | EmptyString => s
  end.

Definition digit_value (c : ascii) : option N :=
  let n := N_of_ascii c in
  if ((48 <=? n) && (n <=? 57))%N then Some (n - 48)%N
  else if ((97 <=? n) && (n <=? 122))%N then Some (n - 87)%N
  else if ((65 <=? n) && (n <=? 90))%N then Some (n - 55)%N
  else None.

(** The longest prefix of digits of the radix; [None] while no digit
    has been read. *)
Fixpoint parse_digits (radix : N) (s : string) (acc : option N) : option N :=
  match s with
  | String c s' =>
      match digit_value c with
      | Some d =>
          if (d <? radix)%N
          then parse_digits radix s' (Some (radix * default 0%N acc + d)%N)
          else acc
      | None => acc
      end
  | EmptyString => acc
  end.

(** [parseInt(s)] without a radix: leading white space, a sign, the
    prefix [0x], then digits; [NaN] when there is no digit. *)
Definition parseInt_string (s : string) : num :=
  let s1 := trim_left s in
  let '(negative, s2) :=
    match s1 with
    | String "-" r => (true, r)
    | String "+" r => (false, r)
    | _ => (false, s1)
    end in
  let '(radix, s3) :=
    match s2 with
    | String "0" (String "x" r) | String "0" (String "X" r) => (16%N, r)
    | _ => (10%N, s2)
    end in
  match parse_digits radix s3 None with
  | Some n => Num (if negative : bool then - Z.of_N n else Z.of_N n)
  | None => NaN
  end.

Definition parseInt (v : value) : num := parseInt_string (ToString v).

(** [n <= 0], [n < 0] and [n - 1]; a comparison with [NaN] is false. *)
Definition num_le0 (n : num) : bool :=
  match n with Num z => z <=? 0 | NaN => false end.

Definition num_lt0 (n : num) : bool :=
  match n with Num z => z <? 0 | NaN => false end.

Definition num_pred (n : num) : num :=
  match n with Num z => Num (z - 1) | NaN => NaN end.

(** [StringToNumber] on integer literals (decimal, or with one of the
    prefixes [0x], [0o], [0b]); the empty string is 0.  Numerals with a
    fraction or an exponent, and [Infinity], do not denote a number of
    the integer fragment and are read as [NaN]. *)
Fixpoint all_white (s : string) : bool :=
  match s with
  | String c s' => is_white c && all_white s'
  | EmptyString => true
  end.

Fixpoint digits_then_white (radix : N) (s : string) (acc : option N) : option N :=
  match s with
  | String c s' =>
      match digit_value c with
      | Some d =>
          if (d <? radix)%N
          then digits_then_white radix s' (Some (radix * default 0%N acc + d)%N)
          else None
      | None => if all_white s then acc else None
      end
  | EmptyString => acc
  end.

Definition StringToNumber (s : string) : num :=
  let s1 := trim_left s in
  match s1 with
  | EmptyString => Num 0
  | String "0" (String "x" r) | String "0" (String "X" r) =>
      match digits_then_white 16 r None with
      | Some n => Num (Z.of_N n)
      | None => NaN
      end
  | String "0" (String "o" r) | String "0" (String "O" r) =>
      match digits_then_white 8 r None with
      | Some n => Num (Z.of_N n)
      | None => NaN
      end
  | String "0" (String "b" r) | String "0" (String "B" r) =>
      match digits_then_white 2 r None with
      | Some n => Num (Z.of_N n)
      | None => NaN
      end
  | String "-" r =>
      match digits_then_white 10 r None with
      | Some n => Num (- Z.of_N n)
      | None => NaN
      end
  | String "+" r =>
      match digits_then_white 10 r None with
      | Some n => Num (Z.of_N n)
      | None => NaN
      end
  | _ =>
      match digits_then_white 10 s1 None with
      | Some n => Num (Z.of_N n)
      | None => NaN
      end
  end.

Definition ToNumber (v : value) : num :=
  match v with
  | VUndefined => NaN
  | VNull => Num 0
  | VBool true => Num 1
  | VBool false => Num 0
  | VNum n => n
  | VStr s => StringToNumber s
  end.

(** [n >= v] for a number [n]: [v] is converted to a number. *)
Definition ge (n : Z) (v : value) : bool :=
  match ToNumber v with
  | Num z => z <=? n
  | NaN => false
  end.

(** [a.splice(start, deleteCount)]: the array that is left in [a]. *)
Definition splice {A} (a : list A) (start deleteCount : Z) : list A :=
  let len := Z.of_nat (length a) in
  let actualStart :=
    if start <? 0 then Z.max (len + start) 0 else Z.min start len in
  let actualDeleteCount :=
    Z.min (Z.max deleteCount 0) (len - actualStart) in
  take (Z.to_nat actualStart) a
    ++ drop (Z.to_nat (actualStart + actualDeleteCount)) a.

(** [a.slice(0, e)]. *)
Definition slice0 {A} (a : list A) (e : Z) : list A :=
  let len := Z.of_nat (length a) in
  let final := if e <? 0 then Z.max (len + e) 0 else Z.min e len in
  take (Z.to_nat final) a.

End JS.

Import JS.

(** ** Configuration and constants *)

(** [const config = { tableName: '', region: '', maxElementPerPage: 50 }].
    [maxElementPerPage] holds whatever value the caller stored. *)
Record config : Type := Config {
  tableName : string;
  region : string;
  maxElementPerPage : value
}.

Definition default_config : config :=
  {| tableName := EmptyString; region := EmptyString;
     maxElementPerPage := VNum (Num 50) |}.

Definition configureDynamoDB (reg table : string) (cfg : config) : config :=
  {| tableName := table; region := reg;
     maxElementPerPage := maxElementPerPage cfg |}.

Definition configureMaximumNumberOfElementPerPage
    (numberOfMaximumElement : value) (cfg : config) : config :=
  if truthy numberOfMaximumElement
  then {| tableName := tableName cfg; region := region cfg;
          maxElementPerPage := numberOfMaximumElement |}
  else cfg.

(** [constants.labels.summary] *)
Definition label_summary : string := "_summary".

(** ** Persisted items *)

(** The value a caller appends: an object, kept here by its content. *)
Definition payload : Type := string.

Record summary : Type := Summary {
  s_v : Z;
  s_id : string;
  s_metadata : option string;
  s_submittedAt : Z;
  s_currentPage : Z
}.

Record page : Type := Page {
  p_v : Z;
  p_id : string;
  p_submittedAt : Z;
  data_list : list payload
}.

(** [timestamp] is the reading of [new Date().getTime()]. *)
Definition defaultPageSummary (id : string) (metadata : option string)
    (timestamp : Z) : summary :=
  {| s_v := 1;
     s_id := id +:+ label_summary;
     s_metadata := metadata;
     s_submittedAt := timestamp;
     s_currentPage := 0 |}.

Definition getDefaultPageData (itemId : string) (timestamp : Z) : page :=
  {| p_v := 1; p_id := itemId; p_submittedAt := timestamp; data_list := [] |}.

(** An element as the retrieval functions hand it out: the stored object
    with the three properties [indexDataList] writes on it. *)
Record item : Type := Item {
  item_val : payload;
  page_id : string;
  sequence_id : string;
  resource_id_parent : string
}.

(** What [atomicAppend] resolves to. *)
Record position : Type := Position {
  pos_page_id : Z;
  pos_sequence_id : Z
}.

(** ** The store

    One table of items keyed by their [id].  The module builds two kinds
    of keys, [id + '_summary'] and [id + '_' + pageId]; the store keeps
    one map per kind, indexed by the list identifier and by the list
    identifier with the page number.  The two kinds of keys never meet,
    and a key determines the list and the page: what follows its last
    underscore is [summary] or the page number.  A page number that is
    [NaN] builds the key [id + '_NaN'], under which the module never
    writes. *)
Record store : Type := Store {
  summaries : gmap string summary;
  pages : gmap (string * Z) page
}.

Definition empty_store : store := {| summaries := ∅; pages := ∅ |}.

Definition lookup_page (σ : store) (id : string) (pageId : num) : option page :=
  match pageId with
  | Num z => pages σ !! (id, z)
  | NaN => None
  end.

(** ** Promises

    Every function of the module that talks to the store returns a
    promise.  A promise is modelled by the tree of the requests it sends:
    a node is one request to the store, and the continuation receives the
    store's answer.  Between two requests the code runs without
    interruption, so the nodes are exactly the points where another
    caller can be scheduled. *)

Inductive exn : Type :=
| AwsError (code : string)   (* a rejection by the SDK; [err.code] *)
| JsError                    (* [new Error()] *)
| TypeError                  (* a property read on [undefined] *)
| Thrown (msg : string).     (* [throw 'msg'] *)

Definition has_code (e : exn) (c : string) : bool :=
  match e with
  | AwsError c' => String.eqb c' c
  | _ => false
  end.

Definition ConditionalCheckFailedException : string :=
  "ConditionalCheckFailedException".
Definition ValidationException : string := "ValidationException".

Inductive reply (A : Type) : Type :=
| Resolved (a : A)
| Rejected (e : exn).
Arguments Resolved {A} a.
Arguments Rejected {A} e.

Inductive prog (A : Type) : Type :=
| Ret (a : A)
| Throw (e : exn)
| Never
| GetSummary (id : string) (k : reply (option summary) → prog A)
| GetPage (id : string) (pageId : num) (k : reply (option page) → prog A)
| PutSummary (id : string) (it : summary) (k : reply unit → prog A)
| PutPage (id : string) (pageId : Z) (it : page) (k : reply unit → prog A)
| ListAppend (id : string) (pageId : Z) (v : payload) (k : reply page → prog A)
| IncrementCounter (id : string) (floor : Z) (k : reply summary → prog A).
Arguments Ret {A} a.
Arguments Throw {A} e.
Arguments Never {A}.
Arguments GetSummary {A} id k.
Arguments GetPage {A} id pageId k.
Arguments PutSummary {A} id it k.
Arguments PutPage {A} id pageId it k.
Arguments ListAppend {A} id pageId v k.
Arguments IncrementCounter {A} id floor k.

(** [p.then(f)] *)
Fixpoint bind {A B} (m : prog A) (f : A → prog B) : prog B :=
  match m with
  | Ret a => f a
  | Throw e => Throw e
  | Never => Never
  | GetSummary id k => GetSummary id (λ r, bind (k r) f)
  | GetPage id p k => GetPage id p (λ r, bind (k r) f)
  | PutSummary id it k => PutSummary id it (λ r, bind (k r) f)
  | PutPage id p it k => PutPage id p it (λ r, bind (k r) f)
  | ListAppend id p v k => ListAppend id p v (λ r, bind (k r) f)
  | IncrementCounter id c k => IncrementCounter id c (λ r, bind (k r) f)
  end.

(** [p.catch(h)] *)
Fixpoint catch {A} (m : prog A) (h : exn → prog A) : prog A :=
  match m with
  | Ret a => Ret a
  | Throw e => h e
  | Never => Never
  | GetSummary id k => GetSummary id (λ r, catch (k r) h)
  | GetPage id p k => GetPage id p (λ r, catch (k r) h)
  | PutSummary id it k => PutSummary id it (λ r, catch (k r) h)
  | PutPage id p it k => PutPage id p it (λ r, catch (k r) h)
  | ListAppend id p v k => ListAppend id p v (λ r, catch (k r) h)
  | IncrementCounter id c k => IncrementCounter id c (λ r, catch (k r) h)
  end.

Notation "x <- m ;; k" := (bind m (λ x, k))
  (at level 100, m at next level, right associativity,
   format "'[v' x  <-  m  ;; '/' k ']'").

(** The promise of one request settles with the store's answer. *)
Definition settle {A} (r : reply A) : prog A :=
  match r with
  | Resolved a => Ret a
  | Rejected e => Throw e
  end.

(** ** The append engine *)

(** [getPageData(id, pageId, field)], for the summary key and for a page
    key: the item found under the key, or [undefined]. *)
Definition getPageData_summary (id : string) : prog (option summary) :=
  GetSummary id settle.

Definition getPageData_page (id : string) (pageId : num) : prog (option page) :=
  GetPage id pageId settle.

Definition getCurrentPage (id : string) : prog Z :=
  data <- getPageData_summary id ;;
  match data with
  | Some s => Ret (s_currentPage s)
  | None => Throw TypeError
  end.

Definition idempotentCreate (id : string) (metadata : option string)
    (timestamp : Z) : prog summary :=
  let summaryObject := defaultPageSummary id metadata timestamp in
  _ <- PutSummary id summaryObject settle ;;
  Ret summaryObject.

Definition appendDataToPage (id : string) (pageId : Z) (data : payload) : prog Z :=
  res <- ListAppend id pageId data settle ;;
  Ret (Z.of_nat (length (data_list res))).

Definition createNewPage (id : string) (pageId : Z) (timestamp : Z) : prog unit :=
  let itemId := id +:+ "_" +:+ num_to_string (Num pageId) in
  let pageData := getDefaultPageData itemId timestamp in
  catch (_ <- PutPage id pageId pageData settle ;; Ret tt)
        (λ err,
           if has_code err ConditionalCheckFailedException
           then Ret tt
           else Throw JsError).

(** Resolves to the new counter, or to [undefined] when another caller
    has moved it. *)
Definition increasePageCounter (id : string) (currentCounterValue : Z)
    : prog (option Z) :=
  catch (res <- IncrementCounter id currentCounterValue settle ;;
         Ret (Some (s_currentPage res)))
        (λ err,
           if has_code err ConditionalCheckFailedException
           then Ret None
           else Throw JsError).

(** What the first handler of [atomicAppendImpl] does with the length
    the append returned. *)
Definition afterAppend (cfg : config) (timestamp : Z) (id : string)
    (currentPage : Z) (numberOfElementInPage : Z) : prog position :=
  let result := {| pos_page_id := currentPage;
                   pos_sequence_id := numberOfElementInPage - 1 |} in
  if JS.ge numberOfElementInPage (maxElementPerPage cfg)
  then
    incrementedCurrentPage <- increasePageCounter id currentPage ;;
    match incrementedCurrentPage with
    | Some c =>
        if truthy (VNum (Num c)) && (currentPage <? c)
        then _ <- createNewPage id c timestamp ;; Ret result
        else Ret result
    | None => Ret result
    end
  else Ret result.

(** [atomicAppendImpl(id, currentPage, value, attempt)].  The recursive
    call is made with [attempt + 1] and [attempt > 1] throws, so three
    unfoldings of the body cover every call; [atomicAppendImpl_eq] below
    states the recursive equation of the source. *)
Definition atomicAppendImpl_body (self : nat → prog position)
    (cfg : config) (timestamp : Z) (id : string) (currentPage : Z)
    (value : payload) (attempt : nat) : prog position :=
  if (1 <? attempt)%nat then Throw JsError
  else
    catch (numberOfElementInPage <- appendDataToPage id currentPage value ;;
           afterAppend cfg timestamp id currentPage numberOfElementInPage)
          (λ err,
             if has_code err ValidationException
             then _ <- createNewPage id currentPage timestamp ;;
                  self (attempt + 1)%nat
             else Throw JsError).

Definition atomicAppendImpl (cfg : config) (timestamp : Z) (id : string)
    (currentPage : Z) (value : payload) (attempt : nat) : prog position :=
  atomicAppendImpl_body
    (atomicAppendImpl_body
       (atomicAppendImpl_body (λ _, Throw JsError)
          cfg timestamp id currentPage value)
       cfg timestamp id currentPage value)
    cfg timestamp id currentPage value attempt.

(** [timestamp] is what the clock reads during the call; it is the
    [submittedAt] of a page the call creates. *)
Definition atomicAppend (cfg : config) (timestamp : Z) (id : string)
    (value : payload) : prog position :=
  currentPage <- getCurrentPage id ;;
  atomicAppendImpl cfg timestamp id currentPage value 0.

(** ** The retrieval engine *)

Definition indexDataList (data_list : option (list payload))
    (currentPage : num) (resource_id_parent : string) : option (list item) :=
  match data_list with
  | None => None
  | Some l =>
      Some (imap (λ i v,
                    {| item_val := v;
                       page_id := num_to_string currentPage;
                       sequence_id := num_to_string (Num (Z.of_nat i));
                       resource_id_parent := resource_id_parent |}) l)
  end.

(** A page that is missing makes [data.data_list] throw; the [catch]
    turns that, and any rejection of the request, into [undefined]. *)
Definition retrieveDataList (id : string) (pageId : num)
    : prog (option (list item)) :=
  catch (data <- getPageData_page id pageId ;;
         match data with
         | Some pg => Ret (indexDataList (Some (data_list pg)) pageId id)
         | None => Throw TypeError
         end)
        (λ err, Ret None).

(** [if (fromSequence) data_list.splice(fromSequence, length - fromSequence)];
    [fromSequence] is [null]/[undefined] ([None]) or a number. *)
Definition cutAboveSequence (fromSequence : option num) (data_list : list item)
    : list item :=
  match fromSequence with
  | Some (Num k) =>
      if truthy (VNum (Num k))
      then splice data_list k (Z.of_nat (length data_list) - k)
      else data_list
  | Some NaN | None => data_list
  end.

(** The inner function of [retrieveNElement].  [retrievedData] and
    [fromSequence] are the variables it updates.  A walk whose page number
    is [NaN] never reaches [currentPage < 0]: the recursion is driven by
    [fuel], and a walk that outlives it is the promise that never
    settles. *)
Fixpoint recursivelyRetrieveData (fuel : nat) (id : string) (numberOfItems : Z)
    (currentPage : num) (fromSequence : option num) (retrievedData : list item)
    : prog (list item) :=
  match fuel with
  | O => Never
  | S fuel' =>
      if num_lt0 currentPage then Ret retrievedData
      else
        data_list <- retrieveDataList id currentPage ;;
        let retrievedData :=
          match data_list with
          | Some ((_ :: _) as l) =>
              retrievedData ++ reverse (cutAboveSequence fromSequence l)
          | _ => retrievedData
          end in
        if Z.of_nat (length retrievedData) <? numberOfItems
        then recursivelyRetrieveData fuel' id numberOfItems
               (num_pred currentPage) None retrievedData
        else Ret retrievedData
  end.

(** Calls of the inner function a walk from [fromPage] makes when the page
    number is an integer: one per page down to 0, and the one that stops
    at -1. *)
Definition walk_fuel (fromPage : num) : nat :=
  match fromPage with
  | Num z => S (Z.to_nat (z + 1))
  | NaN => 1
  end.

(** The result is what the source passes to [callback]. *)
Definition retrieveNElement (id : string) (fromPage : num)
    (fromSequence : option num) (numberOfItems : Z) : prog (list item) :=
  retrievedData <-
    recursivelyRetrieveData (walk_fuel fromPage) id numberOfItems
      fromPage fromSequence [] ;;
  Ret (if numberOfItems <? Z.of_nat (length retrievedData)
       then slice0 retrievedData numberOfItems
       else retrievedData).

Definition retrieveLastMostRecent (id : string) (numberOfItems : Z)
    : prog (list item) :=
  currentPage <- getCurrentPage id ;;
  retrieveNElement id (Num currentPage) None numberOfItems.

(** [startAfterPointer]; a property that is not set reads [VUndefined]. *)
Record cursor : Type := Cursor {
  cur_page_id : value;
  cur_sequence_id : value
}.

Record pointer : Type := Pointer {
  ptr_page_id : num;
  ptr_sequence_id : option num
}.

Definition getValidPointer (startAfterPointer : cursor) : pointer :=
  let currentPageToStartWith := parseInt (cur_page_id startAfterPointer) in
  let currentSequenceToStartWith := parseInt (cur_sequence_id startAfterPointer) in
  let '(currentPageToStartWith, currentSequenceToStartWith) :=
    if num_le0 currentSequenceToStartWith
    then (num_pred currentPageToStartWith, None)
    else (currentPageToStartWith, Some currentSequenceToStartWith) in
  let '(currentPageToStartWith, currentSequenceToStartWith) :=
    if num_lt0 currentPageToStartWith
    then (Num 0, Some (Num 0))
    else (currentPageToStartWith, currentSequenceToStartWith) in
  {| ptr_page_id := currentPageToStartWith;
     ptr_sequence_id := currentSequenceToStartWith |}.

Definition invalid_pointer : exn := Thrown "No valid pointer has been set".

(** [startAfterPointer] is [None] when the caller passes no object. *)
Definition retrieveNextMostRecent (id : string)
    (startAfterPointer : option cursor) (numberOfItems : Z) : prog (list item) :=
  match startAfterPointer with
  | None => Throw invalid_pointer
  | Some c =>
      if negb (truthy (cur_page_id c)) || negb (truthy (cur_sequence_id c))
      then Throw invalid_pointer
      else
        let pointer := getValidPointer c in
        retrieveNElement id (ptr_page_id pointer) (ptr_sequence_id pointer)
          numberOfItems
  end.

(** ** The rest of the interface *)

(** The [pageId] argument of [getPage]: the end of the key, which is
    [constants.labels.summary] or ['_' + n] for a page number [n]. *)
Inductive key_suffix : Type :=
| SuffixSummary
| SuffixPage (pageId : num).

(** An item of the table, as [getPageData] hands it out. *)
Inductive stored_item : Type :=
| SummaryItem (s : summary)
| PageItem (pg : page).

(** [getPageData(id, pageId)] without a projection. *)
Definition getPageData (id : string) (pageId : key_suffix)
    : prog (option stored_item) :=
  match pageId with
  | SuffixSummary => data <- getPageData_summary id ;; Ret (SummaryItem <$> data)
  | SuffixPage n => data <- getPageData_page id n ;; Ret (PageItem <$> data)
  end.

(** [getPage(id, pageId)]: the item under the key, or [undefined]. *)
Definition getPage (id : string) (pageId : key_suffix)
    : prog (option stored_item) :=
  getPageData id pageId.

(** The [pageId] argument of [retrieve]: a page number, or
    [constants.labels.publicSummary]. *)
Inductive page_name : Type :=
| PageNumber (n : num)
| PublicSummary.

(** [pageId + ''] *)
Definition page_name_to_string (pageId : page_name) : string :=
  match pageId with
  | PageNumber n => num_to_string n
  | PublicSummary => "summary"
  end.

(** The [data] of what [retrieve] resolves to: the summary item as it is
    stored, or the indexed elements of a page; [None] is [undefined]. *)
Inductive retrieved_data : Type :=
| SummaryData (s : option summary)
| ListData (l : option (list item)).

Record retrieved : Type := Retrieved {
  r_page_id : string;
  r_data : retrieved_data
}.

(** [retrieve(id, pageId)].  In [pageId+''.replace('_','')] the call of
    [replace] applies to the empty string, so that [page_id] is
    [pageId + ''].  The test ['_' + pageId === constants.labels.summary]
    holds of the label and of no number ([summary_label_test]). *)
Definition retrieve (id : string) (pageId : page_name) : prog retrieved :=
  let addPageIdInResult data :=
    {| r_page_id := page_name_to_string pageId; r_data := data |} in
  match pageId with
  | PublicSummary =>
      (* ['_' + pageId === constants.labels.summary] *)
      data <- getPageData_summary id ;;
      Ret (addPageIdInResult (SummaryData data))
  | PageNumber n =>
      data <- retrieveDataList id n ;;
      Ret (addPageIdInResult (ListData data))
  end.

(** ** The requests, as the store serves them *)

(** Modelled from the spec: the store's [Get] on a summary key (the
    request is sent through the external package [dynamo_data_access]):
    the item, or nothing when the key is absent. *)
Definition store_get_summary (σ : store) (id : string)
    : reply (option summary) :=
  Resolved (summaries σ !! id).

(** Modelled from the spec: the store's [Get] on a page key. *)
Definition store_get_page (σ : store) (id : string) (pageId : num)
    : reply (option page) :=
  Resolved (lookup_page σ id pageId).

(** Modelled from the spec: the store's [PutIfAbsent] (a [put] with the
    condition [id <> :val] on the item's own key): it creates the item
    when the key is free and is refused with
    [ConditionalCheckFailedException], without overwriting, when the key
    is taken. *)
Definition store_put_summary (σ : store) (id : string) (it : summary)
    : reply unit * store :=
  match summaries σ !! id with
  | Some _ => (Rejected (AwsError ConditionalCheckFailedException), σ)
  | None =>
      (Resolved tt,
       {| summaries := <[id := it]> (summaries σ); pages := pages σ |})
  end.

(** Modelled from the spec: the store's [PutIfAbsent], on a page key. *)
Definition store_put_page (σ : store) (id : string) (pageId : Z) (it : page)
    : reply unit * store :=
  match pages σ !! (id, pageId) with
  | Some _ => (Rejected (AwsError ConditionalCheckFailedException), σ)
  | None =>
      (Resolved tt,
       {| summaries := summaries σ;
          pages := <[(id, pageId) := it]> (pages σ) |})
  end.

(** Modelled from the spec: the store's [AppendToList] (an [update] with
    [list_append] on [data_list], returning the new item): refused with
    [ValidationException] when the item does not exist. *)
Definition store_list_append (σ : store) (id : string) (pageId : Z)
    (v : payload) : reply page * store :=
  match pages σ !! (id, pageId) with
  | Some pg =>
      let pg' := {| p_v := p_v pg; p_id := p_id pg;
                    p_submittedAt := p_submittedAt pg;
                    data_list := data_list pg ++ [v] |} in
      (Resolved pg',
       {| summaries := summaries σ;
          pages := <[(id, pageId) := pg']> (pages σ) |})
  | None => (Rejected (AwsError ValidationException), σ)
  end.

(** Modelled from the spec: the store's [IncrementIfAtLeast]
    ([incrementCounter] of the external package [dynamo_data_access]):
    it adds 1 to [currentPage] when the counter equals [floor], and is
    refused with [ConditionalCheckFailedException] otherwise. *)
Definition store_increment (σ : store) (id : string) (floor : Z)
    : reply summary * store :=
  match summaries σ !! id with
  | Some s =>
      if s_currentPage s =? floor
      then
        let s' := {| s_v := s_v s; s_id := s_id s;
                     s_metadata := s_metadata s;
                     s_submittedAt := s_submittedAt s;
                     s_currentPage := s_currentPage s + 1 |} in
        (Resolved s',
         {| summaries := <[id := s']> (summaries σ); pages := pages σ |})
      else (Rejected (AwsError ConditionalCheckFailedException), σ)
  | None => (Rejected (AwsError ConditionalCheckFailedException), σ)
  end.

(** ** One caller at a time *)

Inductive outcome (A : Type) : Type :=
| Fulfilled (a : A)
| Failed (e : exn)
| Pending.
Arguments Fulfilled {A} a.
Arguments Failed {A} e.
Arguments Pending {A}.

(** Runs a promise to its end against the store, with no other caller
    in between. *)
Fixpoint run {A} (m : prog A) (σ : store) : outcome A * store :=
  match m with
  | Ret a => (Fulfilled a, σ)
  | Throw e => (Failed e, σ)
  | Never => (Pending, σ)
  | GetSummary id k => run (k (store_get_summary σ id)) σ
  | GetPage id p k => run (k (store_get_page σ id p)) σ
  | PutSummary id it k =>
      let '(r, σ') := store_put_summary σ id it in run (k r) σ'
  | PutPage id p it k =>
      let '(r, σ') := store_put_page σ id p it in run (k r) σ'
  | ListAppend id p v k =>
      let '(r, σ') := store_list_append σ id p v in run (k r) σ'
  | IncrementCounter id c k =>
      let '(r, σ') := store_increment σ id c in run (k r) σ'
  end.

(** ** A store that can refuse a request

    The store can refuse a request for reasons of its own (throttling, an
    item over the size limit, a transport failure).  [w_faults] scripts
    that: its first entry, when it is [Some e], makes the next request
    fail with [e] and leaves the store as it is.  [w_log] records the
    requests that were sent, each with the error it was refused with, if
    any. *)

Inductive request : Type :=
| ReqGetSummary (id : string)
| ReqGetPage (id : string) (pageId : num)
| ReqPutSummary (id : string)
| ReqPutPage (id : string) (pageId : Z)
| ReqListAppend (id : string) (pageId : Z) (v : payload)
| ReqIncrementCounter (id : string) (floor : Z).

Abbreviation trace := (list (request * option exn)).

Record world : Type := World {
  w_store : store;
  w_faults : list (option exn);
  w_log : trace
}.

Definition with_fault {A} (faults : list (option exn)) (σ : store)
    (served : reply A * store) : reply A * store :=
  match faults with
  | Some e :: _ => (Rejected e, σ)
  | _ => served
  end.

Definition refusal {A} (r : reply A) : option exn :=
  match r with
  | Resolved _ => None
  | Rejected e => Some e
  end.

(** The answer to one request: the scripted fault if there is one, what
    the store serves otherwise. *)
Definition serve {A} (w : world) (req : request) (served : reply A * store)
    : reply A * world :=
  let '(r, σ') := with_fault (w_faults w) (w_store w) served in
  (r, {| w_store := σ';
         w_faults := tail (w_faults w);
         w_log := w_log w ++ [(req, refusal r)] |}).

Fixpoint run_with_faults {A} (m : prog A) (w : world) : outcome A * world :=
  match m with
  | Ret a => (Fulfilled a, w)
  | Throw e => (Failed e, w)
  | Never => (Pending, w)
  | GetSummary id k =>
      let '(r, w') :=
        serve w (ReqGetSummary id)
          (store_get_summary (w_store w) id, w_store w) in
      run_with_faults (k r) w'
  | GetPage id p k =>
      let '(r, w') :=
        serve w (ReqGetPage id p)
          (store_get_page (w_store w) id p, w_store w) in
      run_with_faults (k r) w'
  | PutSummary id it k =>
      let '(r, w') :=
        serve w (ReqPutSummary id) (store_put_summary (w_store w) id it) in
      run_with_faults (k r) w'
  | PutPage id p it k =>
      let '(r, w') :=
        serve w (ReqPutPage id p) (store_put_page (w_store w) id p it) in
      run_with_faults (k r) w'
  | ListAppend id p v k =>
      let '(r, w') :=
        serve w (ReqListAppend id p v) (store_list_append (w_store w) id p v) in
      run_with_faults (k r) w'
  | IncrementCounter id c k =>
      let '(r, w') :=
        serve w (ReqIncrementCounter id c) (store_increment (w_store w) id c) in
      run_with_faults (k r) w'
  end.

Definition is_list_append (ev : request * option exn) : bool :=
  match ev.1 with
  | ReqListAppend _ _ _ => true
  | _ => false
  end.

(** How many times the promise asked the store to append. *)
Definition count_list_appends (log : trace) : nat :=
  length (filter (λ ev, is_list_append ev = true) log).

(** ** Interleaved callers *)

(** One request of a promise in flight: the store serves it and the
    promise moves to its continuation.  A settled promise has no step. *)
Definition request_step {A} (m : prog A) (σ : store) : option (prog A * store) :=
  match m with
  | Ret _ | Throw _ | Never => None
  | GetSummary id k => Some (k (store_get_summary σ id), σ)
  | GetPage id p k => Some (k (store_get_page σ id p), σ)
  | PutSummary id it k =>
      let '(r, σ') := store_put_summary σ id it in Some (k r, σ')
  | PutPage id p it k =>
      let '(r, σ') := store_put_page σ id p it in Some (k r, σ')
  | ListAppend id p v k =>
      let '(r, σ') := store_list_append σ id p v in Some (k r, σ')
  | IncrementCounter id c k =>
      let '(r, σ') := store_increment σ id c in Some (k r, σ')
  end.

(** A call of the public interface. *)
Inductive call : Type :=
| CallIdempotentCreate (id : string) (metadata : option string) (timestamp : Z)
| CallAtomicAppend (cfg : config) (timestamp : Z) (id : string) (value : payload)
| CallGetCurrentPage (id : string)
| CallRetrieveLastMostRecent (id : string) (numberOfItems : Z)
| CallRetrieveNextMostRecent (id : string) (startAfterPointer : option cursor)
    (numberOfItems : Z).

(** A call in flight; its result is dropped, only its requests matter to
    the other callers. *)
Abbreviation thread := (prog unit).

Definition start (c : call) : thread :=
  match c with
  | CallIdempotentCreate id metadata timestamp =>
      _ <- idempotentCreate id metadata timestamp ;; Ret tt
  | CallAtomicAppend cfg timestamp id value =>
      _ <- atomicAppend cfg timestamp id value ;; Ret tt
  | CallGetCurrentPage id =>
      _ <- getCurrentPage id ;; Ret tt
  | CallRetrieveLastMostRecent id n =>
      _ <- retrieveLastMostRecent id n ;; Ret tt
  | CallRetrieveNextMostRecent id c n =>
      _ <- retrieveNextMostRecent id c n ;; Ret tt
  end.

(** The scheduler picks thread [i]; a pick that names no thread, or a
    settled one, changes nothing. *)
Definition sched_step (st : list thread * store) (i : nat) : list thread * store :=
  match st.1 !! i with
  | Some m =>
      match request_step m st.2 with
      | Some (m', σ') => (<[i := m']> st.1, σ')
      | None => st
      end
  | None => st
  end.

(** An interleaving is the sequence of the scheduler's picks. *)
Definition run_schedule (sched : list nat) (st : list thread * store)
    : list thread * store :=
  foldl sched_step st sched.

(** What a reader of the summary observes. *)
Definition observe_currentPage (σ : store) (id : string) : option Z :=
  s_currentPage <$> summaries σ !! id.

(** ** Notions the properties are stated with *)

(** The elements of page [p] as [retrieveDataList] hands them out; a page
    that is absent has none. *)
Definition page_items (σ : store) (id : string) (p : Z) : list item :=
  match pages σ !! (id, p) with
  | Some pg => default [] (indexDataList (Some (data_list pg)) (Num p) id)
  | None => []
  end.

(** Pages [n - 1] down to 0, each with its most recent element first. *)
Fixpoint pages_below (σ : store) (id : string) (n : nat) : list item :=
  match n with
  | O => []
  | S n' => reverse (page_items σ id (Z.of_nat n')) ++ pages_below σ id n'
  end.

(** Everything a walk that starts at [fromPage] can deliver: the first
    page cut at [fromSequence], then the pages below it. *)
Definition walk_items (σ : store) (id : string) (fromPage : Z)
    (fromSequence : option num) : list item :=
  if fromPage <? 0 then []
  else reverse (cutAboveSequence fromSequence (page_items σ id fromPage))
         ++ pages_below σ id (Z.to_nat fromPage).

(** Where an element says it is: its [page_id] and [sequence_id], read
    back as numbers. *)
Definition item_position (it : item) : num * num :=
  (parseInt (VStr (page_id it)), parseInt (VStr (sequence_id it))).

(** [a] is more recent than [b]: a later page, or the same page and a
    higher sequence number. *)
Definition precedes (a b : item) : Prop :=
  match item_position a, item_position b with
  | (Num p, Num s), (Num p', Num s') => p' < p ∨ (p' = p ∧ s' < s)
  | _, _ => False
  end.

(** In a result, an element that comes first is more recent than every
    element after it. *)
Definition most_recent_first (r : list item) : Prop :=
  ∀ i j a b, (i < j)%nat → r !! i = Some a → r !! j = Some b → precedes a b.

(** The cursor a caller builds from an element it was given. *)
Definition cursor_of (it : item) : cursor :=
  {| cur_page_id := VStr (page_id it);
     cur_sequence_id := VStr (sequence_id it) |}.

(** The store without the item of page [p] (a blank page). *)
Definition delete_page (σ : store) (id : string) (p : Z) : store :=
  {| summaries := summaries σ; pages := delete (id, p) (pages σ) |}.

Definition without_page (p : Z) (l : list item) : list item :=
  filter (λ it, page_id it ≠ num_to_string (Num p)) l.

(** Tolerance to blank pages, read literally: on the store without page
    [p] the walk returns what it returns on the store with it, minus the
    elements of that page. *)
Definition blank_page_exact (σ : store) (id : string) (p : Z) (n : Z) : Prop :=
  ∃ r r',
    run (retrieveLastMostRecent id n) σ = (Fulfilled r, σ)
    ∧ run (retrieveLastMostRecent id n) (delete_page σ id p)
      = (Fulfilled r', delete_page σ id p)
    ∧ r' = without_page p r.

(** From [σ] to [σ'] no element was recorded: the summaries are the
    same, every page is kept as it was, and a page that is new is page
    [p] of the list, empty. *)
Definition nothing_appended (σ σ' : store) (id : string) (p : Z) : Prop :=
  summaries σ' = summaries σ
  ∧ (∀ key pg, pages σ !! key = Some pg → pages σ' !! key = Some pg)
  ∧ (∀ key pg,
       pages σ' !! key = Some pg →
       pages σ !! key = Some pg ∨ (key = (id, p) ∧ data_list pg = [])).

(** The list has no item in the store yet. *)
Definition fresh (σ : store) (id : string) : Prop :=
  summaries σ !! id = None ∧ ∀ p, pages σ !! (id, p) = None.

(** The stores a single caller reaches: the list is created, then
    appended to, one call after the other, under one configuration. *)
Inductive sequential (cfg : config) (id : string) : store → Prop :=
| sequential_create σ metadata timestamp :
    fresh σ id →
    sequential cfg id (run (idempotentCreate id metadata timestamp) σ).2
| sequential_append σ timestamp value :
    sequential cfg id σ →
    sequential cfg id (run (atomicAppend cfg timestamp id value) σ).2.

(** What holds of the list between two calls of a single caller: the
    counter is not negative, there is no page above it, and the page it
    names, if it exists, is not full. *)
Definition tail_open (M : Z) (id : string) (σ : store) : Prop :=
  ∃ s,
    summaries σ !! id = Some s
    ∧ 0 ≤ s_currentPage s
    ∧ (∀ q, s_currentPage s < q → pages σ !! (id, q) = None)
    ∧ (∀ pg, pages σ !! (id, s_currentPage s) = Some pg →
             Z.of_nat (length (data_list pg)) < M).

(** Every summary a promise asks the store to create starts at page 0. *)
Fixpoint fresh_puts {A} (m : prog A) : Prop :=
  match m with
  | Ret _ | Throw _ | Never => True
  | GetSummary _ k => ∀ r, fresh_puts (k r)
  | GetPage _ _ k => ∀ r, fresh_puts (k r)
  | PutSummary _ it k => s_currentPage it = 0 ∧ ∀ r, fresh_puts (k r)
  | PutPage _ _ _ k => ∀ r, fresh_puts (k r)
  | ListAppend _ _ _ k => ∀ r, fresh_puts (k r)
  | IncrementCounter _ _ k => ∀ r, fresh_puts (k r)
  end.

Definition counters_nonneg (σ : store) : Prop :=
  ∀ id c, observe_currentPage σ id = Some c → 0 ≤ c.

(** From [σ] to [σ'] no list is lost and no counter goes down. *)
Definition counters_grow (σ σ' : store) : Prop :=
  ∀ id c,
    observe_currentPage σ id = Some c →
    ∃ c', observe_currentPage σ' id = Some c' ∧ c ≤ c'.

(** ** Notions the further properties are stated with *)

(** The values of page [p] in the order they were appended; a page that
    is absent has none. *)
Definition page_values (σ : store) (id : string) (p : Z) : list payload :=
  match pages σ !! (id, p) with
  | Some pg => data_list pg
  | None => []
  end.

(** A single caller appends the values one call after the other; each
    comes with the reading of the clock during its call. *)
Definition append_all (cfg : config) (id : string) (σ : store)
    (appends : list (Z * payload)) : store :=
  foldl (λ σ a, (run (atomicAppend cfg a.1 id a.2) σ).2) σ appends.

(** The elements of a list filled [M] per page, in the order of the
    appends: element number [i] is on page [i / M] at sequence
    [i mod M]. *)
Definition expected_items (M : Z) (id : string) (values : list payload)
    : list item :=
  imap (λ i v,
          {| item_val := v;
             page_id := num_to_string (Num (Z.of_nat i / M));
             sequence_id := num_to_string (Num (Z.of_nat i mod M));
             resource_id_parent := id |}) values.

(** From [σ] to [σ'] no page is lost and a page keeps the values it
    held, each at its place: what a page holds only grows at its end. *)
Definition pages_grow (σ σ' : store) : Prop :=
  ∀ key pg,
    pages σ !! key = Some pg →
    ∃ pg', pages σ' !! key = Some pg' ∧ data_list pg `prefix_of` data_list pg'.

(** The list a call works on. *)
Definition call_list (c : call) : string :=
  match c with
  | CallIdempotentCreate id _ _ => id
  | CallAtomicAppend _ _ id _ => id
  | CallGetCurrentPage id => id
  | CallRetrieveLastMostRecent id _ => id
  | CallRetrieveNextMostRecent id _ _ => id
  end.

(** Every request of the promise is for an item of the list [l], and an
    item it asks the store to create carries, in [id], the key it is
    created under. *)
Fixpoint on_list {A} (l : string) (m : prog A) : Prop :=
  match m with
  | Ret _ | Throw _ | Never => True
  | GetSummary id k => id = l ∧ ∀ r, on_list l (k r)
  | GetPage id _ k => id = l ∧ ∀ r, on_list l (k r)
  | PutSummary id it k =>
      id = l ∧ s_id it = l +:+ label_summary ∧ ∀ r, on_list l (k r)
  | PutPage id p it k =>
      id = l ∧ p_id it = l +:+ "_" +:+ num_to_string (Num p)
      ∧ ∀ r, on_list l (k r)
  | ListAppend id _ _ k => id = l ∧ ∀ r, on_list l (k r)
  | IncrementCounter id _ k => id = l ∧ ∀ r, on_list l (k r)
  end.

(** Every item of the table carries its key in [id]: [id + '_summary']
    for the summary of the list [id], [id + '_' + p] for its page [p]. *)
Definition keyed (σ : store) : Prop :=
  (∀ id s, summaries σ !! id = Some s → s_id s = id +:+ label_summary)
  ∧ (∀ id p pg,
       pages σ !! (id, p) = Some pg →
       p_id pg = id +:+ "_" +:+ num_to_string (Num p)).

(** No two items of the table carry the same [id]. *)
Definition ids_distinct (σ : store) : Prop :=
  (∀ id id' s s',
     summaries σ !! id = Some s → summaries σ !! id' = Some s' →
     s_id s = s_id s' → id = id')
  ∧ (∀ key key' pg pg',
       pages σ !! key = Some pg → pages σ !! key' = Some pg' →
       p_id pg = p_id pg' → key = key')
  ∧ (∀ id s key pg,
       summaries σ !! id = Some s → pages σ !! key = Some pg →
       s_id s ≠ p_id pg).

(** The promise only reads: it sends no put, no append, no increment. *)
Fixpoint reads_only {A} (m : prog A) : Prop :=
  match m with
  | Ret _ | Throw _ | Never => True
  | GetSummary _ k => ∀ r, reads_only (k r)
  | GetPage _ _ k => ∀ r, reads_only (k r)
  | PutSummary _ _ _ | PutPage _ _ _ _
  | ListAppend _ _ _ _ | IncrementCounter _ _ _ => False
  end.

(** The string holds no underscore, as the decimal writing of a page
    number and the word [summary]. *)
Fixpoint no_underscore (s : string) : bool :=
  match s with
  | String c s' => negb (Ascii.eqb c "_") && no_underscore s'
  | EmptyString => true
  end.

(** The promise never changes the store, run alone or against a store
    that refuses requests. *)
Definition leaves_store {A} (m : prog A) : Prop :=
  (∀ σ, (run m σ).2 = σ)
  ∧ (∀ w, w_store (run_with_faults m w).2 = w_store w).

(** What a promise guarantees when other callers run between its
    requests.  The others are only known to keep what the pages hold
    ([pages_grow], which every request of every promise respects): each
    request of the promise is served by some store [σ1] that the store
    it last saw has grown into.  [Q] is what holds of the result and the
    store when the promise resolves, [E] what holds of the error when it
    fails. *)
Fixpoint guarantees {A} (m : prog A) (σ : store)
    (Q : A → store → Prop) (E : exn → store → Prop) : Prop :=
  match m with
  | Ret a => Q a σ
  | Throw e => E e σ
  | Never => True
  | GetSummary id k =>
      ∀ σ1, pages_grow σ σ1 → guarantees (k (store_get_summary σ1 id)) σ1 Q E
  | GetPage id p k =>
      ∀ σ1, pages_grow σ σ1 → guarantees (k (store_get_page σ1 id p)) σ1 Q E
  | PutSummary id it k =>
      ∀ σ1, pages_grow σ σ1 →
            guarantees (k (store_put_summary σ1 id it).1)
              (store_put_summary σ1 id it).2 Q E
  | PutPage id p it k =>
      ∀ σ1, pages_grow σ σ1 →
            guarantees (k (store_put_page σ1 id p it).1)
              (store_put_page σ1 id p it).2 Q E
  | ListAppend id p v k =>
      ∀ σ1, pages_grow σ σ1 →
            guarantees (k (store_list_append σ1 id p v).1)
              (store_list_append σ1 id p v).2 Q E
  | IncrementCounter id c k =>
      ∀ σ1, pages_grow σ σ1 →
            guarantees (k (store_increment σ1 id c).1)
              (store_increment σ1 id c).2 Q E
  end.

(** The page and the sequence that [atomicAppend] returned name the
    value in the store. *)
Definition stored_at (id : string) (v : payload) (pos : position)
    (σ : store) : Prop :=
  page_values σ id (pos_page_id pos) !! Z.to_nat (pos_sequence_id pos) = Some v
  ∧ 0 ≤ pos_sequence_id pos.

(** From [σ] to [σ'] no summary is lost or rewritten: what
    [idempotentCreate] stored in it stays, and the counter does not go
    down. *)
Definition summaries_kept (σ σ' : store) : Prop :=
  ∀ id s,
    summaries σ !! id = Some s →
    ∃ s',
      summaries σ' !! id = Some s'
      ∧ s_v s' = s_v s ∧ s_id s' = s_id s
      ∧ s_metadata s' = s_metadata s
      ∧ s_submittedAt s' = s_submittedAt s
      ∧ s_currentPage s ≤ s_currentPage s'.

(** ** Stores the examples use *)

Definition cfg_two : config :=
  configureMaximumNumberOfElementPerPage (VNum (Num 2)) default_config.

(** The list ["L"] after it is created and the values are appended in
    order, two per page. *)
Definition example_list (values : list payload) : store :=
  foldl (λ σ v, (run (atomicAppend cfg_two 0 "L" v) σ).2)
        (run (idempotentCreate "L" None 0) empty_store).2
        values.

(** What the tests of the repository look at in a result: the value, the
    page and the sequence of each element. *)
Definition looked_at (o : outcome (list item))
    : list (payload * string * string) :=
  match o with
  | Fulfilled r => (λ it, (item_val it, page_id it, sequence_id it)) <$> r
  | _ => []
  end.

(** * Properties *)

(** ** Numbers and strings *)

Ltac eval_digit :=
  repeat (match goal with
  | |- context [digit_value ?c] =>
      let v := eval vm_compute in (digit_value c) in
      change (digit_value c) with v
  | |- context [(?a <? ?b)%N] =>
      let v := eval vm_compute in (a <? b)%N in
      change (a <? b)%N with v
  | |- context [is_white ?c] =>
      let v := eval vm_compute in (is_white c) in
      change (is_white c) with v
  end; cbv beta iota);
  cbn [default from_option id].

Lemma parse_digits_acc d p :
  parse_digits 10 (NilEmpty.string_of_uint d) (Some (N.pos p))
  = Some (N.pos (Pos.of_uint_acc d p)).
Proof.
  revert p.
  induction d; intros p;
    cbn [NilEmpty.string_of_uint parse_digits Pos.of_uint_acc];
    [reflexivity | ..]; eval_digit; rewrite <- IHd; do 2 f_equal; lia.
Qed.

Lemma parse_digits_zero d :
  parse_digits 10 (NilEmpty.string_of_uint d) (Some 0%N) = Some (Pos.of_uint d).
Proof.
  induction d; cbn [NilEmpty.string_of_uint parse_digits Pos.of_uint];
    [reflexivity | ..]; eval_digit;
    [apply IHd | ..]; apply (parse_digits_acc d).
Qed.

Lemma parse_digits_start d :
  d ≠ Decimal.Nil →
  parse_digits 10 (NilEmpty.string_of_uint d) None = Some (Pos.of_uint d).
Proof.
  destruct d; intros Hd; try congruence;
    cbn [NilEmpty.string_of_uint parse_digits Pos.of_uint];
    eval_digit;
    [apply parse_digits_zero | ..]; apply (parse_digits_acc d).
Qed.

Lemma parseInt_unsigned d :
  d ≠ Decimal.Nil →
  parseInt_string (NilEmpty.string_of_uint d) = Num (Z.of_N (Pos.of_uint d)).
Proof.
  intros Hd. pose proof (parse_digits_start d Hd) as Hp.
  destruct d as [|d|d|d|d|d|d|d|d|d|d]; try congruence;
    try (unfold parseInt_string; cbn [NilEmpty.string_of_uint trim_left] in *; eval_digit; rewrite Hp; reflexivity).
  destruct d; unfold parseInt_string; cbn [NilEmpty.string_of_uint trim_left] in *; eval_digit; rewrite Hp; reflexivity.
Qed.

Lemma parseInt_negative d :
  d ≠ Decimal.Nil →
  parseInt_string (String "-" (NilEmpty.string_of_uint d))
  = Num (- Z.of_N (Pos.of_uint d)).
Proof.
  intros Hd. pose proof (parse_digits_start d Hd) as Hp.
  destruct d as [|d|d|d|d|d|d|d|d|d|d]; try congruence;
    try (unfold parseInt_string; cbn [NilEmpty.string_of_uint trim_left] in *; eval_digit; rewrite Hp; reflexivity).
  destruct d; unfold parseInt_string; cbn [NilEmpty.string_of_uint trim_left] in *; eval_digit; rewrite Hp; reflexivity.
Qed.

Lemma parseInt_num_to_string z : parseInt_string (num_to_string (Num z)) = Num z.
Proof.
  destruct z as [|p|p]; [reflexivity | ..]; unfold num_to_string, Z.to_int, NilZero.string_of_int, NilZero.string_of_uint;
    pose proof (DecimalPos.Unsigned.to_uint_nonnil p) as Hn;
    pose proof (DecimalPos.Unsigned.of_to p) as Hof;
    destruct (Pos.to_uint p) eqn:E; try congruence; rewrite <- E in *.
  all: try (rewrite parseInt_unsigned by (rewrite E; discriminate); rewrite Hof; reflexivity).
  all: try (rewrite parseInt_negative by (rewrite E; discriminate); rewrite Hof; reflexivity).
Qed.

(** ** Arrays *)

Lemma slice0_take {A} (a : list A) (e : Z) :
  0 ≤ e → slice0 a e = take (Z.to_nat e) a.
Proof.
  intros He. unfold slice0.
  destruct (Z.ltb_spec e 0) as [?|_]; [lia|].
  destruct (Z.min_spec e (Z.of_nat (length a))) as [[? ->]|[? ->]]; [done|].
  rewrite Nat2Z.id, !take_ge; [done | lia | done].
Qed.

Lemma cutAboveSequence_prefix fromSequence (l : list item) :
  ∃ n, cutAboveSequence fromSequence l = take n l.
Proof.
  destruct fromSequence as [[k|]|]; simpl;
    try (exists (length l); by rewrite take_ge).
  destruct (negb (k =? 0)); [|exists (length l); by rewrite take_ge].
  unfold splice.
  set (len := Z.of_nat (length l)).
  set (start := if k <? 0 then Z.max (len + k) 0 else Z.min k len).
  assert (Hs : 0 ≤ start ≤ len) by (subst start len; destruct (Z.ltb_spec k 0); lia).
  exists (Z.to_nat start).
  rewrite drop_ge, app_nil_r; [done|].
  subst start len. destruct (Z.ltb_spec k 0); lia.
Qed.

Lemma cutAboveSequence_positive k (l : list item) :
  0 < k → cutAboveSequence (Some (Num k)) l = take (Z.to_nat k) l.
Proof.
  intros Hk. simpl.
  destruct (Z.eqb_spec k 0) as [?|_]; [lia|]. simpl. unfold splice.
  destruct (Z.ltb_spec k 0) as [?|_]; [lia|].
  destruct (Z.min_spec k (Z.of_nat (length l))) as [[? ->]|[? ->]].
  - rewrite drop_ge, app_nil_r; [done | lia].
  - rewrite drop_ge, app_nil_r, Nat2Z.id, !take_ge; [done | lia | done | lia].
Qed.

Lemma cutAboveSequence_nil fromSequence : cutAboveSequence fromSequence [] = [].
Proof. destruct (cutAboveSequence_prefix fromSequence []) as [n ->]. by destruct n. Qed.

(** ** Running promises *)

Lemma run_bind {A B} (m : prog A) (f : A → prog B) σ :
  run (bind m f) σ
  = match run m σ with
    | (Fulfilled a, σ') => run (f a) σ'
    | (Failed e, σ') => (Failed e, σ')
    | (Pending, σ') => (Pending, σ')
    end.
Proof.
  revert σ.
  induction m as [| | |? k IH|? ? k IH|? ? k IH|? ? ? k IH|? ? ? k IH|? ? k IH];
    intros σ; simpl; try done.
  - by destruct (store_put_summary σ id it).
  - by destruct (store_put_page σ id pageId it).
  - by destruct (store_list_append σ id pageId v).
  - by destruct (store_increment σ id floor).
Qed.

Lemma run_catch {A} (m : prog A) (h : exn → prog A) σ :
  run (catch m h) σ
  = match run m σ with
    | (Failed e, σ') => run (h e) σ'
    | other => other
    end.
Proof.
  revert σ.
  induction m as [| | |? k IH|? ? k IH|? ? k IH|? ? ? k IH|? ? ? k IH|? ? k IH];
    intros σ; simpl; try done.
  - by destruct (store_put_summary σ id it).
  - by destruct (store_put_page σ id pageId it).
  - by destruct (store_list_append σ id pageId v).
  - by destruct (store_increment σ id floor).
Qed.

Lemma run_getCurrentPage id σ :
  run (getCurrentPage id) σ
  = (match summaries σ !! id with
     | Some s => Fulfilled (s_currentPage s)
     | None => Failed TypeError
     end, σ).
Proof. simpl. unfold store_get_summary. simpl. by destruct (summaries σ !! id). Qed.

Lemma run_retrieveDataList id pageId σ :
  run (retrieveDataList id pageId) σ
  = (Fulfilled (match lookup_page σ id pageId with
                | Some pg => indexDataList (Some (data_list pg)) pageId id
                | None => None
                end), σ).
Proof. simpl. unfold store_get_page. simpl. by destruct (lookup_page σ id pageId). Qed.

(** ** The walk, page by page *)

Lemma accumulate_page σ id p fromSequence (acc : list item) :
  match
    match lookup_page σ id (Num p) with
    | Some pg => indexDataList (Some (data_list pg)) (Num p) id
    | None => None
    end
  with
  | Some ((_ :: _) as l) => acc ++ reverse (cutAboveSequence fromSequence l)
  | _ => acc
  end = acc ++ reverse (cutAboveSequence fromSequence (page_items σ id p)).
Proof.
  unfold page_items, lookup_page.
  destruct (pages σ !! (id, p)) as [pg|]; simpl.
  - destruct (imap _ (data_list pg)); [|done].
    by rewrite cutAboveSequence_nil, app_nil_r.
  - by rewrite cutAboveSequence_nil, app_nil_r.
Qed.

Lemma walk_items_below σ id z :
  0 ≤ z → walk_items σ id (z - 1) None = pages_below σ id (Z.to_nat z).
Proof.
  intros Hz. unfold walk_items.
  destruct (Z.ltb_spec (z - 1) 0).
  - by replace z with 0 by lia.
  - replace (Z.to_nat z) with (S (Z.to_nat (z - 1))) by lia.
    simpl. by rewrite Z2Nat.id by lia.
Qed.

Lemma run_recursivelyRetrieveData σ id n k :
  ∀ fuel z fromSequence acc,
    z = Z.of_nat k - 1 → (k < fuel)%nat →
    ∃ r,
      run (recursivelyRetrieveData fuel id n (Num z) fromSequence acc) σ
      = (Fulfilled r, σ)
      ∧ take (Z.to_nat n) r
        = take (Z.to_nat n) (acc ++ walk_items σ id z fromSequence).
Proof.
  induction k as [|k IH]; intros fuel z fromSequence acc Hz Hfuel;
    (destruct fuel as [|fuel]; [lia|]).
  - subst z. exists acc. simpl. by rewrite app_nil_r.
  - cbn [recursivelyRetrieveData num_lt0].
    destruct (Z.ltb_spec z 0) as [?|Hz0]; [lia|].
    rewrite run_bind, run_retrieveDataList, accumulate_page.
    set (acc' := acc ++ reverse (cutAboveSequence fromSequence (page_items σ id z))).
    assert (Hall : acc ++ walk_items σ id z fromSequence
                   = acc' ++ walk_items σ id (z - 1) None).
    { rewrite walk_items_below by done. unfold walk_items, acc'.
      destruct (Z.ltb_spec z 0); [lia|]. by rewrite app_assoc. }
    rewrite Hall.
    destruct (Z.ltb_spec (Z.of_nat (length acc')) n).
    + apply IH; lia.
    + exists acc'. split; [done|]. rewrite take_app_le; [done | lia].
Qed.

Lemma run_retrieveNElement σ id fromPage fromSequence n :
  0 ≤ n →
  run (retrieveNElement id (Num fromPage) fromSequence n) σ
  = (Fulfilled (take (Z.to_nat n) (walk_items σ id fromPage fromSequence)), σ).
Proof.
  intros Hn. unfold retrieveNElement. rewrite run_bind.
  assert (∃ r,
    run (recursivelyRetrieveData (walk_fuel (Num fromPage)) id n
           (Num fromPage) fromSequence []) σ = (Fulfilled r, σ)
    ∧ take (Z.to_nat n) r
      = take (Z.to_nat n) (walk_items σ id fromPage fromSequence))
    as (r & -> & Hr).
  { destruct (Z.ltb_spec fromPage 0) as [Hneg|Hpos].
    - exists []. unfold walk_items. simpl.
      by destruct (Z.ltb_spec fromPage 0); [|lia].
    - apply (run_recursivelyRetrieveData σ id n (Z.to_nat (fromPage + 1)));
        simpl; lia. }
  simpl. rewrite <- Hr. do 2 f_equal.
  destruct (Z.ltb_spec n (Z.of_nat (length r))).
  - by apply slice0_take.
  - rewrite take_ge; [done | lia].
Qed.

(** A walk whose page number is [NaN] asks for the page [NaN] for ever,
    unless no element is wanted. *)
Lemma run_retrieveNElement_NaN σ id fromSequence n :
  run (retrieveNElement id NaN fromSequence n) σ
  = (if 0 <? n then Pending else Fulfilled [], σ).
Proof.
  unfold retrieveNElement. rewrite run_bind. simpl.
  change (Z.of_nat 0) with 0.
  destruct (Z.ltb_spec 0 n); [done|]. cbn [run length].
  destruct (n <? _); [|done]. unfold slice0. by rewrite take_nil.
Qed.

(** More fuel changes nothing to a walk that ends, and no fuel ends a
    walk on the page [NaN]. *)
Lemma recursivelyRetrieveData_fuel σ id n k :
  ∀ fuel fuel' z fromSequence acc,
    z = Z.of_nat k - 1 → (k < fuel)%nat → (k < fuel')%nat →
    run (recursivelyRetrieveData fuel id n (Num z) fromSequence acc) σ
    = run (recursivelyRetrieveData fuel' id n (Num z) fromSequence acc) σ.
Proof.
  induction k as [|k IH]; intros fuel fuel' z fromSequence acc Hz Hf Hf';
    (destruct fuel as [|fuel]; [lia|]); (destruct fuel' as [|fuel']; [lia|]).
  - by subst z.
  - cbn [recursivelyRetrieveData num_lt0].
    destruct (Z.ltb_spec z 0) as [?|Hz0]; [lia|].
    rewrite !run_bind, run_retrieveDataList, accumulate_page.
    destruct (_ <? n); [|done]. apply IH; lia.
Qed.

Lemma recursivelyRetrieveData_NaN σ id n fuel fromSequence acc :
  Z.of_nat (length acc) < n →
  run (recursivelyRetrieveData fuel id n NaN fromSequence acc) σ = (Pending, σ).
Proof.
  revert fromSequence. induction fuel as [|fuel IH]; intros fromSequence Hlen; [done|].
  cbn [recursivelyRetrieveData num_lt0].
  rewrite run_bind, run_retrieveDataList. simpl.
  destruct (Z.ltb_spec (Z.of_nat (length acc)) n); [|lia]. by apply IH.
Qed.

(** ** Positions and order *)

Lemma page_items_position σ id p i it :
  page_items σ id p !! i = Some it →
  item_position it = (Num p, Num (Z.of_nat i))
  ∧ page_id it = num_to_string (Num p).
Proof.
  unfold page_items. destruct (pages σ !! (id, p)) as [pg|]; simpl; [|done].
  rewrite list_lookup_imap. destruct (data_list pg !! i); simpl; [|done].
  intros [= <-]. unfold item_position, parseInt, ToString.
  cbn [page_id sequence_id]. by rewrite !parseInt_num_to_string.
Qed.

Lemma page_prefix_position σ id p n it :
  it ∈ reverse (take n (page_items σ id p)) →
  ∃ i, (i < n)%nat
       ∧ item_position it = (Num p, Num (Z.of_nat i))
       ∧ page_id it = num_to_string (Num p).
Proof.
  rewrite elem_of_reverse, list_elem_of_lookup. intros [i Hi].
  apply lookup_take_Some in Hi as [Hi Hlt].
  exists i. split; [done|]. by apply page_items_position in Hi.
Qed.

Lemma page_prefix_sorted σ id p n :
  StronglySorted precedes (reverse (take n (page_items σ id p))).
Proof.
  induction n as [|n IH]; [rewrite take_0; constructor|].
  destruct (page_items σ id p !! n) as [x|] eqn:Hx.
  - rewrite (take_S_r _ _ x), reverse_snoc by done.
    constructor; [done|]. apply Forall_forall. intros y Hy.
    apply page_prefix_position in Hy as (i & Hi & Hy & _).
    apply page_items_position in Hx as [Hx _].
    unfold precedes. rewrite Hx, Hy. right. lia.
  - apply lookup_ge_None in Hx. rewrite take_ge by lia.
    by rewrite take_ge in IH by lia.
Qed.

Lemma pages_below_position σ id n it :
  it ∈ pages_below σ id n →
  ∃ q i, 0 ≤ q < Z.of_nat n
         ∧ item_position it = (Num q, Num (Z.of_nat i))
         ∧ page_id it = num_to_string (Num q).
Proof.
  induction n as [|n IH]; simpl; [by intros ?%elem_of_nil|].
  rewrite elem_of_app. intros [Hit|Hit].
  - rewrite <- (take_ge (page_items σ id (Z.of_nat n)) (length (page_items σ id (Z.of_nat n))))
      in Hit by done.
    apply page_prefix_position in Hit as (i & _ & Hpos & Hid).
    exists (Z.of_nat n), i. split; [lia | done].
  - destruct (IH Hit) as (q & i & Hq & Hpos). exists q, i. split; [lia | done].
Qed.

Lemma pages_below_sorted σ id n : StronglySorted precedes (pages_below σ id n).
Proof.
  induction n as [|n IH]; simpl; [constructor|].
  apply StronglySorted_app. split_and!; [|..|done].
  - intros a b Ha Hb.
    rewrite <- (take_ge (page_items σ id (Z.of_nat n)) (length (page_items σ id (Z.of_nat n))))
      in Ha by done.
    apply page_prefix_position in Ha as (i & _ & Ha & _).
    apply pages_below_position in Hb as (q & j & Hq & Hb & _).
    unfold precedes. rewrite Ha, Hb. left. lia.
  - rewrite <- (take_ge (page_items σ id (Z.of_nat n)) (length (page_items σ id (Z.of_nat n))))
      by done.
    apply page_prefix_sorted.
Qed.

Lemma walk_items_sorted σ id fromPage fromSequence :
  StronglySorted precedes (walk_items σ id fromPage fromSequence).
Proof.
  unfold walk_items. destruct (Z.ltb_spec fromPage 0); [constructor|].
  destruct (cutAboveSequence_prefix fromSequence (page_items σ id fromPage))
    as [n ->].
  apply StronglySorted_app. split_and!.
  - intros a b Ha Hb.
    apply page_prefix_position in Ha as (i & _ & Ha & _).
    apply pages_below_position in Hb as (q & j & Hq & Hb & _).
    unfold precedes. rewrite Ha, Hb. left. lia.
  - apply page_prefix_sorted.
  - apply pages_below_sorted.
Qed.

Lemma sorted_most_recent_first r :
  StronglySorted precedes r → most_recent_first r.
Proof.
  induction 1 as [|x r _ IH Hx]; intros i j a b Hij Hi Hj; [done|].
  destruct j as [|j]; [lia|]. simpl in Hj.
  destruct i as [|i]; simpl in Hi.
  - injection Hi as ->. rewrite Forall_forall in Hx.
    apply Hx. by eapply list_elem_of_lookup_2.
  - eapply IH; [|done..]. lia.
Qed.

Lemma take_most_recent_first n r :
  StronglySorted precedes r → most_recent_first (take n r).
Proof.
  intros Hr. apply sorted_most_recent_first.
  rewrite <- (take_drop n r) in Hr. by apply StronglySorted_app_1_l in Hr.
Qed.

(** ** Blank pages *)

Lemma num_to_string_inj a b :
  num_to_string (Num a) = num_to_string (Num b) → a = b.
Proof.
  intros H. apply (f_equal parseInt_string) in H.
  rewrite !parseInt_num_to_string in H. by injection H.
Qed.

Lemma without_page_other p q (l : list item) :
  (∀ it, it ∈ l → page_id it = num_to_string (Num q)) →
  q ≠ p → without_page p l = l.
Proof.
  intros Hl Hq. unfold without_page.
  induction l as [|x l IH]; [done|].
  rewrite filter_cons_True.
  - f_equal. apply IH. intros it Hit. apply Hl. by right.
  - rewrite (Hl x) by left. by intros ?%num_to_string_inj.
Qed.

Lemma without_page_same p (l : list item) :
  (∀ it, it ∈ l → page_id it = num_to_string (Num p)) →
  without_page p l = [].
Proof.
  intros Hl. unfold without_page.
  induction l as [|x l IH]; [done|].
  rewrite filter_cons_False.
  - apply IH. intros it Hit. apply Hl. by right.
  - intros Hx. apply Hx, Hl. left.
Qed.

Lemma page_items_delete σ id p q :
  page_items (delete_page σ id p) id q
  = if decide (q = p) then [] else page_items σ id q.
Proof.
  unfold page_items, delete_page. simpl.
  destruct (decide (q = p)) as [->|Hne].
  - by rewrite lookup_delete_eq.
  - rewrite lookup_delete_ne; [done | congruence].
Qed.

Lemma without_page_prefix σ id p q n :
  without_page p (reverse (take n (page_items σ id q)))
  = reverse (take n (page_items (delete_page σ id p) id q)).
Proof.
  rewrite page_items_delete. destruct (decide (q = p)) as [->|Hne].
  - rewrite take_nil. apply without_page_same.
    by intros it (i & _ & _ & Hid)%page_prefix_position.
  - apply without_page_other with q; [|done].
    by intros it (i & _ & _ & Hid)%page_prefix_position.
Qed.

Lemma without_page_below σ id p n :
  without_page p (pages_below σ id n) = pages_below (delete_page σ id p) id n.
Proof.
  induction n as [|n IH]; [done|]. simpl.
  unfold without_page in *. rewrite filter_app, IH. f_equal.
  pose proof (without_page_prefix σ id p (Z.of_nat n)
                (length (page_items σ id (Z.of_nat n)))) as H.
  rewrite take_ge in H by done. unfold without_page in H. rewrite H.
  rewrite page_items_delete. destruct (decide _); [by rewrite take_nil|].
  by rewrite take_ge.
Qed.

Lemma cutAboveSequence_blank σ id p fromPage fromSequence :
  without_page p
    (reverse (cutAboveSequence fromSequence (page_items σ id fromPage)))
  = reverse (cutAboveSequence fromSequence
               (page_items (delete_page σ id p) id fromPage)).
Proof.
  destruct (cutAboveSequence_prefix fromSequence (page_items σ id fromPage))
    as [n Hn].
  rewrite Hn, without_page_prefix, page_items_delete.
  destruct (decide _).
  - by rewrite take_nil, cutAboveSequence_nil.
  - by rewrite Hn.
Qed.

Lemma walk_items_delete σ id p fromPage fromSequence :
  walk_items (delete_page σ id p) id fromPage fromSequence
  = without_page p (walk_items σ id fromPage fromSequence).
Proof.
  unfold walk_items. destruct (_ <? 0); [done|].
  unfold without_page.
  rewrite filter_app.
  pose proof (cutAboveSequence_blank σ id p fromPage fromSequence) as H1.
  pose proof (without_page_below σ id p (Z.to_nat fromPage)) as H2.
  unfold without_page in H1, H2. by rewrite H1, H2.
Qed.

Lemma untruncated {A} (l : list A) n :
  Z.of_nat (length (take (Z.to_nat n) l)) < n → take (Z.to_nat n) l = l.
Proof. rewrite length_take. intros H. apply take_ge. lia. Qed.

Lemma retrieveNElement_blank σ id p fromPage fromSequence n n' r_full :
  0 ≤ n →
  run (retrieveNElement id fromPage fromSequence n') σ = (Fulfilled r_full, σ) →
  Z.of_nat (length r_full) < n' →
  run (retrieveNElement id fromPage fromSequence n) (delete_page σ id p)
  = (Fulfilled (take (Z.to_nat n) (without_page p r_full)), delete_page σ id p).
Proof.
  intros Hn Hrun Hlen. destruct fromPage as [z|].
  - rewrite run_retrieveNElement in Hrun by lia.
    injection Hrun as <-. rewrite (untruncated _ n') by done.
    by rewrite run_retrieveNElement, walk_items_delete.
  - rewrite run_retrieveNElement_NaN in Hrun.
    destruct (Z.ltb_spec 0 n'); [done|]. injection Hrun as <-. simpl in Hlen. lia.
Qed.

(** ** Retrieval: order and size *)

(** C3.  For every store and every count [n >= 0], the walk of
    [retrieveNElement] from any page and cut, and [retrieveLastMostRecent]
    on a list that exists, end with a result [r] of at most [n] elements:
    the first [n] of the pages reversed and concatenated from the starting
    page down to page 0.  In [r] an element of a higher page comes before
    every element of a lower page, and within a page the higher
    [sequence_id] comes first. *)
Theorem retrieval_order_and_bound (σ : store) (id : string) (n : Z) :
  0 ≤ n →
  (∀ fromPage fromSequence,
     ∃ r,
       run (retrieveNElement id (Num fromPage) fromSequence n) σ
       = (Fulfilled r, σ)
       ∧ r = take (Z.to_nat n) (walk_items σ id fromPage fromSequence)
       ∧ Z.of_nat (length r) ≤ n
       ∧ most_recent_first r)
  ∧ (∀ s,
       summaries σ !! id = Some s →
       ∃ r,
         run (retrieveLastMostRecent id n) σ = (Fulfilled r, σ)
         ∧ r = take (Z.to_nat n) (walk_items σ id (s_currentPage s) None)
         ∧ Z.of_nat (length r) ≤ n
         ∧ most_recent_first r).
Proof.
  intros Hn.
  assert (Hwalk : ∀ fromPage fromSequence,
    ∃ r,
      run (retrieveNElement id (Num fromPage) fromSequence n) σ
      = (Fulfilled r, σ)
      ∧ r = take (Z.to_nat n) (walk_items σ id fromPage fromSequence)
      ∧ Z.of_nat (length r) ≤ n
      ∧ most_recent_first r).
  { intros fromPage fromSequence. eexists. split_and!.
    - by apply run_retrieveNElement.
    - done.
    - rewrite length_take. lia.
    - apply take_most_recent_first, walk_items_sorted. }
  split; [done|]. intros s Hs.
  destruct (Hwalk (s_currentPage s) None) as (r & Hrun & Hr).
  exists r. split; [|done].
  unfold retrieveLastMostRecent. rewrite run_bind, run_getCurrentPage, Hs.
  done.
Qed.

Lemma retrieval_order_and_bound_witness :
  0 ≤ 3
  ∧ ∃ r,
      run (retrieveLastMostRecent "L" 3)
        (example_list ["Hello0"; "Hello1"; "Hello2"; "Hello3"; "Hello4"])
      = (Fulfilled r,
         example_list ["Hello0"; "Hello1"; "Hello2"; "Hello3"; "Hello4"])
      ∧ Z.of_nat (length r) ≤ 3
      ∧ most_recent_first r.
Proof.
  split; [lia|].
  destruct (retrieval_order_and_bound
              (example_list ["Hello0"; "Hello1"; "Hello2"; "Hello3"; "Hello4"])
              "L" 3 ltac:(lia)) as [_ H].
  destruct (H {| s_v := 1; s_id := "L_summary"; s_metadata := None;
                 s_submittedAt := 0; s_currentPage := 2 |})
    as (r & Hrun & _ & Hlen & Hord).
  - vm_compute. reflexivity.
  - exists r. auto.
Defined.

(** ** Retrieval: blank pages *)

(** C6, as stated, fails: with two elements per page and four elements
    appended, asking for the last 2 gives the two elements of page 1;
    without page 1 it gives the two elements of page 0, not "the same
    minus the elements of page 1", which is empty. *)
Lemma blank_page_counterexample :
  ¬ blank_page_exact (example_list ["a"; "b"; "c"; "d"]) "L" 1 2.
Proof.
  intros (r & r' & Hr & Hr' & Heq).
  apply (f_equal fst) in Hr, Hr'.
  vm_compute in Hr, Hr'.
  injection Hr as <-. injection Hr' as <-.
  vm_compute in Heq. discriminate.
Qed.

(** C6, amended.  Removing the item of page [p] never makes a walk fail:
    when the walk on the store with page [p] was not cut short by its
    count ([r_full] has fewer than [n'] elements), the walk on the store
    without page [p] returns, for every count [n >= 0], the first [n] of
    [r_full] minus the elements of page [p]. *)
Theorem blank_page_tolerance (σ : store) (id : string) (p n n' : Z)
    (r_full : list item) :
  0 ≤ n →
  (run (retrieveLastMostRecent id n') σ = (Fulfilled r_full, σ) →
   Z.of_nat (length r_full) < n' →
   run (retrieveLastMostRecent id n) (delete_page σ id p)
   = (Fulfilled (take (Z.to_nat n) (without_page p r_full)),
      delete_page σ id p))
  ∧ (∀ c,
       run (retrieveNextMostRecent id c n') σ = (Fulfilled r_full, σ) →
       Z.of_nat (length r_full) < n' →
       run (retrieveNextMostRecent id c n) (delete_page σ id p)
       = (Fulfilled (take (Z.to_nat n) (without_page p r_full)),
          delete_page σ id p)).
Proof.
  intros Hn. split.
  - unfold retrieveLastMostRecent.
    rewrite !run_bind, !run_getCurrentPage. cbn [delete_page summaries].
    destruct (summaries σ !! id) as [s|]; [|done].
    by apply retrieveNElement_blank.
  - intros [c|]; [|done]. unfold retrieveNextMostRecent.
    destruct (_ || _); [done|]. by apply retrieveNElement_blank.
Qed.

Lemma blank_page_tolerance_witness :
  0 ≤ 2
  ∧ run (retrieveLastMostRecent "L" 2)
      (delete_page (example_list ["a"; "b"; "c"; "d"]) "L" 1)
    = (Fulfilled
         [ {| item_val := "b"; page_id := "0"; sequence_id := "1";
              resource_id_parent := "L" |};
           {| item_val := "a"; page_id := "0"; sequence_id := "0";
              resource_id_parent := "L" |} ],
       delete_page (example_list ["a"; "b"; "c"; "d"]) "L" 1).
Proof.
  split; [lia|].
  refine (proj1 (blank_page_tolerance (example_list ["a"; "b"; "c"; "d"])
                   "L" 1 2 300
                   [ {| item_val := "d"; page_id := "1"; sequence_id := "1";
                        resource_id_parent := "L" |};
                     {| item_val := "c"; page_id := "1"; sequence_id := "0";
                        resource_id_parent := "L" |};
                     {| item_val := "b"; page_id := "0"; sequence_id := "1";
                        resource_id_parent := "L" |};
                     {| item_val := "a"; page_id := "0"; sequence_id := "0";
                        resource_id_parent := "L" |} ] _) _ _).
  - lia.
  - vm_compute. reflexivity.
  - simpl. lia.
Defined.

(** ** Cursors *)

(** What [getValidPointer] makes of a cursor whose two fields read as
    integers: a position at or below 0 moves to the page before, with no
    cut; a page below 0 is replaced by page 0 with the sequence 0. *)
Lemma getValidPointer_integers c p s :
  parseInt (cur_page_id c) = Num p →
  parseInt (cur_sequence_id c) = Num s →
  getValidPointer c
  = if s <=? 0
    then (if p - 1 <? 0
          then {| ptr_page_id := Num 0; ptr_sequence_id := Some (Num 0) |}
          else {| ptr_page_id := Num (p - 1); ptr_sequence_id := None |})
    else (if p <? 0
          then {| ptr_page_id := Num 0; ptr_sequence_id := Some (Num 0) |}
          else {| ptr_page_id := Num p; ptr_sequence_id := Some (Num s) |}).
Proof.
  intros Hp Hs. unfold getValidPointer. rewrite Hp, Hs. simpl.
  destruct (s <=? 0); simpl; by destruct (_ <? 0).
Qed.

(** The sequence 0 that the clamp sets is not a cut: [if (fromSequence)]
    reads it as unset and the whole page is kept. *)
Lemma cutAboveSequence_zero (l : list item) :
  cutAboveSequence (Some (Num 0)) l = l.
Proof. done. Qed.

(** The guard of [retrieveNextMostRecent] refuses exactly the cursors
    that are absent or have a falsy field. *)
Lemma retrieveNextMostRecent_guard id c n :
  retrieveNextMostRecent id c n = Throw invalid_pointer
  ↔ match c with
    | None => True
    | Some c => truthy (cur_page_id c) = false
                ∨ truthy (cur_sequence_id c) = false
    end.
Proof.
  destruct c as [c|]; simpl; [|done].
  destruct (truthy (cur_page_id c)), (truthy (cur_sequence_id c)); simpl;
    try (split; [auto | done]).
  split; [|by intros [?|?]].
  unfold retrieveNElement. destruct (ptr_page_id (getValidPointer c)) as [z|];
    simpl; [destruct (z <? 0)|]; done.
Qed.


Lemma num_to_string_nonempty z : num_to_string (Num z) ≠ EmptyString.
Proof.
  intros H. pose proof (parseInt_num_to_string z) as Hp.
  rewrite H in Hp. discriminate.
Qed.

Lemma truthy_num_to_string z : truthy (VStr (num_to_string (Num z))) = true.
Proof.
  simpl. destruct (String.eqb_spec (num_to_string (Num z)) EmptyString) as [H|]; [|done].
  by apply num_to_string_nonempty in H.
Qed.

(** The first element of the pages below [n] is the last element of the
    highest page that has one, and what follows is the rest of that page
    and the pages below it. *)
Lemma pages_below_head σ id n first rest :
  pages_below σ id n = first :: rest →
  ∃ q t,
    0 ≤ q < Z.of_nat n
    ∧ reverse (page_items σ id q) = first :: t
    ∧ rest = t ++ pages_below σ id (Z.to_nat q).
Proof.
  induction n as [|n IH]; [done|]. simpl.
  destruct (reverse (page_items σ id (Z.of_nat n))) as [|x t] eqn:Hrev.
  - simpl. intros H. destruct (IH H) as (q & t & Hq & Hhead & Hrest).
    exists q, t. split; [lia | done].
  - simpl. intros [= -> <-]. exists (Z.of_nat n), t.
    rewrite Nat2Z.id. split; [lia | done].
Qed.

Lemma walk_items_head σ id c first rest :
  walk_items σ id c None = first :: rest →
  ∃ q t,
    0 ≤ q
    ∧ reverse (page_items σ id q) = first :: t
    ∧ rest = t ++ pages_below σ id (Z.to_nat q).
Proof.
  unfold walk_items. destruct (Z.ltb_spec c 0) as [?|Hc]; [done|].
  change (cutAboveSequence None (page_items σ id c)) with (page_items σ id c).
  intros Hwalk.
  assert (Hbelow : pages_below σ id (S (Z.to_nat c)) = first :: rest)
    by (simpl; by rewrite Z2Nat.id by lia).
  apply pages_below_head in Hbelow as (q & t & Hq & Hhead & Hrest).
  exists q, t. split; [lia | done].
Qed.

Lemma page_last_position σ id q first t :
  reverse (page_items σ id q) = first :: t →
  page_items σ id q = reverse t ++ [first]
  ∧ page_id first = num_to_string (Num q)
  ∧ sequence_id first = num_to_string (Num (Z.of_nat (length t))).
Proof.
  intros Hrev.
  assert (Hpage : page_items σ id q = reverse t ++ [first]).
  { rewrite <- (reverse_involutive (page_items σ id q)), Hrev.
    by rewrite reverse_cons. }
  split; [done|].
  assert (Hlook : page_items σ id q !! length t = Some first).
  { rewrite Hpage, lookup_app_r by (by rewrite length_reverse).
    by rewrite length_reverse, Nat.sub_diag. }
  unfold page_items in Hlook.
  destruct (pages σ !! (id, q)) as [pg|]; simpl in Hlook; [|done].
  rewrite list_lookup_imap in Hlook.
  destruct (data_list pg !! length t); simpl in Hlook; [|done].
  by injection Hlook as <-.
Qed.

(** The element [retrieveLastMostRecent (id, 1)] returns is the last
    element of the highest page [q] that has one; [t] is the rest of that
    page, most recent first. *)
Lemma first_element σ id s first :
  summaries σ !! id = Some s →
  run (retrieveLastMostRecent id 1) σ = (Fulfilled [first], σ) →
  ∃ q t,
    0 ≤ q
    ∧ page_items σ id q = reverse t ++ [first]
    ∧ walk_items σ id (s_currentPage s) None
      = first :: t ++ pages_below σ id (Z.to_nat q)
    ∧ page_id first = num_to_string (Num q)
    ∧ sequence_id first = num_to_string (Num (Z.of_nat (length t)))
    ∧ item_position first = (Num q, Num (Z.of_nat (length t))).
Proof.
  intros Hs Hlast.
  unfold retrieveLastMostRecent in Hlast.
  rewrite run_bind, run_getCurrentPage, Hs, run_retrieveNElement in Hlast by lia.
  injection Hlast as Hlast.
  destruct (walk_items σ id (s_currentPage s) None) as [|x rest] eqn:Hwalk;
    [done|].
  change (Z.to_nat 1) with 1%nat in Hlast. cbn [take] in Hlast.
  rewrite take_0 in Hlast. injection Hlast as ->.
  apply walk_items_head in Hwalk as (q & t & Hq & Hrev & ->).
  destruct (page_last_position σ id q first t Hrev) as (Hpage & Hpid & Hsid).
  exists q, t. split_and!; try done.
  unfold item_position, parseInt, ToString.
  by rewrite Hpid, Hsid, !parseInt_num_to_string.
Qed.

Lemma cursor_of_accepted id first q i n :
  page_id first = num_to_string (Num q) →
  sequence_id first = num_to_string (Num i) →
  retrieveNextMostRecent id (Some (cursor_of first)) n
  = let pointer := getValidPointer (cursor_of first) in
    retrieveNElement id (ptr_page_id pointer) (ptr_sequence_id pointer) n.
Proof.
  intros Hpid Hsid. unfold retrieveNextMostRecent, cursor_of.
  cbn [cur_page_id cur_sequence_id].
  by rewrite Hpid, Hsid, !truthy_num_to_string.
Qed.

(** Away from the head of the list the round trip is exact: when the
    element [first] that [retrieveLastMostRecent (id, 1)] returned is not
    at page 0, sequence 0, [retrieveNextMostRecent] with its cursor and
    the count [k] returns the [k] elements that follow [first] in the
    most-recent-first sequence. *)
Lemma cursor_round_trip σ id s first k :
  summaries σ !! id = Some s →
  0 ≤ k →
  run (retrieveLastMostRecent id 1) σ = (Fulfilled [first], σ) →
  item_position first ≠ (Num 0, Num 0) →
  run (retrieveNextMostRecent id (Some (cursor_of first)) k) σ
  = (Fulfilled
       (take (Z.to_nat k) (drop 1 (walk_items σ id (s_currentPage s) None))),
     σ).
Proof.
  intros Hs Hk Hlast Hhead.
  destruct (first_element σ id s first Hs Hlast)
    as (q & t & Hq & Hpage & -> & Hpid & Hsid & Hpos).
  rewrite (cursor_of_accepted id first q (Z.of_nat (length t))) by done.
  rewrite (getValidPointer_integers _ q (Z.of_nat (length t)));
    [|unfold cursor_of, parseInt, ToString; cbn [cur_page_id cur_sequence_id];
      rewrite ?Hpid, ?Hsid; apply parseInt_num_to_string..].
  cbn [drop].
  destruct (Z.leb_spec (Z.of_nat (length t)) 0) as [Hzero|Hmore].
  - destruct t; [|simpl in Hzero; lia].
    destruct (Z.ltb_spec (q - 1) 0).
    + exfalso. apply Hhead. rewrite Hpos. simpl. do 2 f_equal. lia.
    + cbn [ptr_page_id ptr_sequence_id].
      rewrite run_retrieveNElement, walk_items_below by lia. done.
  - destruct (Z.ltb_spec q 0); [lia|]. cbn [ptr_page_id ptr_sequence_id].
    rewrite run_retrieveNElement by lia. do 3 f_equal.
    unfold walk_items. destruct (Z.ltb_spec q 0); [lia|].
    rewrite cutAboveSequence_positive, Nat2Z.id, Hpage by lia.
    rewrite take_app_length' by (by rewrite length_reverse).
    by rewrite reverse_involutive.
Qed.

Lemma cursor_round_trip_witness :
  run (retrieveNextMostRecent "L"
         (Some (cursor_of {| item_val := "Hello4"; page_id := "2";
                             sequence_id := "0";
                             resource_id_parent := "L" |})) 2)
      (example_list ["Hello0"; "Hello1"; "Hello2"; "Hello3"; "Hello4"])
  = (Fulfilled
       [ {| item_val := "Hello3"; page_id := "1"; sequence_id := "1";
            resource_id_parent := "L" |};
         {| item_val := "Hello2"; page_id := "1"; sequence_id := "0";
            resource_id_parent := "L" |} ],
     example_list ["Hello0"; "Hello1"; "Hello2"; "Hello3"; "Hello4"]).
Proof.
  refine (cursor_round_trip
            (example_list ["Hello0"; "Hello1"; "Hello2"; "Hello3"; "Hello4"])
            "L"
            {| s_v := 1; s_id := "L_summary"; s_metadata := None;
               s_submittedAt := 0; s_currentPage := 2 |}
            _ 2 _ _ _ _).
  - vm_compute. reflexivity.
  - lia.
  - vm_compute. reflexivity.
  - vm_compute. discriminate.
Defined.

(** A cursor whose [page_id] does not read as a number passes the guard,
    and the walk it starts asks for the page [NaN] without end when at
    least one element is wanted. *)
Lemma cursor_unreadable_page_never_settles σ id c n :
  truthy (cur_page_id c) = true →
  truthy (cur_sequence_id c) = true →
  parseInt (cur_page_id c) = NaN →
  0 < n →
  run (retrieveNextMostRecent id (Some c) n) σ = (Pending, σ).
Proof.
  intros Hp Hs Hnan Hn. unfold retrieveNextMostRecent. rewrite Hp, Hs.
  cbn [negb orb].
  assert (Hptr : ptr_page_id (getValidPointer c) = NaN).
  { unfold getValidPointer. rewrite Hnan.
    by destruct (num_le0 (parseInt (cur_sequence_id c))). }
  rewrite Hptr, run_retrieveNElement_NaN.
  by destruct (Z.ltb_spec 0 n); [|lia].
Qed.

Lemma cursor_unreadable_page_never_settles_witness :
  run (retrieveNextMostRecent "L"
         (Some {| cur_page_id := VStr "abc"; cur_sequence_id := VStr "1" |}) 1)
      (example_list ["Hello0"])
  = (Pending, example_list ["Hello0"]).
Proof.
  apply cursor_unreadable_page_never_settles; [reflexivity.. | lia].
Defined.

(** C9.  The guard tests the fields for truthiness, so a cursor that
    carries both fields is refused when one of them is the number 0: the
    position [{page_id: p, sequence_id: 0}] that [atomicAppend] returns
    for the first element of a page is rejected, and so is every position
    on page 0, while the same positions written with strings, as
    retrieval returns them, are accepted and start the walk. *)
Theorem cursor_with_number_zero_rejected (id : string) (p s n : Z) :
  retrieveNextMostRecent id
    (Some {| cur_page_id := VNum (Num p); cur_sequence_id := VNum (Num 0) |}) n
  = Throw invalid_pointer
  ∧ retrieveNextMostRecent id
      (Some {| cur_page_id := VNum (Num 0); cur_sequence_id := VNum (Num s) |}) n
    = Throw invalid_pointer
  ∧ retrieveNextMostRecent id
      (Some {| cur_page_id := VStr (num_to_string (Num p));
               cur_sequence_id := VStr (num_to_string (Num s)) |}) n
    = (let pointer :=
         getValidPointer
           {| cur_page_id := VStr (num_to_string (Num p));
              cur_sequence_id := VStr (num_to_string (Num s)) |} in
       retrieveNElement id (ptr_page_id pointer) (ptr_sequence_id pointer) n).
Proof.
  split_and!.
  - unfold retrieveNextMostRecent. cbn [cur_page_id cur_sequence_id].
    by rewrite orb_true_r.
  - done.
  - unfold retrieveNextMostRecent. cbn [cur_page_id cur_sequence_id].
    by rewrite !truthy_num_to_string.
Qed.

(** C8.  A cursor on the first element of page 0 is clamped to page 0
    with the sequence 0, and the walk then returns page 0 as it is, most
    recent element first: the element under the cursor and those appended
    after it on that page come back, where nothing precedes the head. *)
Theorem cursor_at_head_returns_page_zero (σ : store) (id : string) (n : Z) :
  0 ≤ n →
  getValidPointer {| cur_page_id := VStr "0"; cur_sequence_id := VStr "0" |}
  = {| ptr_page_id := Num 0; ptr_sequence_id := Some (Num 0) |}
  ∧ run (retrieveNextMostRecent id
           (Some {| cur_page_id := VStr "0"; cur_sequence_id := VStr "0" |}) n)
        σ
    = (Fulfilled (take (Z.to_nat n) (reverse (page_items σ id 0))), σ).
Proof.
  intros Hn. split; [done|].
  change (retrieveNextMostRecent id
            (Some {| cur_page_id := VStr "0"; cur_sequence_id := VStr "0" |}) n)
    with (retrieveNElement id (Num 0) (Some (Num 0)) n).
  rewrite run_retrieveNElement by done.
  unfold walk_items. simpl. by rewrite app_nil_r.
Qed.

Lemma cursor_at_head_returns_page_zero_witness :
  0 ≤ 300
  ∧ run (retrieveNextMostRecent "L"
           (Some {| cur_page_id := VStr "0"; cur_sequence_id := VStr "0" |})
           300)
        (example_list ["Hello0"; "Hello1"; "Hello2"; "Hello3"; "Hello4"])
    = (Fulfilled
         [ {| item_val := "Hello1"; page_id := "0"; sequence_id := "1";
              resource_id_parent := "L" |};
           {| item_val := "Hello0"; page_id := "0"; sequence_id := "0";
              resource_id_parent := "L" |} ],
       example_list ["Hello0"; "Hello1"; "Hello2"; "Hello3"; "Hello4"]).
Proof.
  split; [lia|].
  exact (proj2 (cursor_at_head_returns_page_zero
                  (example_list ["Hello0"; "Hello1"; "Hello2"; "Hello3"; "Hello4"])
                  "L" 300 ltac:(lia))).
Defined.

(** C4.  When the most recent element of the list is its head (page 0,
    sequence 0: the list has a single element), the round trip overlaps:
    the element that [retrieveLastMostRecent (id, 1)] returned comes back
    from [retrieveNextMostRecent] called with its cursor, for every count
    [k >= 1]. *)
Theorem cursor_round_trip_overlaps_at_head (σ : store) (id : string)
    (s : summary) (first : item) (k : Z) :
  summaries σ !! id = Some s →
  1 ≤ k →
  run (retrieveLastMostRecent id 1) σ = (Fulfilled [first], σ) →
  item_position first = (Num 0, Num 0) →
  run (retrieveNextMostRecent id (Some (cursor_of first)) k) σ
  = (Fulfilled [first], σ).
Proof.
  intros Hs Hk Hlast Hhead.
  destruct (first_element σ id s first Hs Hlast)
    as (q & t & Hq & Hpage & _ & Hpid & Hsid & Hpos).
  rewrite Hhead in Hpos. injection Hpos as <- Ht.
  destruct t; [|simpl in Ht; lia].
  rewrite (cursor_of_accepted id first 0 0) by done.
  rewrite (getValidPointer_integers _ 0 0);
    [|unfold cursor_of, parseInt, ToString; cbn [cur_page_id cur_sequence_id];
      rewrite ?Hpid, ?Hsid; apply parseInt_num_to_string..].
  change (0 <=? 0) with true. change (0 - 1 <? 0) with true.
  cbv beta iota zeta. cbn [ptr_page_id ptr_sequence_id].
  rewrite run_retrieveNElement by lia.
  unfold walk_items. simpl. rewrite Hpage. simpl.
  destruct (Z.to_nat k) eqn:Hknat; [lia|]. cbn [take]. by rewrite take_nil.
Qed.

Lemma cursor_round_trip_overlaps_at_head_witness :
  run (retrieveLastMostRecent "L" 1) (example_list ["Hello0"])
  = (Fulfilled [ {| item_val := "Hello0"; page_id := "0"; sequence_id := "0";
                    resource_id_parent := "L" |} ],
     example_list ["Hello0"])
  ∧ run (retrieveNextMostRecent "L"
           (Some {| cur_page_id := VStr "0"; cur_sequence_id := VStr "0" |})
           300)
        (example_list ["Hello0"])
    = (Fulfilled [ {| item_val := "Hello0"; page_id := "0"; sequence_id := "0";
                      resource_id_parent := "L" |} ],
       example_list ["Hello0"]).
Proof.
  assert (Hlast :
    run (retrieveLastMostRecent "L" 1) (example_list ["Hello0"])
    = (Fulfilled [ {| item_val := "Hello0"; page_id := "0"; sequence_id := "0";
                      resource_id_parent := "L" |} ],
       example_list ["Hello0"])) by (vm_compute; reflexivity).
  split; [exact Hlast|].
  refine (cursor_round_trip_overlaps_at_head (example_list ["Hello0"]) "L"
            {| s_v := 1; s_id := "L_summary"; s_metadata := None;
               s_submittedAt := 0; s_currentPage := 0 |}
            _ 300 _ _ Hlast _).
  - vm_compute. reflexivity.
  - lia.
  - vm_compute. reflexivity.
Defined.

(** ** The append engine, one caller at a time *)

Lemma atomicAppendImpl_eq cfg timestamp id currentPage value attempt :
  atomicAppendImpl cfg timestamp id currentPage value attempt
  = atomicAppendImpl_body
      (atomicAppendImpl cfg timestamp id currentPage value)
      cfg timestamp id currentPage value attempt.
Proof. by destruct attempt as [|[|attempt]]. Qed.

Lemma run_createNewPage id pageId timestamp σ :
  run (createNewPage id pageId timestamp) σ
  = (Fulfilled tt,
     match pages σ !! (id, pageId) with
     | Some _ => σ
     | None =>
         {| summaries := summaries σ;
            pages := <[(id, pageId) :=
                        getDefaultPageData
                          (id +:+ "_" +:+ num_to_string (Num pageId)) timestamp]>
                       (pages σ) |}
     end).
Proof.
  simpl. unfold store_put_page. by destruct (pages σ !! (id, pageId)).
Qed.

Lemma run_increasePageCounter id floor σ :
  run (increasePageCounter id floor) σ
  = match summaries σ !! id with
    | Some s =>
        if s_currentPage s =? floor
        then (Fulfilled (Some (s_currentPage s + 1)),
              {| summaries :=
                   <[id := {| s_v := s_v s; s_id := s_id s;
                              s_metadata := s_metadata s;
                              s_submittedAt := s_submittedAt s;
                              s_currentPage := s_currentPage s + 1 |}]>
                     (summaries σ);
                 pages := pages σ |})
        else (Fulfilled None, σ)
    | None => (Fulfilled None, σ)
    end.
Proof.
  simpl. unfold store_increment.
  destruct (summaries σ !! id) as [s|]; [|done].
  by destruct (s_currentPage s =? floor).
Qed.

Lemma run_appendDataToPage id pageId v σ :
  run (appendDataToPage id pageId v) σ
  = match pages σ !! (id, pageId) with
    | Some pg =>
        (Fulfilled (Z.of_nat (length (data_list pg ++ [v]))),
         {| summaries := summaries σ;
            pages := <[(id, pageId) :=
                        {| p_v := p_v pg; p_id := p_id pg;
                           p_submittedAt := p_submittedAt pg;
                           data_list := data_list pg ++ [v] |}]> (pages σ) |})
    | None => (Failed (AwsError ValidationException), σ)
    end.
Proof.
  simpl. unfold store_list_append. by destruct (pages σ !! (id, pageId)).
Qed.

Lemma run_idempotentCreate id metadata timestamp σ :
  run (idempotentCreate id metadata timestamp) σ
  = match summaries σ !! id with
    | Some _ => (Failed (AwsError ConditionalCheckFailedException), σ)
    | None =>
        (Fulfilled (defaultPageSummary id metadata timestamp),
         {| summaries := <[id := defaultPageSummary id metadata timestamp]>
                           (summaries σ);
            pages := pages σ |})
    end.
Proof.
  simpl. unfold store_put_summary. by destruct (summaries σ !! id).
Qed.

Lemma run_afterAppend cfg timestamp id currentPage n σ :
  run (afterAppend cfg timestamp id currentPage n) σ
  = (Fulfilled {| pos_page_id := currentPage; pos_sequence_id := n - 1 |},
     if JS.ge n (maxElementPerPage cfg)
     then
       match run (increasePageCounter id currentPage) σ with
       | (Fulfilled (Some c), σ') =>
           if truthy (VNum (Num c)) && (currentPage <? c)
           then (run (createNewPage id c timestamp) σ').2
           else σ'
       | (_, σ') => σ'
       end
     else σ).
Proof.
  unfold afterAppend. destruct (JS.ge n _); [|done].
  rewrite run_bind, run_increasePageCounter.
  destruct (summaries σ !! id) as [s|]; [|done].
  destruct (s_currentPage s =? currentPage); [|done].
  destruct (truthy _ && _); [|done].
  by rewrite run_bind, run_createNewPage.
Qed.

(** The first attempt of [atomicAppendImpl] with no other caller around:
    the page is created when it is missing, and the append then goes
    through. *)
Lemma run_atomicAppendImpl cfg timestamp id currentPage value σ :
  run (atomicAppendImpl cfg timestamp id currentPage value 0) σ
  = run (n <- appendDataToPage id currentPage value ;;
         afterAppend cfg timestamp id currentPage n)
        (run (createNewPage id currentPage timestamp) σ).2.
Proof.
  rewrite run_createNewPage. cbn [snd].
  unfold atomicAppendImpl, atomicAppendImpl_body. cbn [Nat.ltb Nat.leb].
  rewrite run_catch, !run_bind, run_appendDataToPage.
  destruct (pages σ !! (id, currentPage)) as [pg|] eqn:Hpg.
  - rewrite run_appendDataToPage, Hpg. by rewrite run_afterAppend.
  - cbn [has_code]. unfold ValidationException at 1. rewrite String.eqb_refl.
    rewrite run_bind, run_createNewPage, Hpg.
    change (0 + 1)%nat with 1%nat. cbn [Nat.ltb Nat.leb].
    rewrite run_catch, run_bind, !run_appendDataToPage. cbn [pages].
    rewrite lookup_insert_eq. by rewrite run_afterAppend.
Qed.

(** ** Sequential appends *)

Lemma createNewPage_tail_open M id timestamp σ s :
  summaries σ !! id = Some s →
  (∀ pg, pages σ !! (id, s_currentPage s) = Some pg →
         Z.of_nat (length (data_list pg)) < M) →
  0 < M →
  let σ1 := (run (createNewPage id (s_currentPage s) timestamp) σ).2 in
  summaries σ1 = summaries σ
  ∧ (∃ pg, pages σ1 !! (id, s_currentPage s) = Some pg
           ∧ Z.of_nat (length (data_list pg)) < M)
  ∧ (∀ q, q ≠ s_currentPage s → pages σ1 !! (id, q) = pages σ !! (id, q)).
Proof.
  intros Hs Hpage HM. rewrite run_createNewPage. cbn [snd].
  destruct (pages σ !! (id, s_currentPage s)) as [pg|] eqn:Hpg.
  - split_and!; [done | eauto | done].
  - cbn [summaries pages]. split_and!; [done | |].
    + eexists. rewrite lookup_insert_eq. split; [done|]. simpl. lia.
    + intros q Hq. rewrite lookup_insert_ne; [done | congruence].
Qed.

Lemma atomicAppend_tail_open cfg M id timestamp value σ :
  maxElementPerPage cfg = VNum (Num M) →
  1 ≤ M →
  tail_open M id σ →
  ∃ p n σ',
    run (atomicAppend cfg timestamp id value) σ
    = (Fulfilled {| pos_page_id := p; pos_sequence_id := n - 1 |}, σ')
    ∧ observe_currentPage σ id = Some p
    ∧ (∃ pg, pages σ' !! (id, p) = Some pg
             ∧ Z.of_nat (length (data_list pg)) = n ∧ n ≤ M)
    ∧ (M ≤ n →
       observe_currentPage σ' id = Some (p + 1)
       ∧ ∃ pg', pages σ' !! (id, p + 1) = Some pg' ∧ data_list pg' = [])
    ∧ (n < M → observe_currentPage σ' id = Some p)
    ∧ tail_open M id σ'.
Proof.
  intros Hcfg HM (s & Hs & Hnonneg & Habove & Hpage).
  set (p := s_currentPage s) in *.
  destruct (createNewPage_tail_open M id timestamp σ s Hs Hpage ltac:(lia))
    as (Hsum1 & (pg1 & Hpg1 & Hlen1) & Hother1).
  fold p in Hsum1, Hpg1, Hother1.
  unfold atomicAppend.
  rewrite run_bind, run_getCurrentPage, Hs. fold p.
  rewrite run_atomicAppendImpl.
  set (σ1 := (run (createNewPage id p timestamp) σ).2) in *.
  rewrite run_bind, run_appendDataToPage, Hpg1, run_afterAppend.
  set (pg2 := {| p_v := p_v pg1; p_id := p_id pg1;
                 p_submittedAt := p_submittedAt pg1;
                 data_list := data_list pg1 ++ [value] |}).
  set (n := Z.of_nat (length (data_list pg1 ++ [value]))).
  assert (Hn : n = Z.of_nat (length (data_list pg1)) + 1).
  { subst n. rewrite length_app. simpl. lia. }
  exists p, n. eexists. split; [reflexivity|].
  unfold JS.ge. rewrite Hcfg. cbn [ToNumber].
  rewrite run_increasePageCounter. cbn [summaries pages].
  rewrite Hsum1, Hs. fold p. rewrite Z.eqb_refl.
  assert (Htruthy : truthy (VNum (Num (p + 1))) && (p <? p + 1) = true).
  { simpl. destruct (Z.eqb_spec (p + 1) 0); [lia|].
    destruct (Z.ltb_spec p (p + 1)); [done | lia]. }
  rewrite Htruthy, run_createNewPage. cbn [snd summaries pages].
  assert (Hfree : <[(id, p) := pg2]> (pages σ1) !! (id, p + 1) = None).
  { rewrite lookup_insert_ne by (intros [= ?]; lia).
    rewrite Hother1 by lia. apply Habove. lia. }
  rewrite Hfree.
  split; [by unfold observe_currentPage; rewrite Hs|].
  destruct (Z.leb_spec M n) as [Hfull|Hroom].
  - cbn [summaries pages]. split_and!.
    + exists pg2. rewrite lookup_insert_ne by (intros [= ?]; lia).
      rewrite lookup_insert_eq. split_and!; [done | done | lia].
    + intros _. unfold observe_currentPage. cbn [summaries].
      rewrite lookup_insert_eq. split; [done|].
      eexists. by rewrite lookup_insert_eq.
    + lia.
    + eexists. cbn [summaries pages]. rewrite lookup_insert_eq.
      split_and!; [done | simpl; lia | |]; cbn [s_currentPage].
      * intros q Hq. rewrite !lookup_insert_ne by (intros [= ?]; lia).
        rewrite Hother1 by lia. apply Habove. lia.
      * intros pg. rewrite lookup_insert_eq. intros [= <-]. simpl. lia.
  - cbn [summaries pages]. split_and!.
    + exists pg2. rewrite lookup_insert_eq. split_and!; [done | done | lia].
    + lia.
    + intros _. unfold observe_currentPage. cbn [summaries].
      by rewrite Hs.
    + exists s. cbn [summaries pages]. fold p.
      split_and!; [done | done | |].
      * intros q Hq. rewrite lookup_insert_ne by (intros [= ?]; lia).
        rewrite Hother1 by lia. by apply Habove.
      * intros pg. rewrite lookup_insert_eq. intros [= <-].
        by change (n < M).
Qed.

Lemma sequential_tail_open cfg M id σ :
  maxElementPerPage cfg = VNum (Num M) →
  1 ≤ M →
  sequential cfg id σ → tail_open M id σ.
Proof.
  intros Hcfg HM. induction 1 as [σ metadata timestamp [Hsum Hpages]|σ timestamp value _ IH].
  - rewrite run_idempotentCreate, Hsum. cbn [snd].
    eexists. cbn [summaries pages]. rewrite lookup_insert_eq.
    split_and!; [done | done | |].
    + intros q _. apply Hpages.
    + intros pg. by rewrite Hpages.
  - destruct (atomicAppend_tail_open cfg M id timestamp value σ Hcfg HM IH)
      as (p & n & σ' & -> & _ & _ & _ & _ & Hopen).
    done.
Qed.

(** C1.  A single caller creates the list and appends to it, call after
    call, under a configuration whose [maxElementPerPage] is a number
    [M >= 1].  Then every append succeeds; it returns the page [p] it
    appended to and the new length [n] of that page (as [sequence_id =
    n - 1]); the page holds [n <= M] elements; and when [n >= M] the
    counter of the summary is [p + 1] and page [p + 1] exists with an
    empty [data_list]. *)
Theorem sequential_rollover (cfg : config) (M : Z) (id : string) (σ : store)
    (timestamp : Z) (value : payload) :
  maxElementPerPage cfg = VNum (Num M) →
  1 ≤ M →
  sequential cfg id σ →
  ∃ p n σ',
    run (atomicAppend cfg timestamp id value) σ
    = (Fulfilled {| pos_page_id := p; pos_sequence_id := n - 1 |}, σ')
    ∧ (∃ pg, pages σ' !! (id, p) = Some pg
             ∧ Z.of_nat (length (data_list pg)) = n ∧ n ≤ M)
    ∧ (M ≤ n →
       observe_currentPage σ' id = Some (p + 1)
       ∧ ∃ pg', pages σ' !! (id, p + 1) = Some pg' ∧ data_list pg' = []).
Proof.
  intros Hcfg HM Hseq.
  destruct (atomicAppend_tail_open cfg M id timestamp value σ Hcfg HM
              (sequential_tail_open cfg M id σ Hcfg HM Hseq))
    as (p & n & σ' & Hrun & _ & Hpage & Hfull & _).
  by exists p, n, σ'.
Qed.

Lemma sequential_rollover_witness :
  ∃ p n σ',
    run (atomicAppend cfg_two 7 "L" "Hello1") (example_list ["Hello0"])
    = (Fulfilled {| pos_page_id := p; pos_sequence_id := n - 1 |}, σ')
    ∧ (∃ pg, pages σ' !! ("L", p) = Some pg
             ∧ Z.of_nat (length (data_list pg)) = n ∧ n ≤ 2)
    ∧ (2 ≤ n →
       observe_currentPage σ' "L" = Some (p + 1)
       ∧ ∃ pg', pages σ' !! ("L", p + 1) = Some pg' ∧ data_list pg' = []).
Proof.
  apply (sequential_rollover cfg_two 2 "L" (example_list ["Hello0"]) 7 "Hello1").
  - reflexivity.
  - lia.
  - apply (sequential_append cfg_two "L" _ 0 "Hello0").
    apply (sequential_create cfg_two "L" empty_store None 0).
    split; [|intros p]; apply lookup_empty.
Defined.

(** ** Creating a list twice *)

(** C2.  On a list whose summary exists, [idempotentCreate] leaves the
    store as it is (the counter and the metadata of the first call stay,
    no page is touched), but the call does not succeed: the refusal of
    the conditional put, [ConditionalCheckFailedException], is not caught
    and rejects the promise. *)
Theorem idempotentCreate_existing_rejected (σ : store) (id : string)
    (metadata : option string) (timestamp : Z) (s : summary) :
  summaries σ !! id = Some s →
  run (idempotentCreate id metadata timestamp) σ
  = (Failed (AwsError ConditionalCheckFailedException), σ).
Proof. intros Hs. by rewrite run_idempotentCreate, Hs. Qed.

Lemma idempotentCreate_existing_rejected_witness :
  let σ := (run (idempotentCreate "L" (Some "first") 0) empty_store).2 in
  summaries σ !! "L" = Some (defaultPageSummary "L" (Some "first") 0)
  ∧ run (idempotentCreate "L" (Some "second") 1) σ
    = (Failed (AwsError ConditionalCheckFailedException), σ).
Proof.
  assert (H : summaries (run (idempotentCreate "L" (Some "first") 0) empty_store).2
              !! "L" = Some (defaultPageSummary "L" (Some "first") 0))
    by (vm_compute; reflexivity).
  split; [exact H|].
  exact (idempotentCreate_existing_rejected _ "L" (Some "second") 1 _ H).
Defined.

(** ** Configuration *)

Lemma atomicAppend_threshold cfg z timestamp id value σ s pg :
  maxElementPerPage cfg = VNum (Num z) →
  summaries σ !! id = Some s →
  0 ≤ s_currentPage s →
  pages σ !! (id, s_currentPage s) = Some pg →
  observe_currentPage (run (atomicAppend cfg timestamp id value) σ).2 id
  = Some (if z <=? Z.of_nat (length (data_list pg)) + 1
          then s_currentPage s + 1
          else s_currentPage s).
Proof.
  intros Hcfg Hs Hnonneg Hpg. unfold atomicAppend.
  rewrite run_bind, run_getCurrentPage, Hs, run_atomicAppendImpl.
  rewrite run_createNewPage, Hpg. cbn [snd].
  rewrite run_bind, run_appendDataToPage, Hpg, run_afterAppend. cbn [snd].
  unfold JS.ge. rewrite Hcfg. cbn [ToNumber].
  rewrite length_app, Nat2Z.inj_add. change (Z.of_nat (length [value])) with 1.
  destruct (z <=? _); unfold observe_currentPage; [|by cbn [summaries]; rewrite Hs].
  rewrite run_increasePageCounter. cbn [summaries]. rewrite Hs, Z.eqb_refl.
  destruct (truthy _ && _).
  - rewrite run_createNewPage. cbn [snd].
    destruct (_ !! (id, s_currentPage s + 1)); cbn [summaries];
      by rewrite lookup_insert_eq.
  - cbn [summaries]. by rewrite lookup_insert_eq.
Qed.

(** C10.  [configureMaximumNumberOfElementPerPage] ignores a falsy
    argument (0 among them: the default 50 stays) and stores any truthy
    argument as it is, a negative number included; the next append rolls
    the page over exactly when the new length reaches the stored
    number. *)
Theorem configure_maximum_stored_verbatim (cfg : config) (v : value) :
  (truthy v = false → configureMaximumNumberOfElementPerPage v cfg = cfg)
  ∧ (truthy v = true →
     maxElementPerPage (configureMaximumNumberOfElementPerPage v cfg) = v)
  ∧ maxElementPerPage
      (configureMaximumNumberOfElementPerPage (VNum (Num 0)) default_config)
    = VNum (Num 50)
  ∧ (∀ z, z ≠ 0 →
       maxElementPerPage
         (configureMaximumNumberOfElementPerPage (VNum (Num z)) cfg)
       = VNum (Num z))
  ∧ (∀ z timestamp id value σ s pg,
       z ≠ 0 →
       summaries σ !! id = Some s →
       0 ≤ s_currentPage s →
       pages σ !! (id, s_currentPage s) = Some pg →
       observe_currentPage
         (run (atomicAppend
                 (configureMaximumNumberOfElementPerPage (VNum (Num z)) cfg)
                 timestamp id value) σ).2 id
       = Some (if z <=? Z.of_nat (length (data_list pg)) + 1
               then s_currentPage s + 1
               else s_currentPage s)).
Proof.
  assert (Hnum : ∀ z, z ≠ 0 →
    maxElementPerPage
      (configureMaximumNumberOfElementPerPage (VNum (Num z)) cfg)
    = VNum (Num z)).
  { intros z Hz. unfold configureMaximumNumberOfElementPerPage. simpl.
    by destruct (Z.eqb_spec z 0). }
  unfold configureMaximumNumberOfElementPerPage. split_and!.
  - by intros ->.
  - by intros ->.
  - done.
  - done.
  - intros z timestamp id value σ s pg Hz. apply atomicAppend_threshold.
    by apply Hnum.
Qed.

Lemma configure_maximum_stored_verbatim_witness :
  configureMaximumNumberOfElementPerPage (VNum (Num 0)) default_config
  = default_config
  ∧ maxElementPerPage
      (configureMaximumNumberOfElementPerPage (VNum (Num (-3))) default_config)
    = VNum (Num (-3))
  ∧ observe_currentPage
      (run (atomicAppend
              (configureMaximumNumberOfElementPerPage (VNum (Num (-3)))
                 default_config)
              0 "L" "Hello1") (example_list ["Hello0"])).2 "L"
    = Some 1.
Proof.
  destruct (configure_maximum_stored_verbatim default_config (VNum (Num 0)))
    as (Hfalsy & _ & _ & Hnum & Hroll).
  split_and!.
  - apply Hfalsy. reflexivity.
  - apply Hnum. lia.
  - refine (Hroll (-3) 0 "L" "Hello1" (example_list ["Hello0"])
              {| s_v := 1; s_id := "L_summary"; s_metadata := None;
                 s_submittedAt := 0; s_currentPage := 0 |}
              {| p_v := 1; p_id := "L_0"; p_submittedAt := 0;
                 data_list := ["Hello0"] |} _ _ _ _).
    + lia.
    + vm_compute. reflexivity.
    + simpl. lia.
    + vm_compute. reflexivity.
Defined.

(** ** Interleaved callers: the counter *)

Lemma counters_grow_refl σ : counters_grow σ σ.
Proof. intros id c Hc. exists c. split; [done | lia]. Qed.

Lemma counters_grow_trans σ1 σ2 σ3 :
  counters_grow σ1 σ2 → counters_grow σ2 σ3 → counters_grow σ1 σ3.
Proof.
  intros H12 H23 id c Hc.
  destruct (H12 id c Hc) as (c' & Hc' & ?).
  destruct (H23 id c' Hc') as (c'' & Hc'' & ?).
  exists c''. split; [done | lia].
Qed.

Lemma store_put_summary_grows σ id it :
  counters_grow σ (store_put_summary σ id it).2.
Proof.
  unfold store_put_summary.
  destruct (summaries σ !! id) as [s|] eqn:Hs; [apply counters_grow_refl|].
  intros id' c. unfold observe_currentPage. cbn [snd summaries].
  destruct (decide (id = id')) as [<-|Hne].
  - by rewrite Hs.
  - rewrite lookup_insert_ne by done. intros Hc. exists c. split; [done | lia].
Qed.

Lemma store_increment_grows σ id floor :
  counters_grow σ (store_increment σ id floor).2.
Proof.
  unfold store_increment.
  destruct (summaries σ !! id) as [s|] eqn:Hs; [|apply counters_grow_refl].
  destruct (s_currentPage s =? floor); [|apply counters_grow_refl].
  intros id' c. unfold observe_currentPage. cbn [snd summaries].
  destruct (decide (id = id')) as [<-|Hne].
  - rewrite Hs, lookup_insert_eq. simpl. intros [= <-].
    eexists. split; [done | lia].
  - rewrite lookup_insert_ne by done. intros Hc. exists c. split; [done | lia].
Qed.

Lemma store_put_page_summaries σ id p it :
  summaries (store_put_page σ id p it).2 = summaries σ.
Proof. unfold store_put_page. by destruct (pages σ !! (id, p)). Qed.

Lemma store_list_append_summaries σ id p v :
  summaries (store_list_append σ id p v).2 = summaries σ.
Proof. unfold store_list_append. by destruct (pages σ !! (id, p)). Qed.

Lemma same_summaries_grow σ σ' :
  summaries σ' = summaries σ → counters_grow σ σ'.
Proof.
  intros H id c. unfold observe_currentPage. rewrite H.
  intros Hc. exists c. split; [done | lia].
Qed.

(** Whatever the promise, one request never lowers a counter. *)
Lemma request_step_grows {A} (m m' : prog A) σ σ' :
  request_step m σ = Some (m', σ') → counters_grow σ σ'.
Proof.
  destruct m; simpl; try done.
  - intros [= _ <-]. apply counters_grow_refl.
  - intros [= _ <-]. apply counters_grow_refl.
  - pose proof (store_put_summary_grows σ id it) as H.
    destruct (store_put_summary σ id it). by intros [= _ <-].
  - pose proof (store_put_page_summaries σ id pageId it) as H.
    destruct (store_put_page σ id pageId it).
    intros [= _ <-]. by apply same_summaries_grow.
  - pose proof (store_list_append_summaries σ id pageId v) as H.
    destruct (store_list_append σ id pageId v).
    intros [= _ <-]. by apply same_summaries_grow.
  - pose proof (store_increment_grows σ id floor) as H.
    destruct (store_increment σ id floor). by intros [= _ <-].
Qed.

Lemma sched_step_grows st i : counters_grow st.2 (sched_step st i).2.
Proof.
  unfold sched_step. destruct (st.1 !! i) as [m|]; [|apply counters_grow_refl].
  destruct (request_step m st.2) as [[m' σ']|] eqn:Hstep;
    [|apply counters_grow_refl].
  by apply request_step_grows in Hstep.
Qed.

Lemma run_schedule_grows sched st :
  counters_grow st.2 (run_schedule sched st).2.
Proof.
  revert st. induction sched as [|i sched IH]; intros st;
    [apply counters_grow_refl|].
  simpl. eapply counters_grow_trans; [apply sched_step_grows | apply IH].
Qed.

(** Summaries are only ever created at page 0. *)
Lemma fresh_puts_bind {A B} (m : prog A) (f : A → prog B) :
  fresh_puts m → (∀ a, fresh_puts (f a)) → fresh_puts (bind m f).
Proof. induction m; simpl; intuition auto. Qed.

Lemma fresh_puts_catch {A} (m : prog A) (h : exn → prog A) :
  fresh_puts m → (∀ e, fresh_puts (h e)) → fresh_puts (catch m h).
Proof. induction m; simpl; intuition auto. Qed.

Lemma fresh_puts_settle {A} (r : reply A) : fresh_puts (settle r).
Proof. by destruct r. Qed.

Lemma fresh_puts_getCurrentPage id : fresh_puts (getCurrentPage id).
Proof. intros [[s|]|e]; done. Qed.

Lemma fresh_puts_createNewPage id p timestamp :
  fresh_puts (createNewPage id p timestamp).
Proof. intros [[]|e]; simpl; [done|]. by destruct (has_code e _). Qed.

Lemma fresh_puts_afterAppend cfg timestamp id currentPage n :
  fresh_puts (afterAppend cfg timestamp id currentPage n).
Proof.
  unfold afterAppend. destruct (JS.ge _ _); [|done].
  apply fresh_puts_bind.
  - intros [s|e]; simpl; [done|]. by destruct (has_code e _).
  - intros [c|]; [|done]. destruct (_ && _); [|done].
    apply fresh_puts_bind; [apply fresh_puts_createNewPage | done].
Qed.

Lemma fresh_puts_atomicAppendImpl_body self cfg timestamp id currentPage value attempt :
  (∀ n, fresh_puts (self n)) →
  fresh_puts
    (atomicAppendImpl_body self cfg timestamp id currentPage value attempt).
Proof.
  intros Hself. unfold atomicAppendImpl_body.
  destruct (1 <? attempt)%nat; [done|].
  apply fresh_puts_catch.
  - apply fresh_puts_bind; [|intros n; apply fresh_puts_afterAppend].
    intros [pg|e]; done.
  - intros e. destruct (has_code e _); [|done].
    apply fresh_puts_bind; [apply fresh_puts_createNewPage | done].
Qed.

Lemma fresh_puts_atomicAppend cfg timestamp id value :
  fresh_puts (atomicAppend cfg timestamp id value).
Proof.
  apply fresh_puts_bind; [apply fresh_puts_getCurrentPage|].
  intros currentPage. unfold atomicAppendImpl.
  do 3 (apply fresh_puts_atomicAppendImpl_body; intros ?). done.
Qed.

Lemma fresh_puts_retrieveDataList id pageId :
  fresh_puts (retrieveDataList id pageId).
Proof. intros [[pg|]|e]; done. Qed.

Lemma fresh_puts_recursivelyRetrieveData fuel id n currentPage fromSequence acc :
  fresh_puts (recursivelyRetrieveData fuel id n currentPage fromSequence acc).
Proof.
  revert currentPage fromSequence acc.
  induction fuel as [|fuel IH]; intros currentPage fromSequence acc; [done|].
  cbn [recursivelyRetrieveData]. destruct (num_lt0 currentPage); [done|].
  apply fresh_puts_bind; [apply fresh_puts_retrieveDataList|].
  intros l. by destruct (_ <? n).
Qed.

Lemma fresh_puts_retrieveNElement id fromPage fromSequence n :
  fresh_puts (retrieveNElement id fromPage fromSequence n).
Proof.
  apply fresh_puts_bind; [apply fresh_puts_recursivelyRetrieveData | done].
Qed.

Lemma fresh_puts_start c : fresh_puts (start c).
Proof.
  destruct c as [id metadata timestamp|cfg timestamp id value|id|id n|id c n];
    (apply fresh_puts_bind; [|done]).
  - split; [done|]. intros [[]|e]; done.
  - apply fresh_puts_atomicAppend.
  - apply fresh_puts_getCurrentPage.
  - apply fresh_puts_bind; [apply fresh_puts_getCurrentPage|].
    intros p. apply fresh_puts_retrieveNElement.
  - unfold retrieveNextMostRecent. destruct c as [c|]; [|done].
    destruct (_ || _); [done|]. apply fresh_puts_retrieveNElement.
Qed.

Lemma request_step_nonneg {A} (m m' : prog A) σ σ' :
  fresh_puts m → counters_nonneg σ →
  request_step m σ = Some (m', σ') →
  fresh_puts m' ∧ counters_nonneg σ'.
Proof.
  intros Hm Hσ.
  destruct m; simpl in *; try done.
  - intros [= <- <-]. auto.
  - intros [= <- <-]. auto.
  - destruct Hm as [Hzero Hk]. unfold store_put_summary.
    destruct (summaries σ !! id) as [s|] eqn:Hs; intros [= <- <-]; [auto|].
    split; [done|]. intros id' c. unfold observe_currentPage. cbn [summaries].
    destruct (decide (id = id')) as [<-|Hne].
    + rewrite lookup_insert_eq. simpl. intros [= <-]. lia.
    + rewrite lookup_insert_ne by done. apply Hσ.
  - pose proof (store_put_page_summaries σ id pageId it) as H.
    destruct (store_put_page σ id pageId it) as [r σ1].
    intros [= <- <-]. split; [done|].
    intros id' c. unfold observe_currentPage. simpl in H. rewrite H. apply Hσ.
  - pose proof (store_list_append_summaries σ id pageId v) as H.
    destruct (store_list_append σ id pageId v) as [r σ1].
    intros [= <- <-]. split; [done|].
    intros id' c. unfold observe_currentPage. simpl in H. rewrite H. apply Hσ.
  - pose proof (store_increment_grows σ id floor) as H.
    unfold store_increment in *.
    destruct (summaries σ !! id) as [s|] eqn:Hs; [|intros [= <- <-]; auto].
    destruct (s_currentPage s =? floor); intros [= <- <-]; [|auto].
    split; [done|]. intros id' c. unfold observe_currentPage. cbn [summaries].
    destruct (decide (id = id')) as [<-|Hne].
    + rewrite lookup_insert_eq. simpl. intros [= <-].
      assert (0 ≤ s_currentPage s); [|lia].
      apply (Hσ id). unfold observe_currentPage. by rewrite Hs.
    + rewrite lookup_insert_ne by done. apply Hσ.
Qed.

Lemma sched_step_nonneg st i :
  Forall fresh_puts st.1 → counters_nonneg st.2 →
  Forall fresh_puts (sched_step st i).1 ∧ counters_nonneg (sched_step st i).2.
Proof.
  intros Hts Hσ. unfold sched_step.
  destruct (st.1 !! i) as [m|] eqn:Hm; [|auto].
  destruct (request_step m st.2) as [[m' σ']|] eqn:Hstep; [|auto].
  apply request_step_nonneg in Hstep as [Hm' Hσ'];
    [|by eapply Forall_lookup_1|done].
  split; [|done]. by apply Forall_insert.
Qed.

Lemma run_schedule_nonneg sched st :
  Forall fresh_puts st.1 → counters_nonneg st.2 →
  counters_nonneg (run_schedule sched st).2.
Proof.
  revert st. induction sched as [|i sched IH]; intros st Hts Hσ; [done|].
  simpl. destruct (sched_step_nonneg st i Hts Hσ). by apply IH.
Qed.

(** C7.  Whatever calls of the interface are in flight and however the
    scheduler interleaves their requests, between two points of the
    execution no counter decreases (a later observation of [currentPage]
    is at least the earlier one), and if every counter was non-negative
    at the start it is so at every point. *)
Theorem monotone_counter (calls : list call) (σ : store)
    (sched1 sched2 : list nat) :
  let st1 := run_schedule sched1 (start <$> calls, σ) in
  let st2 := run_schedule sched2 st1 in
  (∀ id c1,
     observe_currentPage st1.2 id = Some c1 →
     ∃ c2, observe_currentPage st2.2 id = Some c2 ∧ c1 ≤ c2)
  ∧ (counters_nonneg σ → counters_nonneg st1.2 ∧ counters_nonneg st2.2).
Proof.
  intros st1 st2. split; [apply run_schedule_grows|].
  intros Hσ.
  assert (Hpool : Forall fresh_puts (start <$> calls)).
  { apply Forall_fmap, Forall_forall. intros c _. apply fresh_puts_start. }
  split.
  - by apply run_schedule_nonneg.
  - subst st2 st1. unfold run_schedule. rewrite <- foldl_app.
    by apply (run_schedule_nonneg (sched1 ++ sched2)).
Qed.

Lemma monotone_counter_witness :
  let calls := [CallAtomicAppend cfg_two 1 "L" "a";
                CallAtomicAppend cfg_two 2 "L" "b"] in
  let st1 := run_schedule [0; 1]%nat (start <$> calls, example_list ["Hello0"]) in
  let st2 := run_schedule [0; 1; 0; 1; 0; 1]%nat st1 in
  observe_currentPage st1.2 "L" = Some 0
  ∧ ∃ c2, observe_currentPage st2.2 "L" = Some c2 ∧ 0 ≤ c2.
Proof.
  intros calls st1 st2.
  assert (H1 : observe_currentPage st1.2 "L" = Some 0) by (vm_compute; reflexivity).
  split; [exact H1|].
  exact (proj1 (monotone_counter calls (example_list ["Hello0"])
                  [0; 1]%nat [0; 1; 0; 1; 0; 1]%nat) "L" 0 H1).
Defined.

(** Two callers that both read page 0 before either appends: the page
    ends with three elements for a maximum of two, and the counter moves
    once. *)
Example interleaved_overshoot :
  let calls := [CallAtomicAppend cfg_two 1 "L" "a";
                CallAtomicAppend cfg_two 2 "L" "b"] in
  let st := run_schedule [0; 1; 0; 1; 0; 1; 0; 1]%nat
              (start <$> calls, example_list ["Hello0"]) in
  observe_currentPage st.2 "L" = Some 1
  ∧ data_list <$> pages st.2 !! ("L", 0) = Some ["Hello0"; "a"; "b"]
  ∧ data_list <$> pages st.2 !! ("L", 1) = Some []
  ∧ st.1 = [Ret tt; Ret tt].
Proof. vm_compute. auto. Qed.

(** ** The append engine against a store that can refuse *)

Lemma run_with_faults_bind {A B} (m : prog A) (f : A → prog B) w :
  run_with_faults (bind m f) w
  = match run_with_faults m w with
    | (Fulfilled a, w') => run_with_faults (f a) w'
    | (Failed e, w') => (Failed e, w')
    | (Pending, w') => (Pending, w')
    end.
Proof.
  revert w.
  induction m as [| | |? k IH|? ? k IH|? ? k IH|? ? ? k IH|? ? ? k IH|? ? k IH];
    intros w; simpl; try done;
    match goal with |- context [serve ?w ?q ?s] => by destruct (serve w q s) end.
Qed.

Lemma run_with_faults_catch {A} (m : prog A) (h : exn → prog A) w :
  run_with_faults (catch m h) w
  = match run_with_faults m w with
    | (Failed e, w') => run_with_faults (h e) w'
    | other => other
    end.
Proof.
  revert w.
  induction m as [| | |? k IH|? ? k IH|? ? k IH|? ? ? k IH|? ? ? k IH|? ? k IH];
    intros w; simpl; try done;
    match goal with |- context [serve ?w ?q ?s] => by destruct (serve w q s) end.
Qed.

Lemma run_with_faults_createNewPage id p timestamp w :
  run_with_faults (createNewPage id p timestamp) w
  = match serve w (ReqPutPage id p)
            (store_put_page (w_store w) id p
               (getDefaultPageData (id +:+ "_" +:+ num_to_string (Num p))
                  timestamp)) with
    | (Resolved _, w') => (Fulfilled tt, w')
    | (Rejected e, w') =>
        (if has_code e ConditionalCheckFailedException
         then Fulfilled tt else Failed JsError, w')
    end.
Proof.
  simpl. destruct (serve _ _ _) as [[[]|e] w']; simpl; [done|].
  by destruct (has_code e _).
Qed.

Lemma run_with_faults_appendDataToPage id p v w :
  run_with_faults (appendDataToPage id p v) w
  = match serve w (ReqListAppend id p v)
            (store_list_append (w_store w) id p v) with
    | (Resolved pg, w') => (Fulfilled (Z.of_nat (length (data_list pg))), w')
    | (Rejected e, w') => (Failed e, w')
    end.
Proof. simpl. by destruct (serve _ _ _) as [[pg|e] w']. Qed.

Lemma run_with_faults_increasePageCounter id floor w :
  run_with_faults (increasePageCounter id floor) w
  = match serve w (ReqIncrementCounter id floor)
            (store_increment (w_store w) id floor) with
    | (Resolved s, w') => (Fulfilled (Some (s_currentPage s)), w')
    | (Rejected e, w') =>
        (if has_code e ConditionalCheckFailedException
         then Fulfilled None else Failed JsError, w')
    end.
Proof.
  simpl. destruct (serve _ _ _) as [[s|e] w']; simpl; [done|].
  by destruct (has_code e _).
Qed.

Lemma serve_log {A} w req (served : reply A * store) r w' :
  serve w req served = (r, w') →
  w_log w' = w_log w ++ [(req, refusal r)].
Proof.
  unfold serve. destruct (with_fault _ _ _). by intros [= <- <-].
Qed.

Lemma count_list_appends_snoc log ev :
  count_list_appends (log ++ [ev])
  = (count_list_appends log + if is_list_append ev then 1 else 0)%nat.
Proof.
  unfold count_list_appends. rewrite filter_app, length_app. f_equal.
  destruct (is_list_append ev) eqn:E.
  - by rewrite filter_cons_True.
  - rewrite filter_cons_False; [done|]. by rewrite E.
Qed.

(** After the append, [afterAppend] sends no other append, keeps what
    the log already holds, and can only fail with the module's own
    [Error]. *)
Lemma afterAppend_faults cfg timestamp id p n w o w' :
  run_with_faults (afterAppend cfg timestamp id p n) w = (o, w') →
  count_list_appends (w_log w') = count_list_appends (w_log w)
  ∧ (∃ l, w_log w' = w_log w ++ l)
  ∧ (∀ e, o = Failed e → e = JsError).
Proof.
  unfold afterAppend. destruct (JS.ge _ _).
  2:{ intros [= <- <-]. split_and!; [done | by exists []; rewrite app_nil_r | done]. }
  rewrite run_with_faults_bind, run_with_faults_increasePageCounter.
  destruct (serve w _ _) as [r1 w1] eqn:E1.
  apply serve_log in E1.
  assert (Hc1 : count_list_appends (w_log w1) = count_list_appends (w_log w))
    by (rewrite E1, count_list_appends_snoc; simpl; lia).
  destruct r1 as [s|e].
  - destruct (_ && _).
    + rewrite run_with_faults_bind, run_with_faults_createNewPage.
      destruct (serve w1 _ _) as [r2 w2] eqn:E2.
      apply serve_log in E2.
      assert (Hc2 : count_list_appends (w_log w2) = count_list_appends (w_log w))
        by (rewrite E2, count_list_appends_snoc; simpl; lia).
      assert (Hl2 : ∃ l, w_log w2 = w_log w ++ l)
        by (rewrite E2, E1, <- app_assoc; eauto).
      destruct r2 as [[]|e].
      * intros [= <- <-]. by split_and!.
      * destruct (has_code e _); intros [= <- <-]; split_and!; try done.
        by intros ? [= <-].
    + intros [= <- <-]. split_and!; [done | eauto | done].
  - destruct (has_code e _); intros [= <- <-];
      (split_and!; [done | eauto |]); [done|]. by intros ? [= <-].
Qed.

(** One attempt of [atomicAppendImpl]. *)
Lemma run_with_faults_attempt self cfg timestamp id p v attempt w :
  (attempt ≤ 1)%nat →
  run_with_faults (atomicAppendImpl_body self cfg timestamp id p v attempt) w
  = match serve w (ReqListAppend id p v)
            (store_list_append (w_store w) id p v) with
    | (Resolved pg, w1) =>
        match run_with_faults
                (afterAppend cfg timestamp id p
                   (Z.of_nat (length (data_list pg)))) w1 with
        | (Failed _, w2) => (Failed JsError, w2)
        | other => other
        end
    | (Rejected e, w1) =>
        if has_code e ValidationException
        then
          match serve w1 (ReqPutPage id p)
                  (store_put_page (w_store w1) id p
                     (getDefaultPageData
                        (id +:+ "_" +:+ num_to_string (Num p)) timestamp)) with
          | (Resolved _, w2) => run_with_faults (self (attempt + 1)%nat) w2
          | (Rejected e1, w2) =>
              if has_code e1 ConditionalCheckFailedException
              then run_with_faults (self (attempt + 1)%nat) w2
              else (Failed JsError, w2)
          end
        else (Failed JsError, w1)
    end.
Proof.
  intros Hattempt. unfold atomicAppendImpl_body.
  destruct (Nat.ltb_spec 1 attempt) as [?|_]; [lia|].
  rewrite run_with_faults_catch, run_with_faults_bind,
    run_with_faults_appendDataToPage.
  destruct (serve w _ _) as [[pg|e] w1].
  - destruct (run_with_faults (afterAppend _ _ _ _ _) w1) as [[a|e|] w2] eqn:E;
      try done.
    apply afterAppend_faults in E as (_ & _ & He). rewrite (He e eq_refl). done.
  - destruct (has_code e ValidationException); [|done].
    rewrite run_with_faults_bind, run_with_faults_createNewPage.
    destruct (serve w1 _ _) as [[[]|e1] w2]; [done|].
    by destruct (has_code e1 _).
Qed.

Lemma count_list_appends_app l1 l2 :
  count_list_appends (l1 ++ l2)
  = (count_list_appends l1 + count_list_appends l2)%nat.
Proof. unfold count_list_appends. by rewrite filter_app, length_app. Qed.

Lemma nothing_appended_refl σ id p : nothing_appended σ σ id p.
Proof. split_and!; auto. Qed.

Lemma nothing_appended_trans σ1 σ2 σ3 id p :
  nothing_appended σ1 σ2 id p → nothing_appended σ2 σ3 id p →
  nothing_appended σ1 σ3 id p.
Proof.
  intros (Hs12 & Hk12 & Hn12) (Hs23 & Hk23 & Hn23). split_and!.
  - congruence.
  - auto.
  - intros key pg Hpg. destruct (Hn23 key pg Hpg) as [H2|H2]; auto.
Qed.

Lemma serve_list_append_rejected w req id p v e w' :
  serve w req (store_list_append (w_store w) id p v) = (Rejected e, w') →
  w_store w' = w_store w.
Proof.
  unfold serve, with_fault, store_list_append.
  destruct (w_faults w) as [|[e'|] faults]; try by intros [= _ <-].
  all: destruct (pages (w_store w) !! (id, p)); by intros [= _ <-].
Qed.

Lemma serve_put_page_empty w req id p it r w' :
  data_list it = [] →
  serve w req (store_put_page (w_store w) id p it) = (r, w') →
  nothing_appended (w_store w) (w_store w') id p.
Proof.
  intros Hit. unfold serve, with_fault, store_put_page.
  assert (Hput : nothing_appended (w_store w)
    (match pages (w_store w) !! (id, p) with
     | Some _ => (Rejected (AwsError ConditionalCheckFailedException), w_store w)
     | None => (Resolved (),
                {| summaries := summaries (w_store w);
                   pages := <[(id, p) := it]> (pages (w_store w)) |})
     end).2 id p).
  { destruct (pages (w_store w) !! (id, p)) eqn:Hp;
      [apply nothing_appended_refl|].
    split_and!; [done | |]; cbn [snd pages].
    - intros key pg Hpg. rewrite lookup_insert_ne; [done | congruence].
    - intros key pg. destruct (decide ((id, p) = key)) as [<-|Hne].
      + rewrite lookup_insert_eq. intros [= <-]. auto.
      + rewrite lookup_insert_ne by done. auto. }
  destruct (w_faults w) as [|[e'|] faults].
  - destruct (match _ with Some _ => _ | None => _ end). by intros [= _ <-].
  - intros [= _ <-]. apply nothing_appended_refl.
  - destruct (match _ with Some _ => _ | None => _ end). by intros [= _ <-].
Qed.

(** The retry: one more append at most, and no third attempt. *)
Lemma second_attempt_faults cfg timestamp id p v w o w' :
  run_with_faults
    (atomicAppendImpl_body
       (atomicAppendImpl_body (λ _, Throw JsError) cfg timestamp id p v)
       cfg timestamp id p v 1) w = (o, w') →
  ∃ e2 l,
    w_log w' = w_log w ++ (ReqListAppend id p v, e2) :: l
    ∧ count_list_appends l = 0%nat
    ∧ (e2 = Some (AwsError ValidationException) →
       o = Failed JsError ∧ nothing_appended (w_store w) (w_store w') id p).
Proof.
  rewrite run_with_faults_attempt by lia.
  destruct (serve w _ _) as [[pg|e2] w3] eqn:E2.
  - pose proof (serve_log _ _ _ _ _ E2) as Hlog3.
    destruct (run_with_faults (afterAppend _ _ _ _ _) w3) as [o4 w4] eqn:E4.
    apply afterAppend_faults in E4 as (Hcount & [l Hl] & _).
    intros Hrun. assert (w' = w4) as -> by (by destruct o4; injection Hrun).
    exists None, l. split_and!; [| |done].
    + rewrite Hl, Hlog3, <- app_assoc. done.
    + rewrite Hl, count_list_appends_app in Hcount. lia.
  - pose proof (serve_log _ _ _ _ _ E2) as Hlog3.
    pose proof (serve_list_append_rejected _ _ _ _ _ _ _ E2) as Hstore3.
    destruct (has_code e2 ValidationException) eqn:Hc2.
    + destruct (serve w3 _ _) as [r4 w4] eqn:E4.
      pose proof (serve_log _ _ _ _ _ E4) as Hlog4.
      apply serve_put_page_empty in E4; [|done]. rewrite Hstore3 in E4.
      assert (Hend : (o, w') = (Failed JsError, w4) →
        ∃ e2' l,
          w_log w' = w_log w ++ (ReqListAppend id p v, e2') :: l
          ∧ count_list_appends l = 0%nat
          ∧ (e2' = Some (AwsError ValidationException) →
             o = Failed JsError
             ∧ nothing_appended (w_store w) (w_store w') id p)).
      { intros [= -> ->]. exists (Some e2), [(ReqPutPage id p, refusal r4)].
        split_and!; [|done|done].
        rewrite Hlog4, Hlog3, <- app_assoc. done. }
      destruct r4 as [[]|e4]; [|destruct (has_code e4 _)];
        intros H; apply Hend; rewrite <- H; done.
    + intros [= <- <-]. exists (Some e2), []. split_and!; [done | done |].
      intros [= ->]. done.
Qed.

(** C5.  Against a store that can refuse any request, one call of
    [atomicAppendImpl] asks the store to append at most twice.  When the
    first append is refused because the page does not exist
    ([ValidationException]), the next request creates the page; when that
    succeeds or meets a page that exists already, the append is sent
    again, once; and when this second append is refused the same way the
    call fails with the module's [Error], having recorded no element:
    the summaries are untouched and at most the empty page was
    created. *)
Theorem append_recovery_retried_once (cfg : config) (timestamp : Z)
    (id : string) (p : Z) (v : payload) (σ : store)
    (faults : list (option exn)) (o : outcome position) (w' : world) :
  run_with_faults (atomicAppendImpl cfg timestamp id p v 0)
    {| w_store := σ; w_faults := faults; w_log := [] |} = (o, w') →
  (count_list_appends (w_log w') ≤ 2)%nat
  ∧ (w_log w' !! 0%nat
     = Some (ReqListAppend id p v, Some (AwsError ValidationException)) →
     ∃ e1,
       w_log w' !! 1%nat = Some (ReqPutPage id p, e1)
       ∧ (e1 = None ∨ e1 = Some (AwsError ConditionalCheckFailedException) →
          ∃ e2,
            w_log w' !! 2%nat = Some (ReqListAppend id p v, e2)
            ∧ count_list_appends (w_log w') = 2%nat
            ∧ (e2 = Some (AwsError ValidationException) →
               o = Failed JsError
               ∧ nothing_appended σ (w_store w') id p))).
Proof.
  unfold atomicAppendImpl. rewrite run_with_faults_attempt by lia.
  set (w0 := {| w_store := σ; w_faults := faults; w_log := [] |}).
  destruct (serve w0 _ _) as [[pg|e0] w1] eqn:E0.
  - pose proof (serve_log _ _ _ _ _ E0) as Hlog1. simpl in Hlog1.
    destruct (run_with_faults (afterAppend _ _ _ _ _) w1) as [o2 w2] eqn:E2.
    apply afterAppend_faults in E2 as (Hcount & [l Hl] & _).
    intros Hrun. assert (w' = w2) as -> by (by destruct o2; injection Hrun).
    rewrite Hcount, Hl, Hlog1. split; [by compute; lia|]. done.
  - pose proof (serve_log _ _ _ _ _ E0) as Hlog1. simpl in Hlog1.
    pose proof (serve_list_append_rejected _ _ _ _ _ _ _ E0) as Hstore1.
    simpl in Hstore1.
    destruct (has_code e0 ValidationException) eqn:Hc0.
    2:{ intros [= <- <-]. rewrite Hlog1. split; [by compute; lia|].
        intros [= ->]. done. }
    destruct (serve w1 _ _) as [r1 w2] eqn:E1.
    pose proof (serve_log _ _ _ _ _ E1) as Hlog2. rewrite Hlog1 in Hlog2.
    simpl in Hlog2.
    apply serve_put_page_empty in E1; [|done]. rewrite Hstore1 in E1.
    assert (Hretry :
      run_with_faults
        (atomicAppendImpl_body
           (atomicAppendImpl_body (λ _, Throw JsError) cfg timestamp id p v)
           cfg timestamp id p v (0 + 1)) w2 = (o, w') →
      (count_list_appends (w_log w') ≤ 2)%nat
      ∧ (w_log w' !! 0%nat
         = Some (ReqListAppend id p v, Some (AwsError ValidationException)) →
         ∃ e1,
           w_log w' !! 1%nat = Some (ReqPutPage id p, e1)
           ∧ (e1 = None ∨ e1 = Some (AwsError ConditionalCheckFailedException) →
              ∃ e2,
                w_log w' !! 2%nat = Some (ReqListAppend id p v, e2)
                ∧ count_list_appends (w_log w') = 2%nat
                ∧ (e2 = Some (AwsError ValidationException) →
                   o = Failed JsError
                   ∧ nothing_appended σ (w_store w') id p)))).
    { intros Hrun.
      apply second_attempt_faults in Hrun as (e2 & l & Hlog & Hl & Hfatal).
      rewrite Hlog2 in Hlog. simpl in Hlog.
      assert (Hcount : count_list_appends (w_log w') = 2%nat).
      { rewrite Hlog.
        change (count_list_appends
                  ([(ReqListAppend id p v, Some e0);
                    (ReqPutPage id p, refusal r1);
                    (ReqListAppend id p v, e2)] ++ l) = 2%nat).
        rewrite count_list_appends_app, Hl. done. }
      split; [lia|]. rewrite Hlog. intros _.
      exists (refusal r1). split; [done|]. intros _.
      exists e2. split_and!; [done | by rewrite <- Hlog |].
      intros He2. destruct (Hfatal He2) as [-> Hstore]. split; [done|].
      by eapply nothing_appended_trans. }
    destruct r1 as [[]|e1]; [done|].
    destruct (has_code e1 ConditionalCheckFailedException) eqn:Hc1; [done|].
    intros [= <- <-]. rewrite Hlog2. split; [by compute; lia|].
    intros _. exists (Some e1). split; [done|].
    intros [?|[= ->]]; done.
Qed.

Lemma append_recovery_retried_once_witness :
  let r :=
    run_with_faults (atomicAppendImpl cfg_two 0 "L" 0 "Hello0" 0)
      {| w_store := example_list [];
         w_faults := [None; None; Some (AwsError ValidationException)];
         w_log := [] |} in
  r.1 = Failed JsError
  ∧ count_list_appends (w_log r.2) = 2%nat
  ∧ nothing_appended (example_list []) (w_store r.2) "L" 0.
Proof.
  intros r.
  destruct (append_recovery_retried_once cfg_two 0 "L" 0 "Hello0"
              (example_list [])
              [None; None; Some (AwsError ValidationException)] r.1 r.2)
    as [_ Hchain].
  - apply surjective_pairing.
  - destruct Hchain as (e1 & He1 & Hretry); [vm_compute; reflexivity|].
    vm_compute in He1. injection He1 as <-.
    destruct Hretry as (e2 & He2 & Hcount & Hfatal); [by left|].
    vm_compute in He2. injection He2 as <-.
    destruct Hfatal as [Ho Hstore]; [reflexivity|].
    by split_and!.
Defined.

(** With no fault scripted, the store that can refuse is the store. *)
Lemma run_with_faults_no_fault {A} (m : prog A) σ log :
  (run_with_faults m {| w_store := σ; w_faults := []; w_log := log |}).1
  = (run m σ).1
  ∧ w_store (run_with_faults m {| w_store := σ; w_faults := []; w_log := log |}).2
    = (run m σ).2.
Proof.
  revert σ log.
  induction m as [| | |? k IH|? ? k IH|? ? k IH|? ? ? k IH|? ? ? k IH|? ? k IH];
    intros σ log; simpl; try done; unfold serve; simpl;
    try match goal with
        | |- context [store_put_summary ?σ ?i ?x] =>
            destruct (store_put_summary σ i x)
        | |- context [store_put_page ?σ ?i ?p ?x] =>
            destruct (store_put_page σ i p x)
        | |- context [store_list_append ?σ ?i ?p ?x] =>
            destruct (store_list_append σ i p x)
        | |- context [store_increment ?σ ?i ?c] =>
            destruct (store_increment σ i c)
        end;
    apply IH.
Qed.

(** ** One append, on any store *)

Lemma page_values_insert σ sums id p pg id' q :
  page_values {| summaries := sums; pages := <[(id, p) := pg]> (pages σ) |} id' q
  = if decide ((id', q) = (id, p)) then data_list pg else page_values σ id' q.
Proof.
  unfold page_values. cbn [pages]. destruct (decide _) as [->|Hne].
  - by rewrite lookup_insert_eq.
  - by rewrite lookup_insert_ne.
Qed.

Lemma page_values_createNewPage id p timestamp σ id' q :
  page_values (run (createNewPage id p timestamp) σ).2 id' q
  = page_values σ id' q.
Proof.
  rewrite run_createNewPage. cbn [snd].
  destruct (pages σ !! (id, p)) as [pg|] eqn:Hpg; [done|].
  rewrite page_values_insert. destruct (decide _) as [[= -> ->]|]; [|done].
  unfold page_values. by rewrite Hpg.
Qed.

Lemma summaries_createNewPage id p timestamp σ :
  summaries (run (createNewPage id p timestamp) σ).2 = summaries σ.
Proof.
  rewrite run_createNewPage. cbn [snd]. by destruct (pages σ !! (id, p)).
Qed.

Lemma createNewPage_present id p timestamp σ :
  ∃ pg, pages (run (createNewPage id p timestamp) σ).2 !! (id, p) = Some pg
        ∧ data_list pg = page_values σ id p.
Proof.
  rewrite run_createNewPage. cbn [snd]. unfold page_values.
  destruct (pages σ !! (id, p)) as [pg|] eqn:Hpg.
  - eauto.
  - cbn [pages]. rewrite lookup_insert_eq. eauto.
Qed.

Lemma atomicAppend_effect cfg id timestamp value σ s :
  summaries σ !! id = Some s →
  let p := s_currentPage s in
  let n := Z.of_nat (length (page_values σ id p)) in
  let full := JS.ge (n + 1) (maxElementPerPage cfg) in
  ∃ σ',
    run (atomicAppend cfg timestamp id value) σ
    = (Fulfilled {| pos_page_id := p; pos_sequence_id := n |}, σ')
    ∧ observe_currentPage σ' id = Some (if full then p + 1 else p)
    ∧ (∀ id', id' ≠ id → summaries σ' !! id' = summaries σ !! id')
    ∧ page_values σ' id p = page_values σ id p ++ [value]
    ∧ (∀ id' q, (id', q) ≠ (id, p) → page_values σ' id' q = page_values σ id' q)
    ∧ (∀ id' q, (id', q) ≠ (id, p) → (id', q) ≠ (id, p + 1) →
         pages σ' !! (id', q) = pages σ !! (id', q))
    ∧ is_Some (pages σ' !! (id, p))
    ∧ (full = true → p + 1 ≠ 0 → is_Some (pages σ' !! (id, p + 1)))
    ∧ (full = false → pages σ' !! (id, p + 1) = pages σ !! (id, p + 1)).
Proof.
  intros Hs p n full. unfold atomicAppend.
  rewrite run_bind, run_getCurrentPage, Hs. fold p.
  rewrite run_atomicAppendImpl.
  destruct (createNewPage_present id p timestamp σ) as (pg1 & Hpg1 & Hdata1).
  pose proof (summaries_createNewPage id p timestamp σ) as Hsum1.
  pose proof (page_values_createNewPage id p timestamp σ) as Hval1.
  assert (Hpages1 : ∀ key, key ≠ (id, p) →
            pages (run (createNewPage id p timestamp) σ).2 !! key = pages σ !! key).
  { intros key Hkey. rewrite run_createNewPage. cbn [snd].
    destruct (pages σ !! (id, p)); [done|]. cbn [pages].
    by rewrite lookup_insert_ne. }
  set (σ1 := (run (createNewPage id p timestamp) σ).2) in *.
  rewrite run_bind, run_appendDataToPage, Hpg1, run_afterAppend.
  set (pg2 := {| p_v := p_v pg1; p_id := p_id pg1;
                 p_submittedAt := p_submittedAt pg1;
                 data_list := data_list pg1 ++ [value] |}).
  assert (Hn : Z.of_nat (length (data_list pg1 ++ [value])) = n + 1).
  { rewrite length_app, Hdata1. simpl. lia. }
  rewrite Hn. replace (n + 1 - 1) with n by lia.
  eexists. split; [reflexivity|]. fold full.
  set (σ2 := {| summaries := summaries σ1;
                pages := <[(id, p) := pg2]> (pages σ1) |}).
  assert (Hσ2 : ∀ id' q, page_values σ2 id' q
                 = if decide ((id', q) = (id, p))
                   then page_values σ id p ++ [value]
                   else page_values σ id' q).
  { intros id' q. unfold σ2. rewrite page_values_insert.
    destruct (decide _); [by simpl; rewrite Hdata1 | apply Hval1]. }
  assert (Hp2 : pages σ2 !! (id, p) = Some pg2).
  { unfold σ2. cbn [pages]. by rewrite lookup_insert_eq. }
  assert (Hother2 : ∀ key, key ≠ (id, p) → pages σ2 !! key = pages σ !! key).
  { intros key Hkey. unfold σ2. cbn [pages].
    rewrite lookup_insert_ne by done. by apply Hpages1. }
  assert (Hnext : (id, p + 1) ≠ (id, p)) by (intros [= ?]; lia).
  destruct full.
  - assert (Hsum2 : summaries σ2 = summaries σ) by done.
    rewrite run_increasePageCounter, Hsum2, Hs. fold p. rewrite Z.eqb_refl.
    set (σ3 := {| summaries := _; pages := pages σ2 |}).
    assert (Hσ3 : ∀ id' q, page_values σ3 id' q = page_values σ2 id' q) by done.
    assert (Ht : truthy (VNum (Num (p + 1))) && (p <? p + 1)
                 = negb (p + 1 =? 0)).
    { simpl. destruct (Z.ltb_spec p (p + 1)); [by rewrite andb_true_r | lia]. }
    rewrite Ht. destruct (Z.eqb_spec (p + 1) 0) as [Hz|Hnz]; cbn [negb].
    + split_and!.
      * unfold observe_currentPage, σ3. cbn [summaries].
        by rewrite lookup_insert_eq.
      * intros id' Hid'. unfold σ3. cbn [summaries].
        by rewrite lookup_insert_ne.
      * rewrite Hσ3, Hσ2. by rewrite decide_True.
      * intros id' q Hq. rewrite Hσ3, Hσ2. by rewrite decide_False.
      * intros id' q Hq Hq'. by apply Hother2.
      * by exists pg2.
      * done.
      * done.
    + destruct (createNewPage_present id (p + 1) timestamp σ3)
        as (pg4 & Hpg4 & _).
      assert (Hpages4 : ∀ key, key ≠ (id, p + 1) →
                pages (run (createNewPage id (p + 1) timestamp) σ3).2 !! key
                = pages σ2 !! key).
      { intros key Hkey. rewrite run_createNewPage. cbn [snd].
        destruct (pages σ3 !! (id, p + 1)); [done|]. cbn [pages].
        by rewrite lookup_insert_ne. }
      split_and!.
      * unfold observe_currentPage. rewrite summaries_createNewPage.
        unfold σ3. cbn [summaries]. by rewrite lookup_insert_eq.
      * intros id' Hid'. rewrite summaries_createNewPage. unfold σ3.
        cbn [summaries]. by rewrite lookup_insert_ne.
      * rewrite page_values_createNewPage, Hσ3, Hσ2. by rewrite decide_True.
      * intros id' q Hq.
        rewrite page_values_createNewPage, Hσ3, Hσ2. by rewrite decide_False.
      * intros id' q Hq Hq'. rewrite Hpages4 by done. by apply Hother2.
      * exists pg2. rewrite Hpages4 by done. done.
      * intros _ _. by exists pg4.
      * done.
  - split_and!.
    + unfold observe_currentPage, σ2. cbn [summaries]. by rewrite Hsum1, Hs.
    + intros id' _. unfold σ2. cbn [summaries]. by rewrite Hsum1.
    + rewrite Hσ2. by rewrite decide_True.
    + intros id' q Hq. rewrite Hσ2. by rewrite decide_False.
    + intros id' q Hq Hq'. by apply Hother2.
    + by exists pg2.
    + done.
    + intros _. by apply Hother2.
Qed.

(** ** A list filled by one caller *)

Lemma chunk_snoc (m j : nat) (vs : list payload) (v : payload) :
  take m (drop j (vs ++ [v]))
  = if decide (j ≤ length vs < j + m)%nat
    then take m (drop j vs) ++ [v]
    else take m (drop j vs).
Proof.
  destruct (decide (j ≤ length vs)%nat) as [Hle|Hgt].
  - rewrite drop_app_le by done.
    destruct (decide _) as [Hin|Hout].
    + rewrite take_ge by (rewrite length_app, length_drop; simpl; lia).
      by rewrite (take_ge (drop j vs)) by (rewrite length_drop; lia).
    + by rewrite take_app_le by (rewrite length_drop; lia).
  - rewrite decide_False by lia.
    rewrite !drop_ge; [done | lia | rewrite length_app; simpl; lia].
Qed.

Lemma append_all_snoc cfg id σ l a :
  append_all cfg id σ (l ++ [a])
  = (run (atomicAppend cfg a.1 id a.2) (append_all cfg id σ l)).2.
Proof. unfold append_all. by rewrite foldl_app. Qed.

Lemma append_all_sequential cfg id σ metadata timestamp l :
  fresh σ id →
  sequential cfg id
    (append_all cfg id (run (idempotentCreate id metadata timestamp) σ).2 l).
Proof.
  intros Hfresh. induction l as [|a l IH] using rev_ind.
  - by constructor.
  - rewrite append_all_snoc. by constructor.
Qed.

(** After [k] appends: the counter is [k / M], page [p] holds the
    appends number [p * M] to [p * M + M - 1], and the pages that exist
    are 0 to [k / M], once something was appended. *)
Lemma append_all_pages cfg M id σ metadata timestamp l :
  maxElementPerPage cfg = VNum (Num M) →
  1 ≤ M →
  fresh σ id →
  let σ' := append_all cfg id (run (idempotentCreate id metadata timestamp) σ).2 l in
  let k := Z.of_nat (length l) in
  observe_currentPage σ' id = Some (k / M)
  ∧ (∀ p, 0 ≤ p →
       page_values σ' id p
       = take (Z.to_nat M) (drop (Z.to_nat (p * M)) l.*2))
  ∧ (∀ p, is_Some (pages σ' !! (id, p)) ↔ 0 ≤ p ≤ k / M ∧ 1 ≤ k).
Proof.
  intros Hcfg HM [Hsum Hpages]. induction l as [|a l IH] using rev_ind.
  - cbn zeta. unfold append_all. cbn [foldl length].
    rewrite run_idempotentCreate, Hsum. cbn [snd].
    unfold observe_currentPage, page_values. cbn [summaries pages].
    rewrite lookup_insert_eq. split_and!.
    + done.
    + intros p _. rewrite Hpages. cbn [fmap list_fmap]. by rewrite drop_nil, take_nil.
    + intros p. rewrite Hpages. split; [by intros [? [=]] | simpl; lia].
  - cbn zeta in *. rewrite append_all_snoc.
    set (σ1 := append_all cfg id _ l) in *.
    destruct IH as (Hcp & Hvalues & Hexist).
    unfold observe_currentPage in Hcp.
    destruct (summaries σ1 !! id) as [s|] eqn:Hs; [|done].
    injection Hcp as Hcp.
    destruct (atomicAppend_effect cfg id a.1 a.2 σ1 s Hs)
      as (σ2 & -> & Hcp2 & _ & Hhere & Hothers & Hkeep & Hex & Hexnext & Hnonext).
    unfold JS.ge in Hcp2, Hexnext, Hnonext.
    rewrite Hcfg in Hcp2, Hexnext, Hnonext.
    cbn [ToNumber snd] in *. rewrite Hcp in *.
    set (k := Z.of_nat (length l)) in *.
    rewrite length_app, Nat2Z.inj_add. change (Z.of_nat (length [a])) with 1.
    fold k. rewrite fmap_app. change ([a].*2) with [a.2].
    pose proof (Z.div_mod k M ltac:(lia)) as Hdiv.
    pose proof (Z.mod_pos_bound k M ltac:(lia)) as Hmod.
    assert (Hk : 0 ≤ k) by lia.
    assert (Hq0 : 0 ≤ k / M) by (apply Z.div_pos; lia).
    assert (Hqk : k / M ≤ k) by nia.
    assert (Hlen : Z.of_nat (length (page_values σ1 id (k / M))) = k mod M).
    { rewrite Hvalues by done. rewrite length_take, length_drop, length_fmap.
      fold k. nia. }
    rewrite Hlen in *.
    assert (Hnext : (k + 1) / M = if M <=? k mod M + 1 then k / M + 1 else k / M).
    { destruct (Z.leb_spec M (k mod M + 1)).
      - symmetry. apply (Z.div_unique _ _ _ 0); nia.
      - symmetry. apply (Z.div_unique _ _ _ (k mod M + 1)); nia. }
    split_and!.
    + by rewrite Hcp2, Hnext.
    + intros p Hp. rewrite chunk_snoc, length_fmap.
      destruct (decide (p = k / M)) as [->|Hne].
      * rewrite Hhere, Hvalues by done. rewrite decide_True; [done|]. nia.
      * rewrite Hothers by congruence. rewrite Hvalues by done.
        rewrite decide_False; [done|]. fold k. nia.
    + intros p. rewrite Hnext.
      destruct (decide (p = k / M)) as [->|Hne].
      { split; [intros _ | done]. destruct (M <=? _); lia. }
      destruct (decide (p = k / M + 1)) as [->|Hne'].
      { destruct (Z.leb_spec M (k mod M + 1)).
        - split; [lia|]. intros _. apply Hexnext; [done | lia].
        - rewrite Hnonext by done. rewrite Hexist. lia. }
      rewrite Hkeep by congruence. rewrite Hexist.
      destruct (M <=? _); lia.
Qed.

Lemma page_items_values σ id p :
  page_items σ id p
  = imap (λ i v, {| item_val := v;
                    page_id := num_to_string (Num p);
                    sequence_id := num_to_string (Num (Z.of_nat i));
                    resource_id_parent := id |})
         (page_values σ id p).
Proof. unfold page_items, page_values. by destruct (pages σ !! (id, p)). Qed.

(** The elements of page [p] of a list filled [M] per page. *)
Lemma expected_items_page M id (vs : list payload) p :
  1 ≤ M → 0 ≤ p →
  imap (λ i v, {| item_val := v;
                  page_id := num_to_string (Num p);
                  sequence_id := num_to_string (Num (Z.of_nat i));
                  resource_id_parent := id |})
       (take (Z.to_nat M) (drop (Z.to_nat (p * M)) vs))
  = take (Z.to_nat M) (drop (Z.to_nat (p * M)) (expected_items M id vs)).
Proof.
  intros HM Hp. apply list_eq. intros i. unfold expected_items.
  rewrite list_lookup_imap.
  destruct (decide (i < Z.to_nat M)%nat) as [Hi|Hi].
  - rewrite !lookup_take_lt, !lookup_drop, list_lookup_imap by done.
    destruct (vs !! (Z.to_nat (p * M) + i)%nat) as [v|]; [|done].
    cbn [fmap option_fmap option_map].
    replace (Z.of_nat (Z.to_nat (p * M) + i)) with (p * M + Z.of_nat i) by nia.
    replace ((p * M + Z.of_nat i) / M) with p
      by (apply (Z.div_unique _ _ _ (Z.of_nat i)); lia).
    replace ((p * M + Z.of_nat i) mod M) with (Z.of_nat i)
      by (apply (Z.mod_unique _ _ p); lia).
    done.
  - by rewrite !lookup_take_ge by lia.
Qed.

Lemma pages_below_expected M id σ (vs : list payload) n :
  1 ≤ M →
  (∀ p, 0 ≤ p →
     page_values σ id p = take (Z.to_nat M) (drop (Z.to_nat (p * M)) vs)) →
  reverse (pages_below σ id n)
  = take (Z.to_nat (Z.of_nat n * M)) (expected_items M id vs).
Proof.
  intros HM Hvalues. induction n as [|n IH].
  - done.
  - cbn [pages_below]. rewrite reverse_app, reverse_involutive, IH.
    rewrite page_items_values, Hvalues by lia.
    rewrite expected_items_page by lia.
    rewrite take_take_drop. f_equal. nia.
Qed.

Lemma filled_walk_items M id σ (vs : list payload) c :
  1 ≤ M → 0 ≤ c →
  (∀ p, 0 ≤ p →
     page_values σ id p = take (Z.to_nat M) (drop (Z.to_nat (p * M)) vs)) →
  Z.of_nat (length vs) < (c + 1) * M →
  walk_items σ id c None = reverse (expected_items M id vs).
Proof.
  intros HM Hc Hvalues Hlen. unfold walk_items.
  destruct (Z.ltb_spec c 0); [lia|]. cbn [cutAboveSequence].
  rewrite <- (Z2Nat.id c) at 1 by done.
  change (reverse _ ++ _) with (pages_below σ id (S (Z.to_nat c))).
  rewrite <- (reverse_involutive (pages_below _ _ _)).
  rewrite (pages_below_expected M id σ vs) by done.
  rewrite take_ge; [done|].
  unfold expected_items. rewrite length_imap. nia.
Qed.

(** A single caller creates a list and appends [k] values under a
    configuration whose [maxElementPerPage] is a number [M >= 1].  Then
    the next append lands on page [k / M] at sequence [k mod M] and
    moves the counter to [(k + 1) / M]; before it, the counter is
    [k / M] and page [p] holds the appends number [p * M] to
    [p * M + M - 1], in the order of the calls. *)
Theorem sequential_fill (cfg : config) (M : Z) (id : string) (σ : store)
    (metadata : option string) (timestamp0 : Z)
    (appends : list (Z * payload)) (timestamp : Z) (value : payload) :
  maxElementPerPage cfg = VNum (Num M) →
  1 ≤ M →
  fresh σ id →
  let σ' :=
    append_all cfg id (run (idempotentCreate id metadata timestamp0) σ).2
      appends in
  let k := Z.of_nat (length appends) in
  observe_currentPage σ' id = Some (k / M)
  ∧ (∀ p, 0 ≤ p →
       page_values σ' id p
       = take (Z.to_nat M) (drop (Z.to_nat (p * M)) appends.*2))
  ∧ (run (atomicAppend cfg timestamp id value) σ').1
    = Fulfilled {| pos_page_id := k / M; pos_sequence_id := k mod M |}
  ∧ observe_currentPage (run (atomicAppend cfg timestamp id value) σ').2 id
    = Some ((k + 1) / M).
Proof.
  intros Hcfg HM Hfresh σ' k.
  destruct (append_all_pages cfg M id σ metadata timestamp0 appends
              Hcfg HM Hfresh) as (Hcp & Hvalues & _).
  fold σ' k in Hcp, Hvalues.
  destruct (append_all_pages cfg M id σ metadata timestamp0
              (appends ++ [(timestamp, value)]) Hcfg HM Hfresh) as (Hcp' & _).
  rewrite append_all_snoc in Hcp'. cbn [fst snd] in Hcp'. fold σ' in Hcp'.
  rewrite length_app, Nat2Z.inj_add in Hcp'.
  change (Z.of_nat (length [(timestamp, value)])) with 1 in Hcp'. fold k in Hcp'.
  split_and!; [done | done | | done].
  unfold observe_currentPage in Hcp.
  destruct (summaries σ' !! id) as [s|] eqn:Hs; [|done].
  injection Hcp as Hcp.
  destruct (atomicAppend_effect cfg id timestamp value σ' s Hs)
    as (σ2 & -> & _).
  cbn [fst]. rewrite Hcp. do 2 f_equal.
  assert (0 ≤ k / M) by (apply Z.div_pos; lia).
  rewrite Hvalues by done.
  rewrite length_take, length_drop, length_fmap. fold k.
  pose proof (Z.div_mod k M ltac:(lia)).
  pose proof (Z.mod_pos_bound k M ltac:(lia)). nia.
Qed.

Lemma sequential_fill_witness :
  let σ' :=
    append_all cfg_two "L" (run (idempotentCreate "L" None 0) empty_store).2
      [(1, "a"); (2, "b"); (3, "c")] in
  fresh empty_store "L"
  ∧ observe_currentPage σ' "L" = Some 1
  ∧ page_values σ' "L" 0 = ["a"; "b"]
  ∧ page_values σ' "L" 1 = ["c"]
  ∧ (run (atomicAppend cfg_two 4 "L" "d") σ').1
    = Fulfilled {| pos_page_id := 1; pos_sequence_id := 1 |}
  ∧ observe_currentPage (run (atomicAppend cfg_two 4 "L" "d") σ').2 "L"
    = Some 2.
Proof.
  assert (Hfresh : fresh empty_store "L") by (split; intros; apply lookup_empty).
  pose proof (sequential_fill cfg_two 2 "L" empty_store None 0
                [(1, "a"); (2, "b"); (3, "c")] 4 "d" eq_refl ltac:(lia) Hfresh)
    as (H1 & H2 & H3 & H4).
  split_and!; [exact Hfresh | exact H1 | exact (H2 0 ltac:(lia))
              | exact (H2 1 ltac:(lia)) | exact H3 | exact H4].
Defined.

(** On a list that a single caller created and filled,
    [retrieveLastMostRecent] with a count [N >= 0]
    returns the [N] last values appended, the most recent first, each
    with the page [i / M] and the sequence [i mod M] of its rank [i]
    among the appends, as strings, and the identifier of the list. *)
Theorem sequential_retrieval (cfg : config) (M : Z) (id : string) (σ : store)
    (metadata : option string) (timestamp0 : Z)
    (appends : list (Z * payload)) (N : Z) :
  maxElementPerPage cfg = VNum (Num M) →
  1 ≤ M →
  fresh σ id →
  0 ≤ N →
  let σ' :=
    append_all cfg id (run (idempotentCreate id metadata timestamp0) σ).2
      appends in
  run (retrieveLastMostRecent id N) σ'
  = (Fulfilled
       (take (Z.to_nat N) (reverse (expected_items M id appends.*2))), σ').
Proof.
  intros Hcfg HM Hfresh HN σ'.
  destruct (append_all_pages cfg M id σ metadata timestamp0 appends
              Hcfg HM Hfresh) as (Hcp & Hvalues & _).
  fold σ' in Hcp, Hvalues.
  unfold observe_currentPage in Hcp.
  destruct (summaries σ' !! id) as [s|] eqn:Hs; [|done].
  injection Hcp as Hcp.
  unfold retrieveLastMostRecent.
  rewrite run_bind, run_getCurrentPage, Hs, run_retrieveNElement by done.
  rewrite Hcp.
  set (k := Z.of_nat (length appends)) in *.
  assert (0 ≤ k / M) by (apply Z.div_pos; lia).
  pose proof (Z.div_mod k M ltac:(lia)).
  pose proof (Z.mod_pos_bound k M ltac:(lia)).
  rewrite (filled_walk_items M id σ' appends.*2); [done..|].
  rewrite length_fmap. fold k. nia.
Qed.

Lemma sequential_retrieval_witness :
  let σ' :=
    append_all cfg_two "L" (run (idempotentCreate "L" None 0) empty_store).2
      [(1, "a"); (2, "b"); (3, "c")] in
  run (retrieveLastMostRecent "L" 2) σ'
  = (Fulfilled
       [ {| item_val := "c"; page_id := "1"; sequence_id := "0";
            resource_id_parent := "L" |};
         {| item_val := "b"; page_id := "0"; sequence_id := "1";
            resource_id_parent := "L" |} ], σ').
Proof.
  assert (Hfresh : fresh empty_store "L") by (split; intros; apply lookup_empty).
  exact (sequential_retrieval cfg_two 2 "L" empty_store None 0
           [(1, "a"); (2, "b"); (3, "c")] 2 eq_refl ltac:(lia) Hfresh
           ltac:(lia)).
Defined.

Lemma pages_below_filled M id σ (vs : list payload) n :
  1 ≤ M →
  (∀ p, 0 ≤ p →
     page_values σ id p = take (Z.to_nat M) (drop (Z.to_nat (p * M)) vs)) →
  pages_below σ id n
  = reverse (take (Z.to_nat (Z.of_nat n * M)) (expected_items M id vs)).
Proof.
  intros HM Hvalues.
  rewrite <- (pages_below_expected M id σ vs) by done.
  by rewrite reverse_involutive.
Qed.

(** On a list that a single caller created and filled, the cursor built
    from the element of rank [i >= 1] among the appends makes
    [retrieveNextMostRecent] return, for a count [N >= 0], the [N]
    elements appended just before it, the most recent first: the
    pagination loses and repeats nothing.  (The cursor of rank 0, the
    head of the list, is read as no cut and gives page 0 again.) *)
Theorem sequential_pagination (cfg : config) (M : Z) (id : string) (σ : store)
    (metadata : option string) (timestamp0 : Z)
    (appends : list (Z * payload)) (i : nat) (it : item) (N : Z) :
  maxElementPerPage cfg = VNum (Num M) →
  1 ≤ M →
  fresh σ id →
  0 ≤ N →
  (1 ≤ i)%nat →
  expected_items M id appends.*2 !! i = Some it →
  let σ' :=
    append_all cfg id (run (idempotentCreate id metadata timestamp0) σ).2
      appends in
  run (retrieveNextMostRecent id (Some (cursor_of it)) N) σ'
  = (Fulfilled
       (take (Z.to_nat N)
          (reverse (take i (expected_items M id appends.*2)))), σ').
Proof.
  intros Hcfg HM Hfresh HN Hi Hit σ'.
  destruct (append_all_pages cfg M id σ metadata timestamp0 appends
              Hcfg HM Hfresh) as (_ & Hvalues & _).
  fold σ' in Hvalues.
  set (E := expected_items M id appends.*2) in *.
  unfold E, expected_items in Hit. rewrite list_lookup_imap in Hit.
  destruct (appends.*2 !! i) as [v|] eqn:Hv; [|done].
  injection Hit as <-.
  set (p := Z.of_nat i / M). set (s := Z.of_nat i mod M).
  pose proof (Z.div_mod (Z.of_nat i) M ltac:(lia)) as Hdiv.
  pose proof (Z.mod_pos_bound (Z.of_nat i) M ltac:(lia)) as Hmod.
  fold p s in Hdiv, Hmod.
  assert (Hp : 0 ≤ p) by (apply Z.div_pos; lia).
  rewrite (cursor_of_accepted id _ p s) by done.
  rewrite (getValidPointer_integers _ p s)
    by (unfold cursor_of, parseInt, ToString;
        cbn [cur_page_id cur_sequence_id page_id sequence_id];
        apply parseInt_num_to_string).
  destruct (Z.leb_spec s 0) as [Hzero|Hmore].
  - assert (1 ≤ p) by nia.
    destruct (Z.ltb_spec (p - 1) 0); [lia|].
    cbn [ptr_page_id ptr_sequence_id].
    rewrite run_retrieveNElement, walk_items_below by lia.
    rewrite (pages_below_filled M id σ' appends.*2) by done.
    rewrite Z2Nat.id by lia. replace (p * M) with (Z.of_nat i) by lia.
    by rewrite Nat2Z.id.
  - destruct (Z.ltb_spec p 0); [lia|]. cbn [ptr_page_id ptr_sequence_id].
    rewrite run_retrieveNElement by lia. do 3 f_equal.
    unfold walk_items. destruct (Z.ltb_spec p 0); [lia|].
    rewrite cutAboveSequence_positive by lia.
    rewrite (pages_below_filled M id σ' appends.*2) by done.
    rewrite page_items_values, Hvalues, expected_items_page by lia.
    fold E. rewrite Z2Nat.id, take_take, <- reverse_app by lia.
    rewrite take_take_drop. do 2 f_equal. lia.
Qed.

Lemma sequential_pagination_witness :
  let σ' :=
    append_all cfg_two "L" (run (idempotentCreate "L" None 0) empty_store).2
      [(1, "a"); (2, "b"); (3, "c"); (4, "d")] in
  run (retrieveNextMostRecent "L"
         (Some {| cur_page_id := VStr "1"; cur_sequence_id := VStr "1" |}) 2) σ'
  = (Fulfilled
       [ {| item_val := "c"; page_id := "1"; sequence_id := "0";
            resource_id_parent := "L" |};
         {| item_val := "b"; page_id := "0"; sequence_id := "1";
            resource_id_parent := "L" |} ], σ').
Proof.
  assert (Hfresh : fresh empty_store "L") by (split; intros; apply lookup_empty).
  exact (sequential_pagination cfg_two 2 "L" empty_store None 0
           [(1, "a"); (2, "b"); (3, "c"); (4, "d")] 3
           {| item_val := "d"; page_id := "1"; sequence_id := "1";
              resource_id_parent := "L" |} 2
           eq_refl ltac:(lia) Hfresh ltac:(lia) ltac:(lia) eq_refl).
Defined.

(** ** Reading one page *)

Lemma summary_label_test pageId :
  "_" +:+ page_name_to_string pageId = label_summary ↔ pageId = PublicSummary.
Proof.
  split; [|by intros ->]. destruct pageId as [[z|]|]; [| |done]; intros H.
  - change (String "_" (num_to_string (Num z)) = String "_" "summary") in H.
    injection H as H.
    pose proof (parseInt_num_to_string z) as Hparse.
    rewrite H in Hparse. discriminate.
  - discriminate.
Qed.

Lemma run_retrieve_page id pageId σ :
  run (retrieve id (PageNumber pageId)) σ
  = (Fulfilled
       {| r_page_id := num_to_string pageId;
          r_data :=
            ListData (match lookup_page σ id pageId with
                      | Some pg => indexDataList (Some (data_list pg)) pageId id
                      | None => None
                      end) |}, σ).
Proof. unfold retrieve. by rewrite run_bind, run_retrieveDataList. Qed.

Lemma run_retrieve_summary id σ :
  run (retrieve id PublicSummary) σ
  = (Fulfilled {| r_page_id := "summary";
                  r_data := SummaryData (summaries σ !! id) |}, σ).
Proof. done. Qed.

(** On a list that a single caller created and filled with [k] values,
    [retrieve] on page [p] resolves to the
    elements of rank [p * M] to [p * M + M - 1], in the order of the
    appends, each with its page and sequence, when [0 <= p <= k / M] and
    something was appended; to [undefined], without an error, for every
    other page number.  On the label [summary] it resolves to the
    summary item, whose counter is [k / M]. *)
Theorem sequential_retrieve (cfg : config) (M : Z) (id : string) (σ : store)
    (metadata : option string) (timestamp0 : Z)
    (appends : list (Z * payload)) (p : Z) :
  maxElementPerPage cfg = VNum (Num M) →
  1 ≤ M →
  fresh σ id →
  let σ' :=
    append_all cfg id (run (idempotentCreate id metadata timestamp0) σ).2
      appends in
  let k := Z.of_nat (length appends) in
  run (retrieve id (PageNumber (Num p))) σ'
  = (Fulfilled
       {| r_page_id := num_to_string (Num p);
          r_data :=
            ListData
              (if (0 <=? p) && (p <=? k / M) && (1 <=? k)
               then Some (take (Z.to_nat M)
                            (drop (Z.to_nat (p * M))
                               (expected_items M id appends.*2)))
               else None) |}, σ')
  ∧ ∃ s,
      run (retrieve id PublicSummary) σ'
      = (Fulfilled {| r_page_id := "summary";
                      r_data := SummaryData (Some s) |}, σ')
      ∧ s_currentPage s = k / M.
Proof.
  intros Hcfg HM Hfresh σ' k.
  destruct (append_all_pages cfg M id σ metadata timestamp0 appends
              Hcfg HM Hfresh) as (Hcp & Hvalues & Hexist).
  fold σ' k in Hcp, Hvalues, Hexist.
  split.
  - rewrite run_retrieve_page. do 3 f_equal. cbn [lookup_page].
    specialize (Hexist p). specialize (Hvalues p). unfold page_values in Hvalues.
    destruct (pages σ' !! (id, p)) as [pg|].
    + assert (Hin : 0 ≤ p ≤ k / M ∧ 1 ≤ k) by (apply Hexist; eauto).
      destruct (Z.leb_spec 0 p); [|lia].
      destruct (Z.leb_spec p (k / M)); [|lia].
      destruct (Z.leb_spec 1 k); [|lia].
      cbn [andb indexDataList].
      rewrite Hvalues by lia. by rewrite expected_items_page.
    + destruct (Z.leb_spec 0 p); [|done].
      destruct (Z.leb_spec p (k / M)); [|done].
      destruct (Z.leb_spec 1 k); [|done].
      destruct Hexist as [_ Hexist]. by destruct Hexist.
  - unfold observe_currentPage in Hcp.
    destruct (summaries σ' !! id) as [s|] eqn:Hs; [|done].
    exists s. rewrite run_retrieve_summary, Hs. split; [done|].
    by injection Hcp.
Qed.

Lemma sequential_retrieve_witness :
  let σ' :=
    append_all cfg_two "L" (run (idempotentCreate "L" None 0) empty_store).2
      [(1, "a"); (2, "b"); (3, "c")] in
  run (retrieve "L" (PageNumber (Num 1))) σ'
  = (Fulfilled
       {| r_page_id := "1";
          r_data :=
            ListData
              (Some [ {| item_val := "c"; page_id := "1"; sequence_id := "0";
                         resource_id_parent := "L" |} ]) |}, σ').
Proof.
  assert (Hfresh : fresh empty_store "L") by (split; intros; apply lookup_empty).
  exact (proj1 (sequential_retrieve cfg_two 2 "L" empty_store None 0
                  [(1, "a"); (2, "b"); (3, "c")] 1
                  eq_refl ltac:(lia) Hfresh)).
Defined.

(** ** One call, on any store *)



(** A list that was never created: reading its counter, appending to it
    and retrieving from it fail with the [TypeError] of
    [data.currentPage] read on [undefined] (in [retrieveLastMostRecent]
    the rejection stays in the promise chain and the callback is not
    called), and nothing is written; the two functions that read an item
    as it is, [getPage] and [retrieve] on the label [summary], resolve
    to [undefined] instead. *)
Theorem missing_list (cfg : config) (id : string) (timestamp : Z)
    (value : payload) (n : Z) (σ : store) :
  summaries σ !! id = None →
  run (getCurrentPage id) σ = (Failed TypeError, σ)
  ∧ run (atomicAppend cfg timestamp id value) σ = (Failed TypeError, σ)
  ∧ run (retrieveLastMostRecent id n) σ = (Failed TypeError, σ)
  ∧ run (getPage id SuffixSummary) σ = (Fulfilled None, σ)
  ∧ run (retrieve id PublicSummary) σ
    = (Fulfilled {| r_page_id := "summary"; r_data := SummaryData None |}, σ).
Proof.
  intros Hs. unfold atomicAppend, retrieveLastMostRecent.
  rewrite !run_bind, run_getCurrentPage, run_retrieve_summary, Hs.
  split_and!; try done.
  unfold getPage, getPageData. rewrite run_bind. simpl. by rewrite Hs.
Qed.

Lemma missing_list_witness :
  run (getCurrentPage "M") (example_list ["Hello0"])
  = (Failed TypeError, example_list ["Hello0"])
  ∧ run (atomicAppend cfg_two 0 "M" "x") (example_list ["Hello0"])
    = (Failed TypeError, example_list ["Hello0"]).
Proof.
  pose proof (missing_list cfg_two "M" 0 "x" 1 (example_list ["Hello0"])
                eq_refl) as (H1 & H2 & _).
  split; [exact H1 | exact H2].
Defined.

(** What [idempotentCreate] resolves to on a list that does not exist is
    the item that [getPage] then finds under the summary key: version 1,
    the id [id + '_summary'], the caller's metadata, the clock's reading
    and the counter 0, which [getCurrentPage] returns.  No page is
    created with it: [getPage] on a page key finds what it found
    before. *)
Theorem create_then_getPage (id : string) (metadata : option string)
    (timestamp : Z) (σ : store) :
  summaries σ !! id = None →
  let created := defaultPageSummary id metadata timestamp in
  let σ' := (run (idempotentCreate id metadata timestamp) σ).2 in
  (run (idempotentCreate id metadata timestamp) σ).1 = Fulfilled created
  ∧ run (getPage id SuffixSummary) σ' = (Fulfilled (Some (SummaryItem created)), σ')
  ∧ run (getCurrentPage id) σ' = (Fulfilled 0, σ')
  ∧ (∀ id' pageId,
       (run (getPage id' (SuffixPage pageId)) σ').1
       = (run (getPage id' (SuffixPage pageId)) σ).1).
Proof.
  intros Hs created σ'. subst σ'.
  rewrite run_idempotentCreate, Hs. cbn [fst snd].
  rewrite run_getCurrentPage. unfold getPage, getPageData.
  rewrite run_bind. cbn [summaries]. simpl. rewrite lookup_insert_eq.
  by split_and!.
Qed.

Lemma create_then_getPage_witness :
  let σ' := (run (idempotentCreate "L" (Some "m") 5) empty_store).2 in
  run (getPage "L" SuffixSummary) σ'
  = (Fulfilled
       (Some (SummaryItem {| s_v := 1; s_id := "L_summary";
                            s_metadata := Some "m"; s_submittedAt := 5;
                            s_currentPage := 0 |})), σ').
Proof.
  exact (proj1 (proj2 (create_then_getPage "L" (Some "m") 5 empty_store
                         eq_refl))).
Defined.

(** ** Interleaved callers: the pages *)

Lemma pages_grow_refl σ : pages_grow σ σ.
Proof. intros key pg Hpg. by exists pg. Qed.

Lemma pages_grow_trans σ1 σ2 σ3 :
  pages_grow σ1 σ2 → pages_grow σ2 σ3 → pages_grow σ1 σ3.
Proof.
  intros H12 H23 key pg Hpg.
  destruct (H12 key pg Hpg) as (pg' & Hpg' & ?).
  destruct (H23 key pg' Hpg') as (pg'' & Hpg'' & ?).
  exists pg''. split; [done | by etrans].
Qed.

Lemma same_pages_grow σ σ' : pages σ' = pages σ → pages_grow σ σ'.
Proof. intros H key pg Hpg. exists pg. by rewrite H. Qed.

(** Whatever the promise, one request removes no page and no value: a
    put creates a page only where there is none, an append adds at the
    end. *)
Lemma request_step_pages_grow {A} (m m' : prog A) σ σ' :
  request_step m σ = Some (m', σ') → pages_grow σ σ'.
Proof.
  destruct m; simpl; try done.
  - intros [= _ <-]. apply pages_grow_refl.
  - intros [= _ <-]. apply pages_grow_refl.
  - unfold store_put_summary. destruct (summaries σ !! id);
      intros [= _ <-]; by apply same_pages_grow.
  - unfold store_put_page.
    destruct (pages σ !! (id, pageId)) as [pg0|] eqn:Hpg0;
      intros [= _ <-]; [apply pages_grow_refl|].
    intros key pg Hpg. exists pg. cbn [pages]. split; [|done].
    rewrite lookup_insert_ne; [done | congruence].
  - unfold store_list_append.
    destruct (pages σ !! (id, pageId)) as [pg0|] eqn:Hpg0;
      intros [= _ <-]; [|apply pages_grow_refl].
    intros key pg Hpg. cbn [pages].
    destruct (decide (key = (id, pageId))) as [->|Hne].
    + rewrite lookup_insert_eq. eexists. split; [done|]. simpl.
      rewrite Hpg0 in Hpg. injection Hpg as <-. by apply prefix_app_r.
    + rewrite lookup_insert_ne by done. by exists pg.
  - unfold store_increment. destruct (summaries σ !! id) as [s|];
      [destruct (s_currentPage s =? floor)|];
      intros [= _ <-]; by apply same_pages_grow.
Qed.

Lemma sched_step_pages_grow st i : pages_grow st.2 (sched_step st i).2.
Proof.
  unfold sched_step. destruct (st.1 !! i) as [m|]; [|apply pages_grow_refl].
  destruct (request_step m st.2) as [[m' σ']|] eqn:Hstep;
    [|apply pages_grow_refl].
  by apply request_step_pages_grow in Hstep.
Qed.

Lemma run_schedule_pages_grow sched st :
  pages_grow st.2 (run_schedule sched st).2.
Proof.
  revert st. induction sched as [|i sched IH]; intros st;
    [apply pages_grow_refl|].
  simpl. eapply pages_grow_trans; [apply sched_step_pages_grow | apply IH].
Qed.

(** Whatever calls of the interface are in flight and however the
    scheduler interleaves their requests, an element that page [p] of a
    list holds at some point of the execution is held by that page at
    the same index at every later point: [retrieve] and the walks hand
    it out with the same value, [page_id] and [sequence_id], so that a
    cursor built from it keeps naming it.  No call removes, moves or
    rewrites an element. *)
Theorem positions_stable (calls : list call) (σ : store)
    (sched1 sched2 : list nat) :
  let st1 := run_schedule sched1 (start <$> calls, σ) in
  let st2 := run_schedule sched2 st1 in
  ∀ id p i it,
    page_items st1.2 id p !! i = Some it →
    page_items st2.2 id p !! i = Some it.
Proof.
  intros st1 st2 id p i it.
  pose proof (run_schedule_pages_grow sched2 st1) as Hgrow. fold st2 in Hgrow.
  rewrite !page_items_values, !list_lookup_imap.
  unfold page_values.
  destruct (pages st1.2 !! (id, p)) as [pg|] eqn:Hpg; [|done].
  destruct (Hgrow _ _ Hpg) as (pg' & -> & Hprefix).
  destruct (data_list pg !! i) as [v|] eqn:Hv; [|done].
  by rewrite (prefix_lookup_Some _ _ _ _ Hv Hprefix).
Qed.

Lemma positions_stable_witness :
  let calls := [CallAtomicAppend cfg_two 1 "L" "a";
                CallAtomicAppend cfg_two 2 "L" "b"] in
  let st1 := run_schedule [0; 1; 0]%nat (start <$> calls, example_list ["Hello0"]) in
  let st2 := run_schedule [1; 0; 1; 0; 1]%nat st1 in
  page_items st1.2 "L" 0 !! 1%nat
  = Some {| item_val := "a"; page_id := "0"; sequence_id := "1";
            resource_id_parent := "L" |}
  ∧ page_items st2.2 "L" 0 !! 1%nat
    = Some {| item_val := "a"; page_id := "0"; sequence_id := "1";
              resource_id_parent := "L" |}.
Proof.
  intros calls st1 st2.
  assert (H1 : page_items st1.2 "L" 0 !! 1%nat
               = Some {| item_val := "a"; page_id := "0"; sequence_id := "1";
                         resource_id_parent := "L" |})
    by (vm_compute; reflexivity).
  split; [exact H1|].
  exact (positions_stable calls (example_list ["Hello0"])
           [0; 1; 0]%nat [1; 0; 1; 0; 1]%nat "L" 0 1%nat _ H1).
Defined.

(** ** Keys *)

Lemma append_cons c a s : String c a +:+ s = String c (a +:+ s).
Proof. done. Qed.

Lemma no_underscore_app a s : no_underscore (a +:+ String "_" s) = false.
Proof.
  induction a as [|c a IH]; [done|].
  rewrite append_cons. cbn [no_underscore]. by rewrite IH, andb_false_r.
Qed.

(** What follows the last underscore of a key, and what precedes it. *)
Lemma key_split_inj a a' s s' :
  no_underscore s = true → no_underscore s' = true →
  a +:+ String "_" s = a' +:+ String "_" s' →
  a = a' ∧ s = s'.
Proof.
  intros Hs Hs'. revert a'.
  induction a as [|c a IH]; intros [|c' a']; rewrite ?append_cons;
    change (EmptyString +:+ ?x) with x; intros Heq.
  - by injection Heq.
  - injection Heq as _ ->. by rewrite no_underscore_app in Hs.
  - injection Heq as _ <-. by rewrite no_underscore_app in Hs'.
  - injection Heq as -> Heq. by destruct (IH a' Heq) as [-> ->].
Qed.

Lemma no_underscore_uint d : no_underscore (NilEmpty.string_of_uint d) = true.
Proof. induction d; simpl; auto. Qed.

Lemma no_underscore_num z : no_underscore (num_to_string (Num z)) = true.
Proof.
  destruct z as [|p|p]; [reflexivity | ..];
    unfold num_to_string, Z.to_int, NilZero.string_of_int,
      NilZero.string_of_uint;
    destruct (Pos.to_uint p); try reflexivity;
    try apply (no_underscore_uint (_ _));
    change (no_underscore (String "-" ?x)) with (no_underscore x);
    apply (no_underscore_uint (_ _)).
Qed.

Lemma keyed_ids_distinct σ : keyed σ → ids_distinct σ.
Proof.
  intros [Hsum Hpage]. split_and!.
  - intros id id' s s' Hs Hs' Heq.
    rewrite (Hsum _ _ Hs), (Hsum _ _ Hs') in Heq.
    by destruct (key_split_inj id id' "summary" "summary" eq_refl eq_refl Heq).
  - intros [id p] [id' p'] pg pg' Hpg Hpg' Heq.
    rewrite (Hpage _ _ _ Hpg), (Hpage _ _ _ Hpg') in Heq.
    destruct (key_split_inj id id' _ _ (no_underscore_num p)
                (no_underscore_num p') Heq) as [-> Hnum].
    by rewrite (num_to_string_inj _ _ Hnum).
  - intros id s [id' p] pg Hs Hpg Heq.
    rewrite (Hsum _ _ Hs), (Hpage _ _ _ Hpg) in Heq.
    destruct (key_split_inj id id' "summary" _ eq_refl
                (no_underscore_num p) Heq) as [_ Hnum].
    pose proof (parseInt_num_to_string p) as Hparse.
    rewrite <- Hnum in Hparse. discriminate.
Qed.

(** ** The list a call works on *)

Lemma on_list_bind {A B} l (m : prog A) (f : A → prog B) :
  on_list l m → (∀ a, on_list l (f a)) → on_list l (bind m f).
Proof. induction m; simpl; intuition auto. Qed.

Lemma on_list_catch {A} l (m : prog A) (h : exn → prog A) :
  on_list l m → (∀ e, on_list l (h e)) → on_list l (catch m h).
Proof. induction m; simpl; intuition auto. Qed.

Lemma on_list_getCurrentPage id : on_list id (getCurrentPage id).
Proof. split; [done|]. intros [[s|]|e]; done. Qed.

Lemma on_list_createNewPage id p timestamp :
  on_list id (createNewPage id p timestamp).
Proof.
  split_and!; [done | done |].
  intros [[]|e]; simpl; [done|]. by destruct (has_code e _).
Qed.

Lemma on_list_afterAppend cfg timestamp id currentPage n :
  on_list id (afterAppend cfg timestamp id currentPage n).
Proof.
  unfold afterAppend. destruct (JS.ge _ _); [|done].
  apply on_list_bind.
  - split; [done|]. intros [s|e]; simpl; [done|]. by destruct (has_code e _).
  - intros [c|]; [|done]. destruct (_ && _); [|done].
    apply on_list_bind; [apply on_list_createNewPage | done].
Qed.

Lemma on_list_atomicAppendImpl_body self cfg timestamp id currentPage value attempt :
  (∀ n, on_list id (self n)) →
  on_list id
    (atomicAppendImpl_body self cfg timestamp id currentPage value attempt).
Proof.
  intros Hself. unfold atomicAppendImpl_body.
  destruct (1 <? attempt)%nat; [done|].
  apply on_list_catch.
  - apply on_list_bind; [|intros n; apply on_list_afterAppend].
    split; [done|]. intros [pg|e]; done.
  - intros e. destruct (has_code e _); [|done].
    apply on_list_bind; [apply on_list_createNewPage | done].
Qed.

Lemma on_list_atomicAppend cfg timestamp id value :
  on_list id (atomicAppend cfg timestamp id value).
Proof.
  apply on_list_bind; [apply on_list_getCurrentPage|].
  intros currentPage. unfold atomicAppendImpl.
  do 3 (apply on_list_atomicAppendImpl_body; intros ?). done.
Qed.

Lemma on_list_retrieveDataList id pageId :
  on_list id (retrieveDataList id pageId).
Proof. split; [done|]. intros [[pg|]|e]; done. Qed.

Lemma on_list_recursivelyRetrieveData fuel id n currentPage fromSequence acc :
  on_list id (recursivelyRetrieveData fuel id n currentPage fromSequence acc).
Proof.
  revert currentPage fromSequence acc.
  induction fuel as [|fuel IH]; intros currentPage fromSequence acc; [done|].
  cbn [recursivelyRetrieveData]. destruct (num_lt0 currentPage); [done|].
  apply on_list_bind; [apply on_list_retrieveDataList|].
  intros l. by destruct (_ <? n).
Qed.

Lemma on_list_retrieveNElement id fromPage fromSequence n :
  on_list id (retrieveNElement id fromPage fromSequence n).
Proof.
  apply on_list_bind; [apply on_list_recursivelyRetrieveData | done].
Qed.

Lemma on_list_start c : on_list (call_list c) (start c).
Proof.
  destruct c as [id metadata timestamp|cfg timestamp id value|id|id n|id c n];
    cbn [call_list]; (apply on_list_bind; [|done]).
  - split_and!; [done | done |]. intros [[]|e]; done.
  - apply on_list_atomicAppend.
  - apply on_list_getCurrentPage.
  - apply on_list_bind; [apply on_list_getCurrentPage|].
    intros p. apply on_list_retrieveNElement.
  - unfold retrieveNextMostRecent. destruct c as [c|]; [|done].
    destruct (_ || _); [done|]. apply on_list_retrieveNElement.
Qed.

(** One request of a promise that works on the list [l]: the items keep
    their keys, and the items of the other lists are not touched. *)
Lemma request_step_on_list {A} l (m m' : prog A) σ σ' :
  on_list l m →
  request_step m σ = Some (m', σ') →
  on_list l m'
  ∧ (keyed σ → keyed σ')
  ∧ (∀ id, id ≠ l →
       summaries σ' !! id = summaries σ !! id
       ∧ ∀ p, pages σ' !! (id, p) = pages σ !! (id, p)).
Proof.
  intros Hm. destruct m; simpl in *; try done.
  - destruct Hm as [-> Hk]. intros [= <- <-]. auto.
  - destruct Hm as [-> Hk]. intros [= <- <-]. auto.
  - destruct Hm as (-> & Hid & Hk). unfold store_put_summary.
    destruct (summaries σ !! l) as [s|] eqn:Hs; intros [= <- <-]; [auto|].
    split_and!; [done | |].
    + intros [Hsum Hpage]. split; cbn [summaries pages]; [|done].
      intros id s. destruct (decide (id = l)) as [->|Hne].
      * rewrite lookup_insert_eq. by intros [= <-].
      * rewrite lookup_insert_ne by done. apply Hsum.
    + intros id Hne. cbn [summaries pages].
      by rewrite lookup_insert_ne by done.
  - destruct Hm as (-> & Hid & Hk). unfold store_put_page.
    destruct (pages σ !! (l, pageId)) as [pg|] eqn:Hpg;
      intros [= <- <-]; [auto|].
    split_and!; [done | |].
    + intros [Hsum Hpage]. split; cbn [summaries pages]; [done|].
      intros id p pg. destruct (decide ((id, p) = (l, pageId))) as [[= -> ->]|Hne].
      * rewrite lookup_insert_eq. by intros [= <-].
      * rewrite lookup_insert_ne by done. apply Hpage.
    + intros id Hne. cbn [summaries pages]. split; [done|]. intros p.
      rewrite lookup_insert_ne; [done | congruence].
  - destruct Hm as [-> Hk]. unfold store_list_append.
    destruct (pages σ !! (l, pageId)) as [pg|] eqn:Hpg;
      intros [= <- <-]; [|auto].
    split_and!; [done | |].
    + intros [Hsum Hpage]. split; cbn [summaries pages]; [done|].
      intros id p pg'. destruct (decide ((id, p) = (l, pageId))) as [[= -> ->]|Hne].
      * rewrite lookup_insert_eq. intros [= <-]. simpl. by apply Hpage.
      * rewrite lookup_insert_ne by done. apply Hpage.
    + intros id Hne. cbn [summaries pages]. split; [done|]. intros p.
      rewrite lookup_insert_ne; [done | congruence].
  - destruct Hm as [-> Hk]. unfold store_increment.
    destruct (summaries σ !! l) as [s|] eqn:Hs; [|intros [= <- <-]; auto].
    destruct (s_currentPage s =? floor); intros [= <- <-]; [|auto].
    split_and!; [done | |].
    + intros [Hsum Hpage]. split; cbn [summaries pages]; [|done].
      intros id s'. destruct (decide (id = l)) as [->|Hne].
      * rewrite lookup_insert_eq. intros [= <-]. simpl. by apply Hsum.
      * rewrite lookup_insert_ne by done. apply Hsum.
    + intros id Hne. cbn [summaries pages].
      by rewrite lookup_insert_ne by done.
Qed.

Lemma run_schedule_keyed sched st :
  Forall (λ m, ∃ l, on_list l m) st.1 → keyed st.2 →
  keyed (run_schedule sched st).2.
Proof.
  revert st. induction sched as [|i sched IH]; intros st Hts Hσ; [done|].
  simpl. apply IH; unfold sched_step;
    destruct (st.1 !! i) as [m|] eqn:Hm; try done;
    destruct (request_step m st.2) as [[m' σ']|] eqn:Hstep; try done;
    destruct (Forall_lookup_1 _ _ _ _ Hts Hm) as [l Hl];
    destruct (request_step_on_list l m m' st.2 σ' Hl Hstep) as (Hl' & Hk & _).
  - apply Forall_insert; [done | by exists l].
  - by apply Hk.
Qed.

Lemma run_schedule_other_lists id sched st :
  Forall (λ m, ∃ l, l ≠ id ∧ on_list l m) st.1 →
  summaries (run_schedule sched st).2 !! id = summaries st.2 !! id
  ∧ ∀ p, pages (run_schedule sched st).2 !! (id, p) = pages st.2 !! (id, p).
Proof.
  revert st. induction sched as [|i sched IH]; intros st Hts; [done|].
  simpl. unfold sched_step.
  destruct (st.1 !! i) as [m|] eqn:Hm; [|by apply IH].
  destruct (request_step m st.2) as [[m' σ']|] eqn:Hstep; [|by apply IH].
  destruct (Forall_lookup_1 _ _ _ _ Hts Hm) as (l & Hne & Hl).
  destruct (request_step_on_list l m m' st.2 σ' Hl Hstep) as (Hl' & _ & Hframe).
  destruct (Hframe id ltac:(done)) as [Hsum Hpages].
  destruct (IH (<[i := m']> st.1, σ')) as [IHsum IHpages].
  { apply Forall_insert; [done | by exists l]. }
  cbn [snd] in *. split; [by rewrite IHsum | intros p; by rewrite IHpages].
Qed.

(** The keys the module builds never collide.  When every item of the
    table carries its key in [id], it still does after the calls of the
    interface ran, however the scheduler interleaved their requests, and
    then no two items carry the same [id]: two summaries are those of
    two lists, two pages differ in their list or their number, and a
    page is never a summary, also when the identifier of a list itself
    holds underscores or ends like a key. *)
Theorem keys_never_collide (calls : list call) (σ : store) (sched : list nat) :
  keyed σ →
  let σ' := (run_schedule sched (start <$> calls, σ)).2 in
  keyed σ' ∧ ids_distinct σ'.
Proof.
  intros Hσ σ'. assert (Hσ' : keyed σ'); [|by auto using keyed_ids_distinct].
  apply run_schedule_keyed; [|done].
  apply Forall_fmap, Forall_forall. intros c _. eexists. apply on_list_start.
Qed.

Lemma keys_never_collide_witness :
  let calls := [CallIdempotentCreate "a" None 0;
                CallIdempotentCreate "a_1" None 0;
                CallAtomicAppend cfg_two 1 "a" "x";
                CallAtomicAppend cfg_two 2 "a_1" "y"] in
  ids_distinct
    (run_schedule [0; 1; 2; 3; 2; 3; 2; 3; 2; 3]%nat
       (start <$> calls, empty_store)).2.
Proof.
  intros calls.
  assert (Hempty : keyed empty_store).
  { split; [intros id s | intros id p pg];
      cbn [empty_store summaries pages]; by rewrite lookup_empty. }
  exact (proj2 (keys_never_collide calls empty_store
                  [0; 1; 2; 3; 2; 3; 2; 3; 2; 3]%nat Hempty)).
Defined.

(** The calls of the interface that work on other lists, however many
    and however interleaved, leave the summary and every page of a list
    as they are. *)
Theorem other_lists_untouched (calls : list call) (σ : store)
    (sched : list nat) (id : string) :
  Forall (λ c, call_list c ≠ id) calls →
  let σ' := (run_schedule sched (start <$> calls, σ)).2 in
  summaries σ' !! id = summaries σ !! id
  ∧ ∀ p, pages σ' !! (id, p) = pages σ !! (id, p).
Proof.
  intros Hcalls σ'.
  apply (run_schedule_other_lists id sched (start <$> calls, σ)).
  apply Forall_fmap. eapply Forall_impl; [done|].
  intros c Hc. exists (call_list c). split; [done | apply on_list_start].
Qed.

Lemma other_lists_untouched_witness :
  let calls := [CallIdempotentCreate "L_1" None 0;
                CallAtomicAppend cfg_two 1 "L_1" "x"] in
  let σ' := (run_schedule [0; 1; 1; 1; 1]%nat
               (start <$> calls, example_list ["Hello0"])).2 in
  summaries σ' !! "L" = summaries (example_list ["Hello0"]) !! "L"
  ∧ ∀ p, pages σ' !! ("L", p) = pages (example_list ["Hello0"]) !! ("L", p).
Proof.
  intros calls.
  apply (other_lists_untouched calls (example_list ["Hello0"])
           [0; 1; 1; 1; 1]%nat "L").
  repeat constructor; discriminate.
Defined.

(** ** Retrieval never writes *)

Lemma reads_only_bind {A B} (m : prog A) (f : A → prog B) :
  reads_only m → (∀ a, reads_only (f a)) → reads_only (bind m f).
Proof. induction m; simpl; intuition auto. Qed.

Lemma reads_only_catch {A} (m : prog A) (h : exn → prog A) :
  reads_only m → (∀ e, reads_only (h e)) → reads_only (catch m h).
Proof. induction m; simpl; intuition auto. Qed.

Lemma reads_only_getCurrentPage id : reads_only (getCurrentPage id).
Proof. intros [[s|]|e]; done. Qed.

Lemma reads_only_retrieveDataList id pageId :
  reads_only (retrieveDataList id pageId).
Proof. intros [[pg|]|e]; done. Qed.

Lemma reads_only_retrieveNElement id fromPage fromSequence n :
  reads_only (retrieveNElement id fromPage fromSequence n).
Proof.
  apply reads_only_bind; [|done].
  generalize (walk_fuel fromPage), (@nil item).
  intros fuel. revert fromPage fromSequence.
  induction fuel as [|fuel IH]; intros currentPage fromSequence acc; [done|].
  cbn [recursivelyRetrieveData]. destruct (num_lt0 currentPage); [done|].
  apply reads_only_bind; [apply reads_only_retrieveDataList|].
  intros l. by destruct (_ <? n).
Qed.

Lemma serve_read {A} w req (r0 : reply A) r w' :
  serve w req (r0, w_store w) = (r, w') → w_store w' = w_store w.
Proof.
  unfold serve, with_fault.
  destruct (w_faults w) as [|[e|] faults]; by intros [= <- <-].
Qed.

Lemma reads_only_leaves_store {A} (m : prog A) :
  reads_only m → leaves_store m.
Proof.
  intros Hm. split.
  - intros σ. induction m as [| | |? k IH|? ? k IH| | | |]; simpl in *;
      try done; by apply IH.
  - induction m as [| | |? k IH|? ? k IH| | | |]; intros w; simpl in *;
      try done;
      destruct (serve w _ _) as [r w'] eqn:E; apply serve_read in E;
      rewrite <- E; by apply IH.
Qed.

(** The functions that retrieve send no put, no append and no
    increment: whatever the store holds, whichever of their requests it
    refuses, and whatever they resolve or fail with, the store is after
    the call what it was before. *)
Theorem retrievals_never_write (id : string) (n : Z) (c : option cursor)
    (pageId : page_name) (suffix : key_suffix) :
  leaves_store (getCurrentPage id)
  ∧ leaves_store (getPage id suffix)
  ∧ leaves_store (retrieve id pageId)
  ∧ leaves_store (retrieveLastMostRecent id n)
  ∧ leaves_store (retrieveNextMostRecent id c n).
Proof.
  split_and!; apply reads_only_leaves_store.
  - apply reads_only_getCurrentPage.
  - destruct suffix; (apply reads_only_bind; [|done]); intros [?|?]; done.
  - destruct pageId; (apply reads_only_bind; [|done]).
    + apply reads_only_retrieveDataList.
    + intros [?|?]; done.
  - apply reads_only_bind; [apply reads_only_getCurrentPage|].
    intros p. apply reads_only_retrieveNElement.
  - unfold retrieveNextMostRecent. destruct c as [c|]; [|done].
    destruct (_ || _); [done|]. apply reads_only_retrieveNElement.
Qed.

(** ** The walk against a store that can refuse *)






(** ** Appends that fail *)

Lemma run_with_faults_getCurrentPage id w :
  run_with_faults (getCurrentPage id) w
  = match serve w (ReqGetSummary id)
            (store_get_summary (w_store w) id, w_store w) with
    | (Resolved (Some s), w') => (Fulfilled (s_currentPage s), w')
    | (Resolved None, w') => (Failed TypeError, w')
    | (Rejected e, w') => (Failed e, w')
    end.
Proof. simpl. by destruct (serve _ _ _) as [[[s|]|e] w']. Qed.

Lemma atomicAppendImpl_failures cfg timestamp id p v w e w' :
  run_with_faults (atomicAppendImpl cfg timestamp id p v 0) w = (Failed e, w') →
  e = JsError.
Proof.
  unfold atomicAppendImpl.
  assert (Hpass : ∀ (o : outcome position * world),
            (∀ e w', o = (Failed e, w') → e = JsError) →
            ∀ e w', match o with
                    | (Failed _, w2) => (Failed JsError, w2)
                    | other => other
                    end = (Failed e, w') → e = JsError).
  { intros [[a|e0|] w0] _ e1 w1; by intros [= <-]. }
  assert (Hattempt : ∀ self attempt w,
            (attempt ≤ 1)%nat →
            (∀ w e w', run_with_faults (self (attempt + 1)%nat) w = (Failed e, w')
                       → e = JsError) →
            ∀ e w',
              run_with_faults
                (atomicAppendImpl_body self cfg timestamp id p v attempt) w
              = (Failed e, w') → e = JsError).
  { intros self attempt w0 Hle Hself e0 w0'.
    rewrite run_with_faults_attempt by done.
    destruct (serve w0 _ _) as [[pg|e1] w1].
    - destruct (run_with_faults (afterAppend _ _ _ _ _) w1) as [[a|e2|] w2];
        by intros [= <-].
    - destruct (has_code e1 ValidationException); [|by intros [= <-]].
      destruct (serve w1 _ _) as [[[]|e2] w2]; [apply Hself|].
      destruct (has_code e2 _); [apply Hself | by intros [= <-]]. }
  apply Hattempt; [lia|]. intros w1 e1 w1'.
  apply Hattempt; [simpl; lia|]. intros w2 e2 w2'.
  unfold atomicAppendImpl_body. simpl. by intros [= <-].
Qed.

(** A failure of [atomicAppend] says neither what failed nor whether the
    value was stored.  Whatever the store refuses, [atomicAppendImpl]
    fails with the anonymous [new Error()] only.  And when the append
    fills the current page and the store then refuses the increment of
    the counter for a reason of its own, the call fails while the value
    is in the page and the counter is where it was: the caller that
    retries appends the value a second time. *)
Theorem append_failure_after_write (cfg : config) (timestamp : Z)
    (id : string) (value : payload) (σ : store) (s : summary) (pg : page)
    (err : exn) (faults : list (option exn)) :
  summaries σ !! id = Some s →
  pages σ !! (id, s_currentPage s) = Some pg →
  JS.ge (Z.of_nat (length (data_list pg)) + 1) (maxElementPerPage cfg) = true →
  has_code err ConditionalCheckFailedException = false →
  (∀ p w e w',
     run_with_faults (atomicAppendImpl cfg timestamp id p value 0) w
     = (Failed e, w') → e = JsError)
  ∧ ∃ w',
      run_with_faults (atomicAppend cfg timestamp id value)
        {| w_store := σ; w_faults := None :: None :: Some err :: faults;
           w_log := [] |}
      = (Failed JsError, w')
      ∧ page_values (w_store w') id (s_currentPage s) = data_list pg ++ [value]
      ∧ summaries (w_store w') = summaries σ.
Proof.
  intros Hs Hpg Hfull Hcode.
  split; [intros p w e w'; apply atomicAppendImpl_failures|].
  unfold atomicAppend.
  rewrite run_with_faults_bind, run_with_faults_getCurrentPage.
  cbn [serve with_fault w_faults w_store w_log tail store_get_summary refusal app].
  rewrite Hs. rewrite atomicAppendImpl_eq, run_with_faults_attempt by lia.
  cbn [w_store]. unfold store_list_append. rewrite Hpg.
  cbn [serve with_fault w_faults w_store w_log tail refusal app].
  cbn [data_list]. rewrite length_app, Nat2Z.inj_add.
  change (Z.of_nat (length [value])) with 1.
  unfold afterAppend. rewrite Hfull.
  rewrite run_with_faults_bind, run_with_faults_increasePageCounter.
  cbn [serve with_fault w_faults w_store w_log tail refusal app].
  rewrite Hcode. eexists. split; [reflexivity|].
  cbn [w_store summaries]. split; [|done].
  unfold page_values. cbn [pages]. by rewrite lookup_insert_eq.
Qed.

Lemma append_failure_after_write_witness :
  let σ := example_list ["Hello0"] in
  ∃ w',
    run_with_faults (atomicAppend cfg_two 1 "L" "Hello1")
      {| w_store := σ;
         w_faults := [None; None; Some (AwsError "ThrottlingException")];
         w_log := [] |}
    = (Failed JsError, w')
    ∧ page_values (w_store w') "L" 0 = ["Hello0"; "Hello1"]
    ∧ summaries (w_store w') = summaries σ.
Proof.
  intros σ.
  exact (proj2 (append_failure_after_write cfg_two 1 "L" "Hello1" σ
                  (defaultPageSummary "L" None 0)
                  {| p_v := 1; p_id := "L_0"; p_submittedAt := 0;
                     data_list := ["Hello0"] |}
                  (AwsError "ThrottlingException") []
                  eq_refl eq_refl eq_refl eq_refl)).
Defined.

(** ** Interleaved callers: a page over its maximum *)




(** ** Cursors that settle *)




(** ** Appends among other callers *)

Lemma guarantees_weaken {A} (m : prog A) σ (Q Q' : A → store → Prop)
    (E E' : exn → store → Prop) :
  (∀ a σ, Q a σ → Q' a σ) → (∀ e σ, E e σ → E' e σ) →
  guarantees m σ Q E → guarantees m σ Q' E'.
Proof.
  intros HQ HE. revert σ.
  induction m as [| | |? k IH|? ? k IH|? ? k IH|? ? ? k IH|? ? ? k IH|? ? k IH];
    simpl; intros σ H; auto; intros σ1 Hσ1; apply IH; by apply H.
Qed.

Lemma guarantees_bind {A B} (m : prog A) (f : A → prog B) σ Q E :
  guarantees m σ (λ a σ', guarantees (f a) σ' Q E) E →
  guarantees (bind m f) σ Q E.
Proof.
  revert σ.
  induction m as [| | |? k IH|? ? k IH|? ? k IH|? ? ? k IH|? ? ? k IH|? ? k IH];
    simpl; intros σ H; auto; intros σ1 Hσ1; apply IH; by apply H.
Qed.

Lemma guarantees_catch {A} (m : prog A) (h : exn → prog A) σ Q E :
  guarantees m σ Q (λ e σ', guarantees (h e) σ' Q E) →
  guarantees (catch m h) σ Q E.
Proof.
  revert σ.
  induction m as [| | |? k IH|? ? k IH|? ? k IH|? ? ? k IH|? ? ? k IH|? ? k IH];
    simpl; intros σ H; auto; intros σ1 Hσ1; apply IH; by apply H.
Qed.

(** What was guaranteed stays guaranteed after the others moved. *)
Lemma guarantees_grow {A} (m : prog A) σ σ' (Q : A → store → Prop)
    (E : exn → store → Prop) :
  (∀ a σ σ', pages_grow σ σ' → Q a σ → Q a σ') →
  (∀ e σ σ', pages_grow σ σ' → E e σ → E e σ') →
  pages_grow σ σ' →
  guarantees m σ Q E → guarantees m σ' Q E.
Proof.
  intros HQ HE Hσ. destruct m; simpl; eauto;
    intros H σ1 Hσ1; apply H; by eapply pages_grow_trans.
Qed.

Lemma guarantees_step {A} (m m' : prog A) σ σ' Q E :
  guarantees m σ Q E →
  request_step m σ = Some (m', σ') →
  guarantees m' σ' Q E.
Proof.
  destruct m; simpl; try done; intros H; specialize (H σ (pages_grow_refl σ)).
  - by intros [= <- <-].
  - by intros [= <- <-].
  - destruct (store_put_summary σ id it). by intros [= <- <-].
  - destruct (store_put_page σ id pageId it). by intros [= <- <-].
  - destruct (store_list_append σ id pageId v). by intros [= <- <-].
  - destruct (store_increment σ id floor). by intros [= <- <-].
Qed.

Lemma store_put_page_grow σ id p it : pages_grow σ (store_put_page σ id p it).2.
Proof.
  apply (request_step_pages_grow (PutPage id p it (λ _, Ret tt)) (Ret tt)).
  simpl. by destruct (store_put_page σ id p it).
Qed.

Lemma store_list_append_grow σ id p v :
  pages_grow σ (store_list_append σ id p v).2.
Proof.
  apply (request_step_pages_grow (ListAppend id p v (λ _, Ret tt)) (Ret tt)).
  simpl. by destruct (store_list_append σ id p v).
Qed.

Lemma store_increment_grow σ id c : pages_grow σ (store_increment σ id c).2.
Proof.
  apply (request_step_pages_grow (IncrementCounter id c (λ _, Ret tt)) (Ret tt)).
  simpl. by destruct (store_increment σ id c).
Qed.

Lemma stored_at_grow id v pos σ σ' :
  pages_grow σ σ' → stored_at id v pos σ → stored_at id v pos σ'.
Proof.
  intros Hgrow [Hv Hpos]. split; [|done]. unfold page_values in *.
  destruct (pages σ !! (id, pos_page_id pos)) as [pg|] eqn:Hpg; [|done].
  destruct (Hgrow _ _ Hpg) as (pg' & -> & Hprefix).
  by eapply prefix_lookup_Some.
Qed.

Lemma page_kept σ σ' key :
  pages_grow σ σ' → is_Some (pages σ !! key) → is_Some (pages σ' !! key).
Proof. intros Hgrow [pg Hpg]. destruct (Hgrow _ _ Hpg) as (pg' & -> & _). eauto. Qed.

(** In a store that refuses nothing, [createNewPage] does not fail, and
    the page exists once it has resolved. *)
Lemma guarantees_createNewPage id c timestamp σ (Q : unit → store → Prop) :
  (∀ σ', pages_grow σ σ' → is_Some (pages σ' !! (id, c)) → Q tt σ') →
  guarantees (createNewPage id c timestamp) σ Q (λ _ _, False).
Proof.
  intros HQ σ1 Hσ1.
  pose proof (store_put_page_grow σ1 id c
                (getDefaultPageData (id +:+ "_" +:+ num_to_string (Num c))
                   timestamp)) as Hput.
  unfold store_put_page in *.
  destruct (pages σ1 !! (id, c)) as [pg|] eqn:Hpg; simpl.
  - apply HQ; [done | by rewrite Hpg].
  - apply HQ; [by eapply pages_grow_trans|].
    cbn [pages]. rewrite lookup_insert_eq. eauto.
Qed.

(** Nor does [increasePageCounter]: a refusal of the increment is the
    counter that has moved, which is ignored. *)
Lemma guarantees_increasePageCounter id p σ (Q : option Z → store → Prop) :
  (∀ r σ', pages_grow σ σ' → Q r σ') →
  guarantees (increasePageCounter id p) σ Q (λ _ _, False).
Proof.
  intros HQ σ1 Hσ1.
  pose proof (store_increment_grow σ1 id p) as Hinc.
  unfold store_increment in *.
  destruct (summaries σ1 !! id) as [s|]; [destruct (s_currentPage s =? p)|];
    simpl; apply HQ; by eapply pages_grow_trans.
Qed.

Lemma guarantees_afterAppend cfg timestamp id p n v σ :
  stored_at id v {| pos_page_id := p; pos_sequence_id := n - 1 |} σ →
  guarantees (afterAppend cfg timestamp id p n) σ (stored_at id v)
    (λ _ _, False).
Proof.
  intros Hstored. unfold afterAppend. destruct (JS.ge _ _); [|done].
  apply guarantees_bind, guarantees_increasePageCounter.
  intros [c|] σ1 Hσ1; [|by eapply stored_at_grow].
  destruct (_ && _); [|by eapply stored_at_grow].
  apply guarantees_bind, guarantees_createNewPage.
  intros σ2 Hσ2 _. simpl.
  eapply stored_at_grow; [|done]. by eapply pages_grow_trans.
Qed.

(** One attempt of [atomicAppendImpl], when the page exists or the next
    attempt can rely on it. *)
Lemma guarantees_attempt self cfg timestamp id p v attempt σ :
  (attempt ≤ 1)%nat →
  is_Some (pages σ !! (id, p))
  ∨ (∀ σ', is_Some (pages σ' !! (id, p)) →
           guarantees (self (attempt + 1)%nat) σ' (stored_at id v)
             (λ _ _, False)) →
  guarantees (atomicAppendImpl_body self cfg timestamp id p v attempt) σ
    (stored_at id v) (λ _ _, False).
Proof.
  intros Hattempt Hpage. unfold atomicAppendImpl_body.
  destruct (Nat.ltb_spec 1 attempt) as [?|_]; [lia|].
  apply guarantees_catch, guarantees_bind.
  intros σ1 Hσ1.
  pose proof (store_list_append_grow σ1 id p v) as Happ.
  unfold store_list_append in *.
  destruct (pages σ1 !! (id, p)) as [pg|] eqn:Hpg;
    cbn [fst snd settle bind guarantees].
  - eapply guarantees_weaken; [done | | apply guarantees_afterAppend]; [done|].
    unfold stored_at, page_values. cbn [pages pos_page_id pos_sequence_id].
    rewrite lookup_insert_eq. cbn [data_list].
    rewrite length_app. cbn [length].
    replace (Z.to_nat (Z.of_nat (length (data_list pg) + 1) - 1))
      with (length (data_list pg) + 0)%nat by lia.
    rewrite lookup_app_r, Nat.add_0_r, Nat.sub_diag by lia. split; [done | lia].
  - destruct Hpage as [Hexists|Hself].
    + apply (page_kept _ _ _ Hσ1) in Hexists. rewrite Hpg in Hexists.
      by destruct Hexists.
    + change (has_code (AwsError ValidationException) ValidationException)
        with true. cbn iota.
      apply guarantees_bind, guarantees_createNewPage.
      intros σ2 _ Hexists. by apply Hself.
Qed.

Lemma guarantees_atomicAppend cfg timestamp id v σ :
  guarantees (atomicAppend cfg timestamp id v) σ (stored_at id v)
    (λ e _, e = TypeError).
Proof.
  unfold atomicAppend, getCurrentPage, getPageData_summary.
  cbn [bind guarantees]. intros σ1 _. cbn [store_get_summary settle bind].
  destruct (summaries σ1 !! id) as [s|]; cbn [bind guarantees]; [|done].
  apply (guarantees_weaken _ _ (stored_at id v) (stored_at id v)
           (λ _ _, False) (λ e _, e = TypeError)); [done | by intros ? ? [] |].
  unfold atomicAppendImpl.
  apply guarantees_attempt; [lia|]. right. intros σ2 Hexists.
  apply guarantees_attempt; [simpl; lia|]. by left.
Qed.


Lemma run_schedule_guarantees i (Q : unit → store → Prop)
    (E : exn → store → Prop) sched st :
  (∀ a σ σ', pages_grow σ σ' → Q a σ → Q a σ') →
  (∀ e σ σ', pages_grow σ σ' → E e σ → E e σ') →
  (∀ m, st.1 !! i = Some m → guarantees m st.2 Q E) →
  ∀ m, (run_schedule sched st).1 !! i = Some m →
       guarantees m (run_schedule sched st).2 Q E.
Proof.
  intros HQ HE. revert st.
  induction sched as [|j sched IH]; intros st Hst; [done|].
  simpl. apply IH. unfold sched_step.
  destruct (st.1 !! j) as [mj|] eqn:Hj; [|done].
  destruct (request_step mj st.2) as [[mj' σ']|] eqn:Hstep; [|done].
  cbn [fst snd]. intros m.
  destruct (decide (i = j)) as [->|Hne].
  - rewrite list_lookup_insert_eq by (by eapply lookup_lt_Some).
    intros [= <-]. eapply guarantees_step; [|done]. by apply Hst.
  - rewrite list_lookup_insert_ne by done. intros Hm.
    eapply guarantees_grow; [done | done | | by apply Hst].
    by eapply request_step_pages_grow.
Qed.

(** In a store that refuses nothing, whatever calls of the interface
    are in flight and however the scheduler interleaves their requests,
    a call of [atomicAppend] never ends in a failure other than the
    [TypeError] of a list that does not exist: neither a page that is
    missing, nor a page that another caller creates first, nor a counter
    that another caller moves first makes it fail. *)
Theorem interleaved_append_succeeds (calls : list call) (σ : store)
    (sched : list nat) (i : nat) (cfg : config) (timestamp : Z)
    (id : string) (value : payload) (e : exn) :
  calls !! i = Some (CallAtomicAppend cfg timestamp id value) →
  (run_schedule sched (start <$> calls, σ)).1 !! i = Some (Throw e) →
  e = TypeError.
Proof.
  intros Hcall Hend.
  assert (Hstart : guarantees (start (CallAtomicAppend cfg timestamp id value))
                     σ (λ _ _, True) (λ e _, e = TypeError)).
  { cbn [start]. apply guarantees_bind.
    apply (guarantees_weaken _ _ (stored_at id value) _
             (λ e _, e = TypeError) _); [done | done |].
    apply guarantees_atomicAppend. }
  apply (run_schedule_guarantees i (λ _ _, True) (λ e _, e = TypeError)
           sched (start <$> calls, σ)) in Hend; [done | done | done |].
  cbn [fst snd]. intros m. rewrite list_lookup_fmap, Hcall.
  by intros [= <-].
Qed.

Lemma interleaved_append_succeeds_witness :
  let calls := [CallAtomicAppend cfg_two 1 "L" "a";
                CallAtomicAppend cfg_two 2 "M" "b"] in
  (run_schedule [1; 0; 0]%nat (start <$> calls, example_list [])).1 !! 1%nat
  = Some (Throw TypeError).
Proof.
  intros calls.
  assert (H : ∃ e, (run_schedule [1; 0; 0]%nat
                      (start <$> calls, example_list [])).1 !! 1%nat
                   = Some (Throw e)) by (eexists; vm_compute; reflexivity).
  destruct H as [e He].
  rewrite He. do 2 f_equal.
  exact (interleaved_append_succeeds calls (example_list []) [1; 0; 0]%nat 1
           cfg_two 2 "M" "b" e eq_refl He).
Defined.

(** ** Interleaved callers: the summaries *)

Lemma summaries_kept_refl σ : summaries_kept σ σ.
Proof. intros id s Hs. exists s. by split_and!. Qed.

Lemma summaries_kept_trans σ1 σ2 σ3 :
  summaries_kept σ1 σ2 → summaries_kept σ2 σ3 → summaries_kept σ1 σ3.
Proof.
  intros H12 H23 id s Hs.
  destruct (H12 id s Hs) as (s' & Hs' & ? & ? & ? & ? & ?).
  destruct (H23 id s' Hs') as (s'' & Hs'' & ? & ? & ? & ? & ?).
  exists s''. split_and!; [done | congruence.. | lia].
Qed.

Lemma same_summaries_kept σ σ' :
  summaries σ' = summaries σ → summaries_kept σ σ'.
Proof. intros H id s Hs. exists s. rewrite H. by split_and!. Qed.

(** Whatever the promise, one request rewrites no summary: the put of
    [idempotentCreate] creates a summary only where there is none, and
    the increment touches the counter alone. *)
Lemma request_step_summaries_kept {A} (m m' : prog A) σ σ' :
  request_step m σ = Some (m', σ') → summaries_kept σ σ'.
Proof.
  destruct m; simpl; try done.
  - intros [= _ <-]. apply summaries_kept_refl.
  - intros [= _ <-]. apply summaries_kept_refl.
  - unfold store_put_summary.
    destruct (summaries σ !! id) as [s0|] eqn:Hs0;
      intros [= _ <-]; [apply summaries_kept_refl|].
    intros id' s Hs. exists s. cbn [summaries].
    rewrite lookup_insert_ne by congruence. by split_and!.
  - pose proof (store_put_page_summaries σ id pageId it) as H.
    destruct (store_put_page σ id pageId it).
    intros [= _ <-]. by apply same_summaries_kept.
  - pose proof (store_list_append_summaries σ id pageId v) as H.
    destruct (store_list_append σ id pageId v).
    intros [= _ <-]. by apply same_summaries_kept.
  - unfold store_increment.
    destruct (summaries σ !! id) as [s0|] eqn:Hs0;
      [destruct (s_currentPage s0 =? floor)|];
      intros [= _ <-]; try apply summaries_kept_refl.
    intros id' s Hs. cbn [summaries].
    destruct (decide (id' = id)) as [->|Hne].
    + rewrite lookup_insert_eq. rewrite Hs0 in Hs. injection Hs as <-.
      eexists. split; [done|]. simpl. split_and!; [done.. | lia].
    + rewrite lookup_insert_ne by done. exists s. by split_and!.
Qed.

Lemma run_schedule_summaries_kept sched st :
  summaries_kept st.2 (run_schedule sched st).2.
Proof.
  revert st. induction sched as [|i sched IH]; intros st;
    [apply summaries_kept_refl|].
  simpl. eapply summaries_kept_trans; [|apply IH].
  unfold sched_step. destruct (st.1 !! i) as [m|];
    [|apply summaries_kept_refl].
  destruct (request_step m st.2) as [[m' σ']|] eqn:Hstep;
    [|apply summaries_kept_refl].
  by apply request_step_summaries_kept in Hstep.
Qed.

(** A list is created once.  Whatever calls of the interface are in
    flight and however the scheduler interleaves their requests, the
    summary of a list that exists is never lost and never rewritten: its
    version, id, metadata and [submittedAt] stay those of the call of
    [idempotentCreate] that created it, whatever metadata a later
    [idempotentCreate] brings, and only its counter moves, upwards. *)
Theorem summary_never_rewritten (calls : list call) (σ : store)
    (sched1 sched2 : list nat) :
  let st1 := run_schedule sched1 (start <$> calls, σ) in
  let st2 := run_schedule sched2 st1 in
  summaries_kept st1.2 st2.2.
Proof. intros st1 st2. apply run_schedule_summaries_kept. Qed.

Lemma summary_never_rewritten_witness :
  let σ := (run (idempotentCreate "L" (Some "first") 0) empty_store).2 in
  let calls := [CallIdempotentCreate "L" (Some "second") 9;
                CallAtomicAppend cfg_two 1 "L" "a";
                CallAtomicAppend cfg_two 2 "L" "b"] in
  let st1 := run_schedule [0]%nat (start <$> calls, σ) in
  let st2 := run_schedule [1; 2; 1; 2; 1; 2; 1; 2; 1; 2]%nat st1 in
  ∃ s',
    summaries st2.2 !! "L" = Some s'
    ∧ s_v s' = 1 ∧ s_id s' = "L_summary"
    ∧ s_metadata s' = Some "first"
    ∧ s_submittedAt s' = 0
    ∧ 0 ≤ s_currentPage s'.
Proof.
  intros σ calls st1 st2.
  exact (summary_never_rewritten calls σ [0]%nat
           [1; 2; 1; 2; 1; 2; 1; 2; 1; 2]%nat "L"
           (defaultPageSummary "L" (Some "first") 0) eq_refl).
Defined.

(** ** The scenarios of the repository's tests *)

Example test_scenarios :
  let σ := example_list ["Hello0"; "Hello1"; "Hello2"; "Hello3"; "Hello4"] in
  (run (getCurrentPage "L") (example_list [])).1 = Fulfilled 0
  ∧ (run (getCurrentPage "L") σ).1 = Fulfilled 2
  ∧ looked_at (run (retrieveLastMostRecent "L" 1) σ).1
    = [("Hello4", "2", "0")]
  ∧ looked_at (run (retrieveLastMostRecent "L" 3) σ).1
    = [("Hello4", "2", "0"); ("Hello3", "1", "1"); ("Hello2", "1", "0")]
  ∧ looked_at (run (retrieveLastMostRecent "L" 300) σ).1
    = [("Hello4", "2", "0"); ("Hello3", "1", "1"); ("Hello2", "1", "0");
       ("Hello1", "0", "1"); ("Hello0", "0", "0")]
  ∧ looked_at
      (run (retrieveNextMostRecent "L"
              (Some {| cur_page_id := VStr "2"; cur_sequence_id := VStr "0" |})
              300) σ).1
    = [("Hello3", "1", "1"); ("Hello2", "1", "0");
       ("Hello1", "0", "1"); ("Hello0", "0", "0")].
Proof. vm_compute. auto 10. Qed.
